(** * Rate-limited image generation: scheduler and job poller

    A shallow embedding of the two TypeScript services that implement the
    rate-limited external-call scheduler of the campaign engine:

    - [GeminiGen]: [GeminiGenImageService] (services/gemini-genai.service.ts),
      the downstream job: [generateBrandingImage], [generateImage] and the
      polling state machine [pollTaskCompletion];
    - [RateLimited]: [RateLimitedImageService]
      (services/rate-limited-image.service.ts), the sliding-window limiter
      with its request queue and drain loop [processQueue].

    Conventions of the embedding.
    - Times are integer milliseconds ([Z]).  [Date.now()] reads the field
      [now] of the state, the wall clock, and a synchronous block of code
      runs at one instant.  Time passes by [Tick d], and the wall clock may
      be set forward or back at any moment ([ClockSteps delta]); timers
      ([setTimeout]) run on the elapsed time [uptime], which never goes
      back, and fire at any instant not before their deadline.
    - An [await] is a suspension point: the code up to it is one atomic
      step, and any other enabled step may run before the continuation.
    - The limiter's downstream is the image service itself: a downstream
      call settles as [GeminiGen.generateBrandingImage] does in the world
      the call meets.
    - JavaScript strings are modelled as ASCII strings.  A number read
      from a response is given by its rendering; a number that the code
      computes is an integer [Z] within the safe range, and [Js.Num] says
      so where the code could leave that range.
    - [Array.prototype.sort] is stable (ECMAScript 2019), so its result is
      the one of any stable sort; it is modelled by a stable insertion sort. *)

From Stdlib Require Import List ZArith String Ascii Bool Lia DecimalString.
From Stdlib Require Import Sorted Permutation.
From Stdlib Require DecimalPos.
Import ListNotations.

Local Open Scope string_scope.
Local Open Scope list_scope.
Local Open Scope Z_scope.

(* ================================================================== *)
(** * JavaScript primitives used by the services *)
(* ================================================================== *)

Module Js.

(** [`${n}`] for an integer. *)
Definition showZ (z : Z) : string := NilZero.string_of_int (Z.to_int z).

(** A template literal: the concatenation of its parts. *)
Definition template (parts : list string) : string := String.concat "" parts.

(** The double-quote character, as a string. *)
Definition quote : string := String (ascii_of_nat 34) EmptyString.

(** [Math.floor(ms / 1000)]. *)
Definition seconds (ms : Z) : Z := ms / 1000.

(** [Math.ceil(a / b)] for a positive divisor. *)
Definition ceilDiv (a b : Z) : Z := - ((- a) / b).

(** [Number.MAX_SAFE_INTEGER]: up to it in magnitude, integers are exact
    and are printed with all their digits. *)
Definition maxSafeInteger : Z := 9007199254740991.

Definition isSafeInteger (z : Z) : bool := Z.abs z <=? maxSafeInteger.

(** A value read from a parsed JSON body or from a header table.  A number
    is given by its rendering, the text that [toString] and a template
    literal produce for it: all the digits of an integer below 10^21 in
    magnitude, the exponent form from there on (1e+21), a decimal point
    for a fraction, NaN, Infinity. *)
Inductive Value :=
| Undefined
| Number (rendering : string)
| Text (s : string)
| Object.

(** The number [z], for a safe integer [z]. *)
Definition number (z : Z) : Value := Number (showZ z).

(** Truthiness, as used by [||] and [&&]. *)
Definition truthy (v : Value) : bool :=
  match v with
  | Undefined => false
  | Number rendering =>
      (* 0, -0 (which is rendered as 0) and NaN are falsy *)
      negb (String.eqb rendering "0" || String.eqb rendering "NaN")
  | Text s => negb (String.eqb s "")
  | Object => true
  end.

(** [a || b]. *)
Definition or (a b : Value) : Value := if truthy a then a else b.

(** [v.toString()] and [`${v}`]. *)
Definition toString (v : Value) : string :=
  match v with
  | Undefined => "undefined"
  | Number rendering => rendering
  | Text s => s
  | Object => "[object Object]"
  end.

(** A non-empty string is truthy. *)
Definition nonEmpty (s : string) : bool := negb (String.eqb s "").

(** [s || dflt] for an optional string. *)
Definition orText (s : option string) (dflt : string) : string :=
  match s with
  | Some t => if nonEmpty t then t else dflt
  | None => dflt
  end.

Definition isDigit (c : ascii) : bool :=
  let n := nat_of_ascii c in (48 <=? n)%nat && (n <=? 57)%nat.

Definition digitValue (c : ascii) : Z := Z.of_nat (nat_of_ascii c) - 48.

(** White space of [\s] and of [parseInt], ASCII part. *)
Definition isSpace (c : ascii) : bool :=
  let n := nat_of_ascii c in
  (n =? 32)%nat || ((9 <=? n)%nat && (n <=? 13)%nat).

Fixpoint dropWhile (p : ascii -> bool) (s : string) : string :=
  match s with
  | EmptyString => EmptyString
  | String c t => if p c then dropWhile p t else s
  end.

Fixpoint takeWhile (p : ascii -> bool) (s : string) : string :=
  match s with
  | EmptyString => EmptyString
  | String c t => if p c then String c (takeWhile p t) else EmptyString
  end.

(** The value of a run of decimal digits, most significant first. *)
Fixpoint digitsValue (acc : Z) (s : string) : Z :=
  match s with
  | EmptyString => acc
  | String c t => digitsValue (10 * acc + digitValue c) t
  end.

(** A number that the code computes from text: NaN, a safe integer, or a
    number beyond the safe range (the infinities among them).  Beyond the
    safe range [parseInt] and the arithmetic are only approximate, and the
    model does not follow the value: it is [Unsafe]. *)
Inductive Num :=
| NaN
| Int (z : Z)
| Unsafe.

Definition toNum (z : Z) : Num := if isSafeInteger z then Int z else Unsafe.

(** [parseInt(s, 10)]. *)
Definition parseInt (s : string) : Num :=
  let s1 := dropWhile isSpace s in
  let '(neg, s2) :=
    match s1 with
    | String "-" t => (true, t)
    | String "+" t => (false, t)
    | _ => (false, s1)
    end in
  let ds := takeWhile isDigit s2 in
  match ds with
  | EmptyString => NaN
  | _ => toNum (if neg then - digitsValue 0 ds else digitsValue 0 ds)
  end.

(** [n || 0] for the result of [parseInt]; [None] beyond the safe range. *)
Definition orZero (n : Num) : option Z :=
  match n with
  | NaN => Some 0
  | Int z => Some z
  | Unsafe => None
  end.

(** [n * k] for a safe integer [k]. *)
Definition times (n : Num) (k : Z) : Num :=
  match n with
  | Int z => toNum (z * k)
  | other => other
  end.

(** [TIMEOUT_MAX] of Node's timers. *)
Definition maxTimeout : Z := 2147483647.

(** The delay that [setTimeout(f, ms)] uses: one that is below 1, above
    [maxTimeout] or NaN is replaced by 1. *)
Definition timerDelay (ms : Num) : Z :=
  match ms with
  | Int d => if (d <? 1) || (d >? maxTimeout) then 1 else d
  | NaN | Unsafe => 1
  end.

(** [s.startsWith(p)]. *)
Fixpoint startsWith (p s : string) : bool :=
  match p, s with
  | EmptyString, _ => true
  | String a p', String b s' => Ascii.eqb a b && startsWith p' s'
  | String _ _, EmptyString => false
  end.

(** [s.includes(p)]. *)
Fixpoint includes (p s : string) : bool :=
  startsWith p s ||
  match s with
  | EmptyString => false
  | String _ s' => includes p s'
  end.

(** Lower case of an ASCII letter, for the [i] flag of a regular
    expression. *)
Definition lower (c : ascii) : ascii :=
  let n := nat_of_ascii c in
  if (65 <=? n)%nat && (n <=? 90)%nat then ascii_of_nat (n + 32) else c.

(** [p] is a prefix of [s] up to letter case; the rest of [s]. *)
Fixpoint stripPrefixCI (p s : string) : option string :=
  match p, s with
  | EmptyString, _ => Some s
  | String a p', String b s' =>
      if Ascii.eqb (lower a) (lower b) then stripPrefixCI p' s' else None
  | String _ _, EmptyString => None
  end.

(** An error value as the services inspect it: [instanceof Error],
    [axios.isAxiosError], [message], and the fields of [response] that
    the code reads. *)
Record Response := {
  status : option Z;
  statusText : string;
  data_message : Value;
  data_error : Value;
  data_detail_retry_after : Value;
  data_retry_after : Value;
  header_retry_after : Value;
  header_Retry_After : Value
}.

Record Error := {
  isError : bool;
  isAxiosError : bool;
  message : string;
  response : option Response
}.

(** [new Error(msg)]. *)
Definition newError (msg : string) : Error :=
  {| isError := true; isAxiosError := false; message := msg;
     response := None |}.

(** [error instanceof Error ? error.message : dflt]. *)
Definition messageOr (dflt : string) (e : Error) : string :=
  if isError e then message e else dflt.

(** [s.toLowerCase()], for ASCII text. *)
Fixpoint toLowerCase (s : string) : string :=
  match s with
  | EmptyString => EmptyString
  | String c t => String (lower c) (toLowerCase t)
  end.

(** [s.trimEnd()] and [s.trim()], for ASCII white space. *)
Fixpoint trimEnd (s : string) : string :=
  match s with
  | EmptyString => EmptyString
  | String c t =>
      match trimEnd t with
      | EmptyString => if isSpace c then EmptyString else String c EmptyString
      | t' => String c t'
      end
  end.

Definition trim (s : string) : string := trimEnd (dropWhile isSpace s).

(** [s.endsWith(p)]. *)
Fixpoint endsWith (p s : string) : bool :=
  String.eqb s p ||
  match s with
  | EmptyString => false
  | String _ t => endsWith p t
  end.

(** Every character of [s] satisfies [p]. *)
Fixpoint allChars (p : ascii -> bool) (s : string) : bool :=
  match s with
  | EmptyString => true
  | String c t => p c && allChars p t
  end.

(** [list.includes(s)] for an array of strings. *)
Definition member (s : string) (l : list string) : bool :=
  existsb (String.eqb s) l.

(** A field of a request body that is falsy: absent or the empty string. *)
Definition falsy (s : option string) : bool :=
  match s with
  | Some t => negb (nonEmpty t)
  | None => true
  end.

End Js.

(* ================================================================== *)
(** * The payload types (types/image-branding.types.ts) *)
(* ================================================================== *)

Record ImageBrandingRequest := {
  productName : string;
  platform : string;
  tone : string;
  flavor : option string;
  style : option string
}.

Record ImageMetadata := {
  format : string;
  generatedAt : string;
  dimensions : string;
  geminiGenRequestId : string;
  s3Key : option string;
  localPath : string
}.

Record ImageData := {
  data_productName : string;
  data_platform : string;
  data_tone : string;
  data_style : string;
  generatedImage : string;
  imagePrompt : string;
  metadata : ImageMetadata
}.

Record ImageBrandingResponse := {
  success : bool;
  data : option ImageData;
  error : option string;
  savedFilename : option string;
  viewUrl : option string
}.

(** [{ success: false, error: msg }]. *)
Definition failure (msg : string) : ImageBrandingResponse :=
  {| success := false; data := None; error := Some msg;
     savedFilename := None; viewUrl := None |}.

(** How a promise settles. *)
Inductive Settlement :=
| Resolved (r : ImageBrandingResponse)
| Rejected (e : Js.Error).

(* ================================================================== *)
(** * GeminiGenImageService: the downstream job *)
(* ================================================================== *)

Module GeminiGen.

(** ** The polling state machine [pollTaskCompletion] *)

(** One entry of [task.generated_image]. *)
Record GeneratedImage := { image_url : option string }.

(** The body of a status response, [response.data]. *)
Record Task := {
  status : Z;
  generated_image : option (list GeneratedImage);
  error_message : option string
}.

(** The outcome of one [axios.get(statusUrl)]. *)
Inductive QueryResult :=
| Responded (task : Task)
| QueryThrew (e : Js.Error).

(** The provider, as the poller sees it: the outcome of the k-th status
    query it receives (k = 0, 1, ...). *)
Definition Provider := nat -> QueryResult.

Record ScheduleEntry := { attempt : Z; delay : Z }.

Definition pollingSchedule : list ScheduleEntry :=
  [ {| attempt := 1; delay := 0 |};
    {| attempt := 2; delay := 38000 |};
    {| attempt := 3; delay := 25000 |};
    {| attempt := 4; delay := 30000 |} ].

(** What the poller does that the outside can observe, in order. *)
Inductive PollEvent :=
| Waited (ms : Z)
| Queried (attempt : Z).

Record PollState := {
  totalTime : Z;
  events : list PollEvent
}.

Definition pollStart : PollState := {| totalTime := 0; events := [] |}.

(** [await new Promise(resolve => setTimeout(resolve, delay)); totalTime += delay]. *)
Definition wait (ms : Z) (st : PollState) : PollState :=
  {| totalTime := totalTime st + ms; events := events st ++ [Waited ms] |}.

Definition isQuery (e : PollEvent) : bool :=
  match e with Queried _ => true | Waited _ => false end.

(** The number of status queries issued so far. *)
Definition queryCount (st : PollState) : nat :=
  List.length (filter isQuery (events st)).

Definition recordQuery (a : Z) (st : PollState) : PollState :=
  {| totalTime := totalTime st; events := events st ++ [Queried a] |}.

(** The value [{ imageUrl }] the poller returns. *)
Record PollResult := { imageUrl : option string }.

(** How the body of the [try] block of one attempt ends. *)
Inductive Completion :=
| Returned (r : PollResult)
| Threw (e : Js.Error)
| Continued.

(** The interpretation of [task.status] in the [try] block. *)
Definition interpretStatus (len total a : Z) (task : Task) : Completion :=
  let st := status task in
  if st =? 2 then
    match generated_image task with
    | Some (img :: _) => Returned {| imageUrl := image_url img |}
    | _ => Threw (Js.newError "Task completed but no generated images found")
    end
  else if (st =? 3) || (st =? 4) then
    Threw (Js.newError (Js.template
      ["Task failed with status: "; Js.showZ st; " - ";
       Js.orText (error_message task) "Unknown error"]))
  else if (st =? 0) || (st =? 1) then
    let statusText := if st =? 0 then "PENDING" else "PROCESSING" in
    if a >=? len then
      Threw (Js.newError (Js.template
        ["Task still "; statusText; " after "; Js.showZ (Js.seconds total);
         "s - maximum wait time exceeded"]))
    else Continued
  else
    if a >=? len then
      Threw (Js.newError (Js.template
        ["Task has unknown status "; Js.showZ st; " after ";
         Js.showZ (Js.seconds total); "s"]))
    else Continued.

(** The error of the [catch] block on the final attempt. *)
Definition pollingFailed (len total : Z) (e : Js.Error) : Js.Error :=
  Js.newError (Js.template
    ["Polling failed after "; Js.showZ len; " attempts (";
     Js.showZ (Js.seconds total); "s total): ";
     Js.messageOr "Unknown error" e]).

(** The error thrown after the loop. *)
Definition didNotComplete (len total : Z) : Js.Error :=
  Js.newError (Js.template
    ["Task did not complete within "; Js.showZ (Js.seconds total);
     " seconds ("; Js.showZ len; " attempts)"]).

(** The [for (const { attempt, delay } of pollingSchedule)] loop, over the
    entries still to run; [len] is [pollingSchedule.length]. *)
Fixpoint pollLoop (provider : Provider) (len : Z)
    (schedule : list ScheduleEntry) (st : PollState)
    : PollState * (Js.Error + PollResult) :=
  match schedule with
  | [] => (st, inl (didNotComplete len (totalTime st)))
  | entry :: rest =>
      let st1 := if delay entry >? 0 then wait (delay entry) st else st in
      let st2 := recordQuery (attempt entry) st1 in
      let completion :=
        match provider (queryCount st1) with
        | QueryThrew e => Threw e
        | Responded task =>
            interpretStatus len (totalTime st2) (attempt entry) task
        end in
      match completion with
      | Returned r => (st2, inr r)
      | Continued => pollLoop provider len rest st2
      | Threw e =>
          if attempt entry =? len
          then (st2, inl (pollingFailed len (totalTime st2) e))
          else pollLoop provider len rest st2
      end
  end.

Definition pollTaskCompletion (provider : Provider)
    : PollState * (Js.Error + PollResult) :=
  pollLoop provider (Z.of_nat (List.length pollingSchedule)) pollingSchedule
    pollStart.

(** Classes of status responses, in the words of the poller's comments. *)
Definition stillPending (task : Task) : Prop :=
  status task = 0 \/ status task = 1.

Definition unknownStatus (task : Task) : Prop :=
  status task <> 0 /\ status task <> 1 /\ status task <> 2 /\
  status task <> 3 /\ status task <> 4.

Definition terminalSuccess (task : Task) (url : option string) : Prop :=
  status task = 2 /\
  exists img more, generated_image task = Some (img :: more) /\
                   image_url img = url.

(** The events of a run in which all four attempts are made. *)
Definition fullSchedule : list PollEvent :=
  [Queried 1; Waited 38000; Queried 2; Waited 25000; Queried 3;
   Waited 30000; Queried 4].

(** The only answer that ends polling before the schedule is exhausted: a
    completed task with at least one generated image. *)
Definition endsPolling (q : QueryResult) : Prop :=
  exists task url, q = Responded task /\ terminalSuccess task url.

(** The accumulated wait when attempt [k + 1] issues its query. *)
Definition elapsedAt (k : nat) : Z :=
  nth k [0; 38000; 63000; 93000] 93000.

(** The events of a run that ends with the query of attempt [k + 1]. *)
Definition eventsUpTo (k : nat) : list PollEvent :=
  firstn (2 * k + 1) fullSchedule.

(** ** [generateImage]: create the task, then poll *)

(** The outcome of one [axios.post(apiUrl, ...)]: a response, of which the
    code reads [data.uuid], or a thrown error. *)
Inductive PostResult :=
| PostResponded (uuid : option string)
| PostThrew (e : Js.Error).

Record Product := {
  name : string;
  description : option string;
  category : option string
}.

Record SavedImage := {
  filename : string;
  filepath : string;
  base64Image : string;
  s3Url : option string;
  saved_s3Key : option string
}.

(** Everything outside the service that one call of [generateBrandingImage]
    depends on: the configured key, the database, the text model, the
    provider's two endpoints, the download and the clock. *)
Record World := {
  apiKey : string;
  (** [getProductData]: the document found (or [null]), or the database
      error it rethrows *)
  productLookup : Js.Error + option Product;
  (** steps 2 and 3, [generateBrandingContent] with its fallback and
      [buildBrandingPrompt]: the prompt, or an error thrown on the way *)
  builtPrompt : Js.Error + string;
  firstPost : PostResult;
  fallbackPost : PostResult;
  provider : Provider;
  (** the body of [downloadAndSaveImage], before its [catch] *)
  download : Js.Error + SavedImage;
  (** [new Date().toISOString()] *)
  isoTime : string
}.

Record ImageResult := { result_imageUrl : string; requestId : string }.

(** [error.response?.status === 500]. *)
Definition isStatus (code : Z) (e : Js.Error) : bool :=
  match Js.response e with
  | Some r => match Js.status r with Some s => s =? code | None => false end
  | None => false
  end.

(** The task-creation request with its fallback on a 500 answer. *)
Definition createTask (w : World) : Js.Error + option string :=
  match firstPost w with
  | PostResponded uuid => inr uuid
  | PostThrew e =>
      if Js.isAxiosError e && isStatus 500 e then
        match fallbackPost w with
        | PostResponded uuid => inr uuid
        | PostThrew e' => inl e'
        end
      else inl e
  end.

(** [error.response?.data?.message || error.response?.data?.error ||
    error.response?.statusText || error.message], as interpolated. *)
Definition apiErrorMessage (e : Js.Error) : string :=
  match Js.response e with
  | Some r =>
      if Js.truthy (Js.data_message r) then Js.toString (Js.data_message r)
      else if Js.truthy (Js.data_error r) then Js.toString (Js.data_error r)
      else if Js.nonEmpty (Js.statusText r) then Js.statusText r
      else Js.message e
  | None => Js.message e
  end.

(** The [try] block of [generateImage]. *)
Definition generateImageBody (w : World) : Js.Error + ImageResult :=
  match createTask w with
  | inl e => inl e
  | inr (Some taskId) =>
      if Js.nonEmpty taskId then
        match snd (pollTaskCompletion (provider w)) with
        | inl e => inl e
        | inr r =>
            match imageUrl r with
            | Some url =>
                if Js.nonEmpty url
                then inr {| result_imageUrl := url; requestId := taskId |}
                else inl (Js.newError "Task completed but no image URL found")
            | None => inl (Js.newError "Task completed but no image URL found")
            end
        end
      else inl (Js.newError "Invalid response from GeminiGen API - no UUID found")
  | inr None =>
      inl (Js.newError "Invalid response from GeminiGen API - no UUID found")
  end.

Definition generateImage (w : World) : Js.Error + ImageResult :=
  match generateImageBody w with
  | inr r => inr r
  | inl e =>
      if Js.isAxiosError e
      then inl (Js.newError
                  (Js.template ["GeminiGen API failed: "; apiErrorMessage e]))
      else inl e
  end.

Definition downloadAndSaveImage (w : World) : Js.Error + SavedImage :=
  match download w with
  | inr saved => inr saved
  | inl e =>
      inl (Js.newError
             (Js.template ["Failed to download image: ";
                           Js.messageOr "Unknown error" e]))
  end.

(** ** [generateBrandingImage] *)

(** The [try] block of [generateBrandingImage]: the response it returns, or
    the error thrown inside it. *)
Definition generateBrandingImageBody (w : World)
    (request : ImageBrandingRequest) : Js.Error + ImageBrandingResponse :=
  if negb (Js.nonEmpty (apiKey w)) then
    inl (Js.newError "GeminiGen API key not configured")
  else
    match productLookup w with
    | inl e => inl e
    | inr None =>
        inl (Js.newError
               (Js.template ["Product "; Js.quote; productName request;
                             Js.quote; " not found"]))
    | inr (Some productData) =>
        match builtPrompt w with
        | inl e => inl e
        | inr prompt =>
            match generateImage w with
            | inl e => inl e
            | inr imageResult =>
                match downloadAndSaveImage w with
                | inl e => inl e
                | inr savedImage =>
                    inr {| success := true;
                           data := Some
                             {| data_productName := productName request;
                                data_platform := platform request;
                                data_tone := tone request;
                                data_style :=
                                  Js.orText (style request) "minimalist";
                                generatedImage := base64Image savedImage;
                                imagePrompt := prompt;
                                metadata :=
                                  {| format := "base64_png";
                                     generatedAt := isoTime w;
                                     dimensions := "1024x1024";
                                     geminiGenRequestId :=
                                       requestId imageResult;
                                     s3Key := saved_s3Key savedImage;
                                     localPath := filepath savedImage |} |};
                           error := None;
                           savedFilename := Some (filename savedImage);
                           viewUrl := Some
                             (Js.orText (s3Url savedImage)
                                (Js.template
                                   ["http://localhost:3000/api/image-branding/view/";
                                    filename savedImage])) |}
                end
            end
        end
    end.

(** The settlement of the promise that [generateBrandingImage] returns:
    the [catch] block turns every thrown error into a response. *)
Definition generateBrandingImage (w : World) (request : ImageBrandingRequest)
    : Settlement :=
  match generateBrandingImageBody w request with
  | inr response => Resolved response
  | inl e => Resolved (failure (Js.messageOr "Unknown error occurred" e))
  end.

(** ** Request parameters and file names *)

Definition getAspectRatio (platform : string) : string :=
  let p := Js.toLowerCase platform in
  if String.eqb p "instagram" then "1:1"
  else if String.eqb p "linkedin" then "16:9"
  else if String.eqb p "email" then "16:9"
  else if String.eqb p "facebook" then "16:9"
  else if String.eqb p "twitter" then "16:9"
  else "1:1".

Definition mapStyleToGeminiGen (style : string) : string :=
  let s := Js.toLowerCase style in
  if String.eqb s "minimalist" then "Stock Photo"
  else if String.eqb s "vibrant" then "Dynamic"
  else if String.eqb s "premium" then "Portrait"
  else if String.eqb s "playful" then "Creative"
  else "Photorealistic".

(** [[a-z0-9]]. *)
Definition isLowerAlnum (c : ascii) : bool :=
  let n := nat_of_ascii c in
  ((97 <=? n)%nat && (n <=? 122)%nat) || Js.isDigit c.

(** [s.replace(/[^a-z0-9\s]/g, '')]. *)
Fixpoint keepWordCharacters (s : string) : string :=
  match s with
  | EmptyString => EmptyString
  | String c t =>
      if isLowerAlnum c || Js.isSpace c
      then String c (keepWordCharacters t)
      else keepWordCharacters t
  end.

(** [s.replace(/\s+/g, '-')]: every maximal run of white space becomes
    one hyphen; [inRun] tells that the previous character was white
    space. *)
Fixpoint hyphenate (inRun : bool) (s : string) : string :=
  match s with
  | EmptyString => EmptyString
  | String c t =>
      if Js.isSpace c then
        if inRun then hyphenate true t else String "-" (hyphenate true t)
      else String c (hyphenate false t)
  end.

(** [s.substring(0, n)]. *)
Fixpoint substring0 (n : nat) (s : string) : string :=
  match n, s with
  | S n', String c t => String c (substring0 n' t)
  | _, _ => EmptyString
  end.

(** The characters of a slug: lower-case letters, digits and the hyphen. *)
Definition isSlugChar (c : ascii) : bool :=
  isLowerAlnum c || Ascii.eqb c "-".

(** [promptSlug] of [downloadAndSaveImage]. *)
Definition promptSlug (prompt : string) : string :=
  substring0 30
    (hyphenate false (keepWordCharacters (Js.toLowerCase prompt))).

(** [iso.replace(/[:.]/g, '-')]. *)
Fixpoint dashTimestamp (iso : string) : string :=
  match iso with
  | EmptyString => EmptyString
  | String c t =>
      String (if Ascii.eqb c ":" || Ascii.eqb c "." then "-"%char else c)
             (dashTimestamp t)
  end.

(** The file name that [downloadAndSaveImage] saves under. *)
Definition savedName (iso prompt : string) : string :=
  Js.template ["geminigen_"; dashTimestamp iso; "_"; promptSlug prompt;
               ".png"].

(** The files that [getSavedImages] lists. *)
Definition isListed (file : string) : bool :=
  Js.startsWith "geminigen_" file
  && (Js.endsWith ".jpg" file || Js.endsWith ".png" file).

(** The tagline of [getFallbackBrandingContent]. *)
Definition fallbackTagline (productName tone : string) : string :=
  if String.eqb tone "youth" then Js.template [productName; " - Your Vibe!"]
  else if String.eqb tone "family"
       then Js.template [productName; " - Family Moments"]
  else if String.eqb tone "premium"
       then Js.template [productName; " - Pure Excellence"]
  else if String.eqb tone "health"
       then Js.template [productName; " - Naturally Good"]
  else if String.eqb tone "traditional"
       then Js.template [productName; " - Time Tested"]
  else if String.eqb tone "professional"
       then Js.template [productName; " - Success Fuel"]
  else Js.template [productName; " - Britannia"].

(** The world in which the first task-creation request is answered as the
    fallback request of [w] is. *)
Definition answeredByFallback (w : World) : World :=
  {| apiKey := apiKey w; productLookup := productLookup w;
     builtPrompt := builtPrompt w; firstPost := fallbackPost w;
     fallbackPost := fallbackPost w; provider := provider w;
     download := download w; isoTime := isoTime w |}.

End GeminiGen.

(* ================================================================== *)
(** * ImageBrandingController: validation and file serving *)
(* ================================================================== *)

Module Controller.

(** The fields of [req.body] that [generateImage] reads; a field that is
    present is a string. *)
Record Body := {
  body_productName : option string;
  body_platform : option string;
  body_tone : option string;
  body_flavor : option string;
  body_style : option string
}.

(** The ways in which [generateImage] answers without calling the
    service. *)
Inductive Refusal :=
| ServiceUnavailable
| InvalidRequest
| InvalidPlatform
| InvalidTone
| InvalidStyle.

(** The HTTP status of a refusal. *)
Definition httpStatus (r : Refusal) : Z :=
  match r with
  | ServiceUnavailable => 503
  | _ => 400
  end.

Definition validPlatforms : list string := ["instagram"; "linkedin"; "email"].

Definition validTones : list string :=
  ["youth"; "family"; "premium"; "health"; "traditional"].

Definition validStyles : list string :=
  ["minimalist"; "vibrant"; "premium"; "playful"].

(** [generateImage] up to its call of the rate-limited service: the
    refusal, or the request that it passes on.  [available] is
    [rateLimitedImageService.isAvailable()]. *)
Definition validate (available : bool) (body : Body)
    : Refusal + ImageBrandingRequest :=
  if negb available then inl ServiceUnavailable
  else
    match body_productName body, body_platform body, body_tone body with
    | Some productName, Some platform, Some tone =>
        if negb (Js.nonEmpty productName) || negb (Js.nonEmpty platform)
           || negb (Js.nonEmpty tone)
        then inl InvalidRequest
        else if negb (Js.member (Js.toLowerCase platform) validPlatforms)
        then inl InvalidPlatform
        else if negb (Js.member (Js.toLowerCase tone) validTones)
        then inl InvalidTone
        else if negb (Js.falsy (body_style body))
                && negb (Js.member
                           (Js.toLowerCase (Js.orText (body_style body) ""))
                           validStyles)
        then inl InvalidStyle
        else
          inr {| productName := Js.trim productName;
                 platform := Js.toLowerCase platform;
                 tone := Js.toLowerCase tone;
                 flavor := option_map Js.trim (body_flavor body);
                 style := Some
                   (Js.orText (option_map Js.toLowerCase (body_style body))
                              "minimalist") |}
    | _, _, _ => inl InvalidRequest
    end.

(** The body with its platform, tone and style in lower case. *)
Definition lowered (body : Body) : Body :=
  {| body_productName := body_productName body;
     body_platform := option_map Js.toLowerCase (body_platform body);
     body_tone := option_map Js.toLowerCase (body_tone body);
     body_flavor := body_flavor body;
     body_style := option_map Js.toLowerCase (body_style body) |}.

(** [filename.toLowerCase().split('.').pop()], with the characters read
    since the last dot in [acc]. *)
Fixpoint lastSegment (acc s : string) : string :=
  match s with
  | EmptyString => acc
  | String c t =>
      if Ascii.eqb c "." then lastSegment EmptyString t
      else lastSegment (String.append acc (String c EmptyString)) t
  end.

(** The content type that [viewImage] serves a file with. *)
Definition contentType (filename : string) : string :=
  let ext := lastSegment EmptyString (Js.toLowerCase filename) in
  if String.eqb ext "jpg" || String.eqb ext "jpeg" then "image/jpeg"
  else "image/png".

End Controller.

(* ================================================================== *)
(** * RateLimitedImageService: sliding window, queue and drain loop *)
(* ================================================================== *)

Module RateLimited.

Definition maxRequestsPerMinute : Z := 5.
Definition requestWindow : Z := 60 * 1000.

(** An entry of [requestQueue].  [caller] stands for the pair [resolve],
    [reject]: it names the promise that the caller is awaiting. *)
Record QueuedRequest := {
  timestamp : Z;
  caller : nat;
  requestData : ImageBrandingRequest;
  priority : Z
}.

(** Where the one activation of [processQueue] is suspended. *)
Inductive DrainPoint :=
| NotRunning
| AwaitingSlot (deadline : Z)
| AwaitingDownstream (item : QueuedRequest)
| AwaitingRetry (deadline : Z).

(** What has happened so far; the code does not read it. *)
Record History := {
  settled : list (nat * Settlement);
  started : list (Z * nat);
  arrivals : list nat;
  dequeued : list nat
}.

Record State := {
  (** [Date.now()], the wall clock *)
  now : Z;
  (** the time elapsed since the service started, on which timers run *)
  uptime : Z;
  requestTimestamps : list Z;
  requestQueue : list QueuedRequest;
  isProcessingQueue : bool;
  drain : DrainPoint;
  (** the calls of [generateBrandingImage] suspended at their fast-path
      downstream call *)
  fastPath : list (nat * ImageBrandingRequest);
  nextCaller : nat;
  history : History
}.

Definition init (start : Z) : State :=
  {| now := start; uptime := 0; requestTimestamps := [];
     requestQueue := [];
     isProcessingQueue := false; drain := NotRunning; fastPath := [];
     nextCaller := 0%nat;
     history := {| settled := []; started := []; arrivals := [];
                   dequeued := [] |} |}.

(** ** Field updates *)

Definition setNow (t : Z) (s : State) : State :=
  {| now := t; uptime := uptime s;
     requestTimestamps := requestTimestamps s;
     requestQueue := requestQueue s;
     isProcessingQueue := isProcessingQueue s; drain := drain s;
     fastPath := fastPath s; nextCaller := nextCaller s;
     history := history s |}.

(** [d] milliseconds pass: both clocks advance. *)
Definition elapse (d : Z) (s : State) : State :=
  {| now := now s + d; uptime := uptime s + d;
     requestTimestamps := requestTimestamps s;
     requestQueue := requestQueue s;
     isProcessingQueue := isProcessingQueue s; drain := drain s;
     fastPath := fastPath s; nextCaller := nextCaller s;
     history := history s |}.

Definition setTimestamps (ts : list Z) (s : State) : State :=
  {| now := now s; uptime := uptime s; requestTimestamps := ts;
     requestQueue := requestQueue s;
     isProcessingQueue := isProcessingQueue s; drain := drain s;
     fastPath := fastPath s; nextCaller := nextCaller s;
     history := history s |}.

Definition setQueue (q : list QueuedRequest) (s : State) : State :=
  {| now := now s; uptime := uptime s;
     requestTimestamps := requestTimestamps s;
     requestQueue := q;
     isProcessingQueue := isProcessingQueue s; drain := drain s;
     fastPath := fastPath s; nextCaller := nextCaller s;
     history := history s |}.

Definition setDrain (flag : bool) (d : DrainPoint) (s : State) : State :=
  {| now := now s; uptime := uptime s;
     requestTimestamps := requestTimestamps s;
     requestQueue := requestQueue s;
     isProcessingQueue := flag; drain := d;
     fastPath := fastPath s; nextCaller := nextCaller s;
     history := history s |}.

Definition setFastPath (f : list (nat * ImageBrandingRequest)) (s : State)
    : State :=
  {| now := now s; uptime := uptime s;
     requestTimestamps := requestTimestamps s;
     requestQueue := requestQueue s;
     isProcessingQueue := isProcessingQueue s; drain := drain s;
     fastPath := f; nextCaller := nextCaller s;
     history := history s |}.

Definition setNextCaller (n : nat) (s : State) : State :=
  {| now := now s; uptime := uptime s;
     requestTimestamps := requestTimestamps s;
     requestQueue := requestQueue s;
     isProcessingQueue := isProcessingQueue s; drain := drain s;
     fastPath := fastPath s; nextCaller := n;
     history := history s |}.

Definition setHistory (h : History) (s : State) : State :=
  {| now := now s; uptime := uptime s;
     requestTimestamps := requestTimestamps s;
     requestQueue := requestQueue s;
     isProcessingQueue := isProcessingQueue s; drain := drain s;
     fastPath := fastPath s; nextCaller := nextCaller s;
     history := h |}.

Definition recordStarted (c : nat) (s : State) : State :=
  let h := history s in
  setHistory {| settled := settled h; started := started h ++ [(now s, c)];
                arrivals := arrivals h; dequeued := dequeued h |} s.

Definition recordArrival (c : nat) (s : State) : State :=
  let h := history s in
  setHistory {| settled := settled h; started := started h;
                arrivals := arrivals h ++ [c]; dequeued := dequeued h |} s.

Definition recordDequeued (c : nat) (s : State) : State :=
  let h := history s in
  setHistory {| settled := settled h; started := started h;
                arrivals := arrivals h; dequeued := dequeued h ++ [c] |} s.

(** ** Promises *)

Definition isSettled (c : nat) (s : State) : bool :=
  existsb (fun p => Nat.eqb (fst p) c) (settled (history s)).

(** [resolve(value)] or [reject(error)] on the promise of caller [c]:
    a promise settles once, later calls have no effect. *)
Definition settle (c : nat) (o : Settlement) (s : State) : State :=
  if isSettled c s then s
  else
    let h := history s in
    setHistory {| settled := settled h ++ [(c, o)]; started := started h;
                  arrivals := arrivals h; dequeued := dequeued h |} s.

(** ** The error classifier *)

Definition isRateLimitError (e : Js.Error) : bool :=
  Js.includes "Too Many Requests" (Js.message e)
  || Js.includes "429" (Js.message e)
  || Js.includes "RATE_LIMIT_ERROR" (Js.message e)
  || match Js.response e with
     | Some r => match Js.status r with Some st => st =? 429 | None => false end
     | None => false
     end.

(** [None]: the hint read is an integer beyond the safe range, which the
    model does not follow. *)
Definition extractRetryAfter (e : Js.Error) : option Z :=
  let retryAfter :=
    match Js.response e with
    | Some r =>
        Js.or (Js.data_detail_retry_after r)
          (Js.or (Js.data_retry_after r)
             (Js.or (Js.header_retry_after r)
                (Js.or (Js.header_Retry_After r) (Js.number 0))))
    | None => Js.number 0
    end in
  Js.orZero (Js.parseInt (Js.toString retryAfter)).

(** The places where [extractRetryAfter] looks for the hint, in the order
    of its chain of [||]. *)
Definition hintLocations (r : Js.Response) : list Js.Value :=
  [Js.data_detail_retry_after r; Js.data_retry_after r;
   Js.header_retry_after r; Js.header_Retry_After r].

(** The character class of the regular expression in [getRetryAfterTime]:
    quote, double quote, colon, white space. *)
Definition isSeparator (c : ascii) : bool :=
  let n := nat_of_ascii c in
  (n =? 39)%nat || (n =? 34)%nat || (n =? 58)%nat || Js.isSpace c.

(** A match of the regular expression of [getRetryAfterTime] (the word
    retry_after in any letter case, one or more separators, one or more
    digits, which are captured) that starts at the first character of [s]:
    the captured digits.  The separators and the digits
    are disjoint classes, so the greedy match is the only one. *)
Definition matchRetryAfterHere (s : string) : option string :=
  match Js.stripPrefixCI "retry_after" s with
  | None => None
  | Some rest =>
      match Js.takeWhile isSeparator rest with
      | EmptyString => None
      | _ =>
          match Js.takeWhile Js.isDigit (Js.dropWhile isSeparator rest) with
          | EmptyString => None
          | digits => Some digits
          end
      end
  end.

(** [message.match(...)] with that expression: the capture of the leftmost
    match. *)
Fixpoint matchRetryAfter (s : string) : option string :=
  match matchRetryAfterHere s with
  | Some digits => Some digits
  | None =>
      match s with
      | EmptyString => None
      | String _ t => matchRetryAfter t
      end
  end.

(** ** The sliding window *)

Definition cleanOldTimestamps (s : State) : State :=
  setTimestamps
    (filter (fun t => now s - t <? requestWindow) (requestTimestamps s)) s.

Definition canMakeRequest (s : State) : bool * State :=
  let s1 := cleanOldTimestamps s in
  (Z.of_nat (List.length (requestTimestamps s1)) <? maxRequestsPerMinute, s1).

Definition addRequestTimestamp (s : State) : State :=
  setTimestamps (requestTimestamps s ++ [now s]) s.

(** [this.requestTimestamps.pop()]. *)
Definition popTimestamp (s : State) : State :=
  setTimestamps (removelast (requestTimestamps s)) s.

Definition getNextAvailableTime (s : State) : Z * State :=
  let s1 := cleanOldTimestamps s in
  if Z.of_nat (List.length (requestTimestamps s1)) <? maxRequestsPerMinute
  then (0, s1)
  else
    let oldestRequest := nth 0 (requestTimestamps s1) 0 in
    let nextAvailable := oldestRequest + requestWindow in
    (Z.max 0 (nextAvailable - now s1), s1).

(** [getRateLimitStatus], and with it [logRateLimitStatus]: for the state,
    three cleanings of the window at one instant. *)
Definition getRateLimitStatus (s : State) : State :=
  let s1 := cleanOldTimestamps s in
  let s2 := snd (canMakeRequest s1) in
  snd (getNextAvailableTime s2).

Definition logRateLimitStatus (s : State) : State := getRateLimitStatus s.

(** The object that [getRateLimitStatus] returns. *)
Record RateLimitStatus := {
  requestsInCurrentWindow : Z;
  status_maxRequestsPerMinute : Z;
  queueLength : Z;
  status_canMakeRequest : bool;
  nextAvailableIn : Z
}.

Definition statusReport (s : State) : RateLimitStatus :=
  let s1 := cleanOldTimestamps s in
  let '(ok, s2) := canMakeRequest s1 in
  {| requestsInCurrentWindow :=
       Z.of_nat (List.length (requestTimestamps s1));
     status_maxRequestsPerMinute := maxRequestsPerMinute;
     queueLength := Z.of_nat (List.length (requestQueue s1));
     status_canMakeRequest := ok;
     nextAvailableIn := fst (getNextAvailableTime s2) |}.

Definition getEstimatedWaitTime (s : State) : Z * State :=
  let '(ok, s1) := canMakeRequest s in
  if ok then (0, s1)
  else
    let queueWaitTime :=
      Z.of_nat (List.length (requestQueue s1))
      * (60 / maxRequestsPerMinute) * 1000 in
    let '(rateLimitWaitTime, s2) := getNextAvailableTime s1 in
    (Z.max queueWaitTime rateLimitWaitTime, s2).

Definition getRetryAfterTime (e : Js.Error) (s : State) : Js.Num * State :=
  match matchRetryAfter (Js.message e) with
  | Some digits => (Js.times (Js.parseInt digits) 1000, s)
  | None =>
      let '(w, s1) := getNextAvailableTime s in
      (Js.Int (if w =? 0 then 60000 else w), s1)
  end.

(** The instant of [uptime] at which a timer set now for [ms]
    milliseconds is due. *)
Definition timerDue (ms : Js.Num) (s : State) : Z :=
  uptime s + Js.timerDelay ms.

(** ** The queue *)

(** Insertion of [x] in front of the first entry that is not older. *)
Fixpoint insertByTimestamp (x : QueuedRequest) (l : list QueuedRequest)
    : list QueuedRequest :=
  match l with
  | [] => [x]
  | y :: l' =>
      if timestamp x <=? timestamp y then x :: l
      else y :: insertByTimestamp x l'
  end.

(** [requestQueue.sort((a, b) => a.timestamp - b.timestamp)]: the stable
    sort by timestamp. *)
Fixpoint sortByTimestamp (l : list QueuedRequest) : list QueuedRequest :=
  match l with
  | [] => []
  | x :: l' => insertByTimestamp x (sortByTimestamp l')
  end.

(** The [while] loop of [processQueue] from the [shift()] on, up to the
    [await] of the downstream call. *)
Definition dispatch (s : State) : State :=
  match requestQueue s with
  | [] => setDrain false NotRunning s
  | queueItem :: rest =>
      let s1 := setQueue rest s in
      let s2 := addRequestTimestamp s1 in
      let s3 := logRateLimitStatus s2 in
      setDrain true (AwaitingDownstream queueItem)
        (recordStarted (caller queueItem)
           (recordDequeued (caller queueItem) s3))
  end.

(** The [while] loop of [processQueue] from its test on, up to the next
    [await]; when the queue is empty the loop ends and the flag is
    cleared. *)
Definition drainLoop (s : State) : State :=
  match requestQueue s with
  | [] => setDrain false NotRunning s
  | _ :: _ =>
      let '(waitTime, s1) := getNextAvailableTime s in
      if waitTime >? 0
      then setDrain true (AwaitingSlot (timerDue (Js.Int waitTime) s1)) s1
      else dispatch s1
  end.

Definition processQueue (s : State) : State :=
  if isProcessingQueue s
     || match requestQueue s with [] => true | _ => false end
  then s
  else drainLoop (setDrain true (drain s) s).

Definition queueRequest (c : nat) (requestData : ImageBrandingRequest)
    (s : State) : State :=
  let item := {| timestamp := now s; caller := c;
                 requestData := requestData; priority := 1 |} in
  let s1 := setQueue (sortByTimestamp (requestQueue s ++ [item])) s in
  let s2 := logRateLimitStatus (recordArrival c s1) in
  processQueue s2.

(** ** [generateBrandingImage] *)

(** The call up to its first [await]. *)
Definition generateBrandingImage (request : ImageBrandingRequest) (s : State)
    : State :=
  let c := nextCaller s in
  let s0 := setNextCaller (S c) s in
  let '(ok, s1) := canMakeRequest s0 in
  if ok then
    let s2 := addRequestTimestamp s1 in
    recordStarted c (setFastPath (fastPath s2 ++ [(c, request)]) s2)
  else queueRequest c request s1.

Definition rateLimitMessage (retryAfter : Z) : string :=
  Js.template ["API rate limit exceeded. Please try again in ";
               Js.showZ (retryAfter / 60); " minutes."].

(** The continuation of the fast path when its downstream call settles;
    [None] where the hint is beyond the safe range. *)
Definition resumeFastPath (c : nat) (request : ImageBrandingRequest)
    (outcome : Settlement) (s : State) : option State :=
  match outcome with
  | Resolved r => Some (settle c (Resolved r) s)
  | Rejected e =>
      if isRateLimitError e then
        match extractRetryAfter e with
        | Some retryAfter =>
            let s1 := popTimestamp s in
            if retryAfter >? 300
            then Some (settle c
                         (Resolved (failure (rateLimitMessage retryAfter)))
                         s1)
            else Some (queueRequest c request s1)
        | None => None
        end
      else Some (settle c (Rejected e) s)
  end.

(** The continuation of [processQueue] when its downstream call settles. *)
Definition resumeDrain (queueItem : QueuedRequest) (outcome : Settlement)
    (s : State) : State :=
  match outcome with
  | Resolved r => drainLoop (settle (caller queueItem) (Resolved r) s)
  | Rejected e =>
      if isRateLimitError e then
        let s1 := popTimestamp s in
        let s2 := setQueue (queueItem :: requestQueue s1) s1 in
        let '(retryWait, s3) := getRetryAfterTime e s2 in
        setDrain true (AwaitingRetry (timerDue retryWait s3)) s3
      else drainLoop (settle (caller queueItem) (Rejected e) s)
  end.

Definition cancelled : Js.Error :=
  Js.newError "Request cancelled due to queue clear".

Definition clearQueue (s : State) : State :=
  setQueue []
    (fold_left (fun acc item => settle (caller item) (Rejected cancelled) acc)
               (requestQueue s) s).

(** The rejections that [clearQueue] issues, in queue order. *)
Definition rejections (q : list QueuedRequest) : list (nat * Settlement) :=
  map (fun item => (caller item, Rejected cancelled)) q.

(** ** The service as a transition system *)

(** The downstream is [GeminiGenImageService.getInstance()], wired in by
    the constructor: how one of its calls settles is decided by the world
    that the call meets. *)
Definition downstream (w : GeminiGen.World) (request : ImageBrandingRequest)
    : Settlement :=
  GeminiGen.generateBrandingImage w request.

(** What can happen to the service: [d] milliseconds pass; the wall clock
    is set forward or back by [delta]; a caller submits a request; the
    downstream call of a fast-path caller, or of the drain loop, settles,
    having met the world [w]; the timer of the drain loop fires; the
    clear-queue endpoint or a status query is served. *)
Inductive Event :=
| Tick (d : Z)
| ClockSteps (delta : Z)
| Submit (request : ImageBrandingRequest)
| FastPathSettles (c : nat) (w : GeminiGen.World)
| DrainCallSettles (w : GeminiGen.World)
| TimerFires
| ClearQueue
| StatusQuery.

Fixpoint lookupCaller (c : nat) (l : list (nat * ImageBrandingRequest))
    : option ImageBrandingRequest :=
  match l with
  | [] => None
  | (c', r) :: l' => if Nat.eqb c' c then Some r else lookupCaller c l'
  end.

Definition removeCaller (c : nat) (l : list (nat * ImageBrandingRequest))
    : list (nat * ImageBrandingRequest) :=
  filter (fun p => negb (Nat.eqb (fst p) c)) l.

(** One step; [None] when the event cannot happen in the state. *)
Definition step (s : State) (ev : Event) : option State :=
  match ev with
  | Tick d => if 0 <=? d then Some (elapse d s) else None
  | ClockSteps delta => Some (setNow (now s + delta) s)
  | Submit request => Some (generateBrandingImage request s)
  | FastPathSettles c w =>
      match lookupCaller c (fastPath s) with
      | Some request =>
          resumeFastPath c request (downstream w request)
            (setFastPath (removeCaller c (fastPath s)) s)
      | None => None
      end
  | DrainCallSettles w =>
      match drain s with
      | AwaitingDownstream queueItem =>
          Some (resumeDrain queueItem
                  (downstream w (requestData queueItem)) s)
      | _ => None
      end
  | TimerFires =>
      match drain s with
      | AwaitingSlot deadline =>
          if deadline <=? uptime s then Some (dispatch s) else None
      | AwaitingRetry deadline =>
          if deadline <=? uptime s then Some (drainLoop s) else None
      | _ => None
      end
  | ClearQueue => Some (clearQueue s)
  | StatusQuery => Some (getRateLimitStatus s)
  end.

Fixpoint run (s : State) (evs : list Event) : option State :=
  match evs with
  | [] => Some s
  | ev :: rest =>
      match step s ev with
      | Some s' => run s' rest
      | None => None
      end
  end.

(** ** Observations *)

(** The recorded admissions newer than [now - requestWindow]. *)
Definition liveTimestamps (s : State) : list Z :=
  filter (fun t => now s - requestWindow <? t) (requestTimestamps s).

(** The downstream invocations started within the trailing window. *)
Definition startedInWindow (s : State) : list (Z * nat) :=
  filter (fun p => now s - requestWindow <? fst p) (started (history s)).

Definition queueCallers (s : State) : list nat :=
  map caller (requestQueue s).

(** At most [maxRequestsPerMinute] recorded admissions are in the trailing
    window. *)
Definition withinLimit (s : State) : Prop :=
  Z.of_nat (List.length (liveTimestamps s)) <= maxRequestsPerMinute.

(** States with the same clock and the same recorded admissions. *)
Definition sameWindow (s s' : State) : Prop :=
  now s = now s' /\ requestTimestamps s = requestTimestamps s'.

(** The event is the wake-up of the drain loop from its wait for a free
    slot (the [await] between its look at the window and its admission). *)
Definition wakesForSlot (s : State) (ev : Event) : bool :=
  match ev, drain s with
  | TimerFires, AwaitingSlot _ => true
  | _, _ => false
  end.

Definition drainCaller (d : DrainPoint) : list nat :=
  match d with
  | AwaitingDownstream item => [caller item]
  | _ => []
  end.

(** The callers whose promise the service still has to settle: on the fast
    path, in the queue, or with the drain loop's downstream call. *)
Definition pendingCallers (s : State) : list nat :=
  map fst (fastPath s) ++ queueCallers s ++ drainCaller (drain s).

Definition settledCallers (s : State) : list nat :=
  map fst (settled (history s)).

Definition byTimestamp (a b : QueuedRequest) : Prop :=
  timestamp a <= timestamp b.

(** [l] is [l'] with some elements left out. *)
Inductive Subseq {A : Type} : list A -> list A -> Prop :=
| Subseq_nil : Subseq [] []
| Subseq_skip x l l' : Subseq l l' -> Subseq l (x :: l')
| Subseq_keep x l l' : Subseq l l' -> Subseq (x :: l) (x :: l').

(** Equality of two states up to the window, the elapsed time and the log
    of invocations, which decide where the drain loop suspends but are not
    read by the queue discipline. *)
Definition agree (s s' : State) : Prop :=
  now s = now s' /\
  requestQueue s = requestQueue s' /\
  isProcessingQueue s = isProcessingQueue s' /\
  drain s = drain s' /\
  fastPath s = fastPath s' /\
  nextCaller s = nextCaller s' /\
  settled (history s) = settled (history s') /\
  arrivals (history s) = arrivals (history s') /\
  dequeued (history s) = dequeued (history s').

(** The queue side of [dispatch]. *)
Definition dispatched (s : State) : State :=
  match requestQueue s with
  | [] => setDrain false NotRunning s
  | queueItem :: rest =>
      setDrain true (AwaitingDownstream queueItem)
        (recordDequeued (caller queueItem) (setQueue rest s))
  end.

(** The invariant of the reachable states, whatever the clock does. *)
Record Inv (s : State) : Prop := {
  inv_flag :
    isProcessingQueue s =
    match drain s with NotRunning => false | _ => true end;
  inv_nodup : NoDup (pendingCallers s ++ settledCallers s);
  inv_fresh :
    Forall (fun c => (c < nextCaller s)%nat)
           (pendingCallers s ++ settledCallers s ++ arrivals (history s));
  inv_arrivals : NoDup (map fst (fastPath s) ++ arrivals (history s))
}.

(** The wall clock is never set back in the execution. *)
Definition isBackwardStep (ev : Event) : bool :=
  match ev with
  | ClockSteps delta => delta <? 0
  | _ => false
  end.

Definition clockNeverStepsBack (evs : list Event) : bool :=
  forallb (fun ev => negb (isBackwardStep ev)) evs.

(** What holds of the queue as long as the wall clock is not set back: its
    entries are in the order of their timestamps, and none is later than
    the clock. *)
Record Ordered (s : State) : Prop := {
  ord_sorted : StronglySorted byTimestamp (requestQueue s);
  ord_past : Forall (fun item => timestamp item <= now s) (requestQueue s)
}.

(** The queue after [queueRequest]'s push and sort, before [processQueue]
    is started: the new entry is last. *)
Definition pushed (c : nat) (requestData : ImageBrandingRequest) (s : State)
    : State :=
  recordArrival c
    (setQueue (requestQueue s
               ++ [{| timestamp := now s; caller := c;
                      requestData := requestData; priority := 1 |}]) s).

(** Arrival order is dequeue order: the arrivals are the requests that have
    left the queue, in the order they arrived, followed by the queue; the
    dequeued requests are among the former, in order; as long as the queue
    has not been cleared ([strict]) they are all the former. *)
Definition Fifo (strict : bool) (s : State) : Prop :=
  exists served,
    arrivals (history s) = served ++ queueCallers s /\
    Subseq (dequeued (history s)) served /\
    (strict = true -> served = dequeued (history s)).

Definition isClearQueue (ev : Event) : bool :=
  match ev with ClearQueue => true | _ => false end.

(** [a] occurs before [b] in [l]. *)
Definition before {A : Type} (a b : A) (l : list A) : Prop :=
  Subseq [a; b] l.

Definition noClearQueue (ev : Event) : bool := negb (isClearQueue ev).

(** The events that the first-in-first-out property allows: the wall clock
    is not set back and, for the strict form, the queue is not cleared. *)
Definition fifoEvent (strict : bool) (ev : Event) : bool :=
  negb (isBackwardStep ev) && (negb strict || noClearQueue ev).

(** The recorded admissions are in the order in which they were made, and
    none lies in the future: the first entry is the oldest one, as
    [getNextAvailableTime] takes it to be. *)
Definition chronological (s : State) : Prop :=
  StronglySorted Z.le (requestTimestamps s) /\
  Forall (fun t => t <= now s) (requestTimestamps s).

(** There are at most [maxRequestsPerMinute] recorded admissions, expired
    ones that have not been cleaned away included. *)
Definition withinCapacity (s : State) : Prop :=
  Z.of_nat (List.length (requestTimestamps s)) <= maxRequestsPerMinute.

(** The callers that the service knows of: those it still has to answer
    and those it has answered. *)
Definition knownCallers (s : State) : list nat :=
  pendingCallers s ++ settledCallers s.

(** No event of the execution is the wake-up of the drain loop from its
    wait for a free slot. *)
Fixpoint neverWaitsForSlot (s : State) (evs : list Event) : bool :=
  match evs with
  | [] => true
  | ev :: rest =>
      negb (wakesForSlot s ev)
      && match step s ev with
         | Some s' => neverWaitsForSlot s' rest
         | None => true
         end
  end.

(** Every caller identifier handed out so far is known. *)
Definition accounted (s : State) : Prop :=
  forall c, (c < nextCaller s)%nat -> In c (knownCallers s).

(** The downstream outcomes that the service hands on as they are: a
    response, or a failure that [isRateLimitError] does not recognise. *)
Definition ordinary (outcome : Settlement) : bool :=
  match outcome with
  | Resolved _ => true
  | Rejected e => negb (isRateLimitError e)
  end.

(** A queued request has a drain loop that will come to it. *)
Definition queueAttended (s : State) : Prop :=
  requestQueue s = [] \/ isProcessingQueue s = true.

End RateLimited.

(* ================================================================== *)
(** * controllers/rate-limit.controller.ts *)
(* ================================================================== *)

Module RateLimitController.

Import RateLimited.

Definition getRateLimitRecommendation (status : RateLimitStatus)
    (estimatedWait : Z) : string :=
  if requestsInCurrentWindow status =? 0
  then "Rate limit is fresh - good time to make requests"
  else if requestsInCurrentWindow status >=? status_maxRequestsPerMinute status
  then
    let waitMinutes := Js.ceilDiv (nextAvailableIn status) 60000 in
    Js.template ["Rate limit exceeded. Wait "; Js.showZ waitMinutes;
                 " minute(s) before next request"]
  else if queueLength status >? 5
  then Js.template ["High queue volume ("; Js.showZ (queueLength status);
                    " requests). Consider retrying later"]
  else if queueLength status >? 0
  then Js.template [Js.showZ (queueLength status);
                    " requests queued. Estimated wait: ";
                    Js.showZ (Js.ceilDiv estimatedWait 1000); "s"]
  else
    let remainingRequests :=
      status_maxRequestsPerMinute status - requestsInCurrentWindow status in
    Js.template [Js.showZ remainingRequests;
                 " requests remaining in current window"].

(** The [analysis] part of the answer of [getRateLimitStatus]. *)
Record Analysis := {
  utilizationPercentage : Z;
  isAtCapacity : bool;
  queueIsBusy : bool;
  recommendation : string
}.

(** The value of [this] in a static method: the class, when the method is
    called on the class; [undefined], when the function is handed over by
    itself and then called, as the router calls its handlers. *)
Inductive Receiver :=
| TheClass
| Unbound.

(** What the handler sends: the status with estimate and analysis, or the
    answer of its [catch] block, with HTTP status 500. *)
Inductive StatusAnswer :=
| Sent (status : RateLimitStatus) (estimatedWait : Z) (analysis : Analysis)
| Failed (httpStatus : Z) (code message : string).

(** The handler [getRateLimitStatus]: what it sends, and the state of the
    service afterwards.  The two calls of the service come first; the
    answer is then built, and the recommendation in it is
    [this.getRateLimitRecommendation(...)], which throws a TypeError when
    [this] is undefined.  [Math.round] of a multiple of twenty is that
    multiple. *)
Definition getRateLimitStatus (receiver : Receiver) (s : State)
    : StatusAnswer * State :=
  let status := statusReport s in
  let s1 := RateLimited.getRateLimitStatus s in
  let '(estimatedWait, s2) := getEstimatedWaitTime s1 in
  match receiver with
  | TheClass =>
      (Sent status estimatedWait
         {| utilizationPercentage :=
              requestsInCurrentWindow status * 100
              / status_maxRequestsPerMinute status;
            isAtCapacity :=
              requestsInCurrentWindow status
              >=? status_maxRequestsPerMinute status;
            queueIsBusy := queueLength status >? 0;
            recommendation :=
              getRateLimitRecommendation status estimatedWait |},
       s2)
  | Unbound =>
      (Failed 500 "RATE_LIMIT_STATUS_ERROR" "Failed to get rate limit status",
       s2)
  end.

(** [router.get('/status', RateLimitController.getRateLimitStatus)]
    (routes/rate-limit.routes.ts): the handler is registered as a plain
    function, so it runs without a receiver. *)
Definition statusRoute (s : State) : StatusAnswer * State :=
  getRateLimitStatus Unbound s.

(** The handler [clearQueue]: the queue lengths that it reports from before
    and after, and the state of the service afterwards. *)
Definition clearQueue (s : State) : (Z * Z) * State :=
  let statusBefore := statusReport s in
  let s1 := RateLimited.getRateLimitStatus s in
  let s2 := RateLimited.clearQueue s1 in
  let statusAfter := statusReport s2 in
  ((queueLength statusBefore, queueLength statusAfter),
   RateLimited.getRateLimitStatus s2).

End RateLimitController.

(* ================================================================== *)
(** * Concrete executions *)
(* ================================================================== *)

Module Scenarios.

Import RateLimited.

Definition request : ImageBrandingRequest :=
  {| productName := "Good Day"; platform := "instagram"; tone := "youth";
     flavor := None; style := None |}.

(** An error of the kind that the limiter's [catch] blocks are written
    for: status 429, with the hint, a safe integer, in the message and in
    the body. *)
Definition tooManyRequests (retryAfter : Z) : Js.Error :=
  {| Js.isError := true; Js.isAxiosError := true;
     Js.message :=
       Js.template ["Too Many Requests, retry_after: "; Js.showZ retryAfter];
     Js.response := Some
       {| Js.status := Some 429; Js.statusText := "Too Many Requests";
          Js.data_message := Js.Undefined; Js.data_error := Js.Undefined;
          Js.data_detail_retry_after := Js.Undefined;
          Js.data_retry_after := Js.number retryAfter;
          Js.header_retry_after := Js.Undefined;
          Js.header_Retry_After := Js.Undefined |} |}.

Definition entry (arrival : Z) (c : nat) : QueuedRequest :=
  {| timestamp := arrival; caller := c; requestData := request;
     priority := 1 |}.

(** One admission at 0 ms and four at 1000 ms fill the window; a sixth
    request is queued at 1000 ms and the drain loop sets its timer for
    60000 ms.  At 60000 ms a seventh request is handled before the timer
    fires: the admission of 0 ms has expired, so it takes the fast path.
    Then the timer fires and the drain loop admits the sixth request. *)
Definition overshoot : list Event :=
  [Submit request; Tick 1000; Submit request; Submit request;
   Submit request; Submit request; Submit request; Tick 59000;
   Submit request; TimerFires].

(** The window is full at 0 ms and a sixth request waits; at 60000 ms the
    drain loop admits it.  At 61000 ms, while that call is in flight, a
    seventh request takes the fast path. *)
Definition drainCallThenFastPath : list Event :=
  [Submit request; Submit request; Submit request; Submit request;
   Submit request; Tick 1000; Submit request; Tick 59000; TimerFires;
   Tick 1000; Submit request].

(** Mock providers for the poller. *)
Definition pendingTask : GeminiGen.Task :=
  {| GeminiGen.status := 0; GeminiGen.generated_image := None;
     GeminiGen.error_message := None |}.

Definition doneTask (url : string) : GeminiGen.Task :=
  {| GeminiGen.status := 2;
     GeminiGen.generated_image :=
       Some [ {| GeminiGen.image_url := Some url |} ];
     GeminiGen.error_message := None |}.

Definition alwaysPending : GeminiGen.Provider :=
  fun _ => GeminiGen.Responded pendingTask.

Definition doneOnFourth (url : string) : GeminiGen.Provider :=
  fun k => if (k <? 3)%nat then GeminiGen.Responded pendingTask
           else GeminiGen.Responded (doneTask url).

Definition networkError : Js.Error :=
  {| Js.isError := true; Js.isAxiosError := true;
     Js.message := "timeout of 10000ms exceeded"; Js.response := None |}.


Definition product : GeminiGen.Product :=
  {| GeminiGen.name := "Good Day"; GeminiGen.description := None;
     GeminiGen.category := Some "Biscuits" |}.

(** A world in which everything works but the job never completes. *)
Definition stuckWorld : GeminiGen.World :=
  {| GeminiGen.apiKey := "gg-key";
     GeminiGen.productLookup := inr (Some product);
     GeminiGen.builtPrompt := inr "A pack of Good Day biscuits";
     GeminiGen.firstPost := GeminiGen.PostResponded (Some "task-1");
     GeminiGen.fallbackPost := GeminiGen.PostResponded None;
     GeminiGen.provider := alwaysPending;
     GeminiGen.download := inl networkError;
     GeminiGen.isoTime := "2025-01-01T00:00:00.000Z" |}.

Definition imageLocator : string := "https://cdn.geminigen.ai/img/1.png".

(** The provider reports the task as failed once and as completed from
    then on. *)
Definition failedTask : GeminiGen.Task :=
  {| GeminiGen.status := 3; GeminiGen.generated_image := None;
     GeminiGen.error_message := Some "generation failed" |}.

Definition failsThenDone : GeminiGen.Provider :=
  fun k => if (k =? 0)%nat then GeminiGen.Responded failedTask
           else GeminiGen.Responded (doneTask imageLocator).

(** An HTTP 500 answer of the provider. *)
Definition serverError : Js.Error :=
  {| Js.isError := true; Js.isAxiosError := true;
     Js.message := "Request failed with status code 500";
     Js.response := Some
       {| Js.status := Some 500; Js.statusText := "Internal Server Error";
          Js.data_message := Js.Undefined; Js.data_error := Js.Undefined;
          Js.data_detail_retry_after := Js.Undefined;
          Js.data_retry_after := Js.Undefined;
          Js.header_retry_after := Js.Undefined;
          Js.header_Retry_After := Js.Undefined |} |}.

Definition savedImage : GeminiGen.SavedImage :=
  {| GeminiGen.filename :=
       GeminiGen.savedName "2025-01-01T00:00:00.000Z"
         "A pack of Good Day biscuits";
     GeminiGen.filepath := "generated-images/geminigen_good-day.png";
     GeminiGen.base64Image := "iVBORw0KGgo=";
     GeminiGen.s3Url := None;
     GeminiGen.saved_s3Key := None |}.

(** A world in which everything works: the job completes at the fourth
    query and the image is saved. *)
Definition workingWorld : GeminiGen.World :=
  {| GeminiGen.apiKey := "gg-key";
     GeminiGen.productLookup := inr (Some product);
     GeminiGen.builtPrompt := inr "A pack of Good Day biscuits";
     GeminiGen.firstPost := GeminiGen.PostResponded (Some "task-1");
     GeminiGen.fallbackPost := GeminiGen.PostResponded None;
     GeminiGen.provider := doneOnFourth imageLocator;
     GeminiGen.download := inr savedImage;
     GeminiGen.isoTime := "2025-01-01T00:00:00.000Z" |}.

Definition workingResponse : ImageBrandingResponse :=
  Eval vm_compute in
    match GeminiGen.generateBrandingImage workingWorld request with
    | Resolved response => response
    | Rejected _ => failure ""
    end.

(** The first task creation is answered with 500, the repeated one is
    accepted. *)
Definition retriedWorld : GeminiGen.World :=
  {| GeminiGen.apiKey := "gg-key";
     GeminiGen.productLookup := inr (Some product);
     GeminiGen.builtPrompt := inr "A pack of Good Day biscuits";
     GeminiGen.firstPost := GeminiGen.PostThrew serverError;
     GeminiGen.fallbackPost := GeminiGen.PostResponded (Some "task-2");
     GeminiGen.provider := doneOnFourth imageLocator;
     GeminiGen.download := inr savedImage;
     GeminiGen.isoTime := "2025-01-01T00:00:00.000Z" |}.

(** The task creation is answered with 429. *)
Definition refusedWorld : GeminiGen.World :=
  {| GeminiGen.apiKey := "gg-key";
     GeminiGen.productLookup := inr (Some product);
     GeminiGen.builtPrompt := inr "A pack of Good Day biscuits";
     GeminiGen.firstPost := GeminiGen.PostThrew (tooManyRequests 10);
     GeminiGen.fallbackPost := GeminiGen.PostResponded None;
     GeminiGen.provider := alwaysPending;
     GeminiGen.download := inl networkError;
     GeminiGen.isoTime := "2025-01-01T00:00:00.000Z" |}.

(** Three requests are queued at the same instant behind a full window and
    served one after the other once it has emptied; each call takes 95
    seconds. *)
Definition threeQueued : list Event :=
  [Submit request; Submit request; Submit request; Submit request;
   Submit request; Submit request; Submit request; Submit request;
   Tick 60000; TimerFires; Tick 95000; DrainCallSettles workingWorld;
   Tick 95000; DrainCallSettles workingWorld].

(** Two requests wait behind a full window. *)
Definition twoWaiting : list Event :=
  [Submit request; Submit request; Submit request; Submit request;
   Submit request; Submit request; Submit request].

(** The state that an execution from time 0 ends in. *)
Definition stateAfter (evs : list Event) : State :=
  match run (init 0) evs with
  | Some s => s
  | None => init 0
  end.

Definition afterThreeQueued : State :=
  Eval vm_compute in stateAfter threeQueued.

Definition afterTwoWaiting : State :=
  Eval vm_compute in stateAfter twoWaiting.

Definition afterOneSubmit : State :=
  Eval vm_compute in stateAfter [Submit request].

Definition afterDrainCallThenFastPath : State :=
  Eval vm_compute in stateAfter drainCallThenFastPath.

(** The error of the HTTP client when the provider answers with status
    429; [hint] is what the body of the answer holds as [retry_after]. *)
Definition status429 (hint : Js.Value) : Js.Error :=
  {| Js.isError := true; Js.isAxiosError := true;
     Js.message := "Request failed with status code 429";
     Js.response := Some
       {| Js.status := Some 429; Js.statusText := "Too Many Requests";
          Js.data_message := Js.Undefined; Js.data_error := Js.Undefined;
          Js.data_detail_retry_after := Js.Undefined;
          Js.data_retry_after := hint;
          Js.header_retry_after := Js.Undefined;
          Js.header_Retry_After := Js.Undefined |} |}.

(** The provider answers the creation of the task with 429 and the hint
    [hint]. *)
Definition answers429 (hint : Js.Value) : GeminiGen.World :=
  {| GeminiGen.apiKey := "gg-key";
     GeminiGen.productLookup := inr (Some product);
     GeminiGen.builtPrompt := inr "A pack of Good Day biscuits";
     GeminiGen.firstPost := GeminiGen.PostThrew (status429 hint);
     GeminiGen.fallbackPost := GeminiGen.PostResponded None;
     GeminiGen.provider := alwaysPending;
     GeminiGen.download := inl networkError;
     GeminiGen.isoTime := "2025-01-01T00:00:00.000Z" |}.

(** The error that [generateImage] throws when the provider has answered
    with 429. *)
Definition rethrown : Js.Error :=
  Js.newError "GeminiGen API failed: Too Many Requests".

(** What the caller of a request is then told. *)
Definition refusal : ImageBrandingResponse :=
  failure "GeminiGen API failed: Too Many Requests".

(** A request takes the fast path and the provider answers it with 429
    after 200 ms. *)
Definition refusedOnFastPath (hint : Js.Value) : list Event :=
  [Submit request; Tick 200; FastPathSettles 0 (answers429 hint)].

(** The window is full at 0 ms; request 5 arrives at 1000 ms and waits,
    and the clock reaches 60000 ms. *)
Definition oneWaiting : list Event :=
  [Submit request; Submit request; Submit request; Submit request;
   Submit request; Tick 1000; Submit request; Tick 59000].

(** The same with a second request, 6, waiting behind request 5. *)
Definition anotherWaiting : list Event :=
  [Submit request; Submit request; Submit request; Submit request;
   Submit request; Tick 1000; Submit request; Submit request; Tick 59000].

(** The timer fires, the drain loop admits the oldest request, and 200 ms
    pass. *)
Definition admitted : list Event := [TimerFires; Tick 200].

(** The window is full at 1000 ms; request 5 arrives at 1100 ms and waits.
    The wall clock is then set back by half a second, and request 6
    arrives at 600 ms by that clock.  When the timer of the drain loop
    fires, one request is admitted. *)
Definition clockSetBack : list Event :=
  [Tick 1000; Submit request; Submit request; Submit request;
   Submit request; Submit request; Tick 100; Submit request;
   ClockSteps (-500); Submit request; Tick 59900; TimerFires].

(** A timeout of the HTTP client, with no response. *)
Definition slowAnswer : Js.Error :=
  {| Js.isError := true; Js.isAxiosError := true;
     Js.message := "timeout of 4290ms exceeded"; Js.response := None |}.

(** A request body as a client sends it, and the request made of it. *)
Definition goodBody : Controller.Body :=
  {| Controller.body_productName := Some "Good Day ";
     Controller.body_platform := Some "Instagram";
     Controller.body_tone := Some "Youth";
     Controller.body_flavor := None;
     Controller.body_style := Some "Vibrant" |}.

Definition goodRequest : ImageBrandingRequest :=
  {| productName := "Good Day"; platform := "instagram"; tone := "youth";
     flavor := None; style := Some "vibrant" |}.

(** The same body with a product name of three spaces. *)
Definition blankBody : Controller.Body :=
  {| Controller.body_productName := Some "   ";
     Controller.body_platform := Some "Instagram";
     Controller.body_tone := Some "Youth";
     Controller.body_flavor := None;
     Controller.body_style := Some "Vibrant" |}.

End Scenarios.

(* ================================================================== *)
(** * The poller follows its schedule *)
(* ================================================================== *)

Section PollerProperties.

Import GeminiGen.

Variable provider : Provider.

Let run := pollTaskCompletion provider.

Lemma pending_continues (total a : Z) (task : Task) :
  stillPending task \/ unknownStatus task -> a < 4 ->
  interpretStatus 4 total a task = Continued.
Proof.
  intros Hs Ha. unfold interpretStatus.
  assert ((a >=? 4) = false) as -> by lia.
  destruct Hs as [[H | H] | (H0 & H1 & H2 & H3 & H4)].
  - rewrite H. reflexivity.
  - rewrite H. reflexivity.
  - repeat match goal with
           | |- context [status task =? ?n] =>
               let E := fresh in
               assert ((status task =? n) = false) as E by lia; rewrite E; clear E
           end.
    reflexivity.
Qed.

Lemma pending_final_throws (total : Z) (task : Task) :
  stillPending task \/ unknownStatus task ->
  exists msg, interpretStatus 4 total 4 task = Threw (Js.newError msg).
Proof.
  intros Hs. unfold interpretStatus.
  destruct Hs as [[H | H] | (H0 & H1 & H2 & H3 & H4)].
  - rewrite H. eexists. reflexivity.
  - rewrite H. eexists. reflexivity.
  - repeat match goal with
           | |- context [status task =? ?n] =>
               let E := fresh in
               assert ((status task =? n) = false) as E by lia; rewrite E; clear E
           end.
    eexists. reflexivity.
Qed.

Lemma success_returns (total a : Z) (task : Task) (url : option string) :
  terminalSuccess task url ->
  interpretStatus 4 total a task = Returned {| imageUrl := url |}.
Proof.
  intros (Hs & img & more & Hg & Hu). unfold interpretStatus.
  rewrite Hs, Hg, Hu. reflexivity.
Qed.

(** C3. Poll schedule adherence: when the first three status queries answer
    still-pending and the fourth answers terminal success, the poller issues
    exactly the four queries of the schedule, waits 38000 ms, 25000 ms and
    30000 ms before the second, third and fourth (nothing before the first),
    each wait starting when the previous query has completed, and returns
    the image locator of the fourth answer. *)
Theorem poll_schedule_adherence (t0 t1 t2 t3 : Task) (url : option string) :
  provider 0%nat = Responded t0 -> stillPending t0 ->
  provider 1%nat = Responded t1 -> stillPending t1 ->
  provider 2%nat = Responded t2 -> stillPending t2 ->
  provider 3%nat = Responded t3 -> terminalSuccess t3 url ->
  run = ({| totalTime := 93000; events := fullSchedule |},
         inr {| imageUrl := url |})
  /\ queryCount (fst run) = 4%nat.
Proof.
  intros P0 S0 P1 S1 P2 S2 P3 S3.
  assert (run = ({| totalTime := 93000; events := fullSchedule |},
                 inr {| imageUrl := url |})) as E.
  { unfold run, pollTaskCompletion. cbn [pollLoop pollingSchedule List.length Z.of_nat].
    cbn. rewrite P0. rewrite pending_continues by (auto || lia).
    cbn. rewrite P1. rewrite pending_continues by (auto || lia).
    cbn. rewrite P2. rewrite pending_continues by (auto || lia).
    cbn. rewrite P3. rewrite (success_returns _ _ _ url) by assumption.
    reflexivity. }
  rewrite E. split; reflexivity.
Qed.


(** Against a provider that never reports a terminal state the run goes
    through the whole schedule and ends in the error of the final attempt. *)
Lemma pollTaskCompletion_exhausted :
  (forall k, exists task, provider k = Responded task /\
                          (stillPending task \/ unknownStatus task)) ->
  exists inner,
    run = ({| totalTime := 93000; events := fullSchedule |},
           inl (Js.newError
                  (String.append "Polling failed after 4 attempts (93s total): "
                                 inner))).
Proof.
  intros H.
  destruct (H 0%nat) as (t0 & P0 & S0). destruct (H 1%nat) as (t1 & P1 & S1).
  destruct (H 2%nat) as (t2 & P2 & S2). destruct (H 3%nat) as (t3 & P3 & S3).
  destruct (pending_final_throws 93000 t3 S3) as (msg & Hm).
  exists msg. unfold run, pollTaskCompletion.
  cbn. rewrite P0. rewrite pending_continues by (auto || lia).
  cbn. rewrite P1. rewrite pending_continues by (auto || lia).
  cbn. rewrite P2. rewrite pending_continues by (auto || lia).
  cbn. rewrite P3. rewrite Hm. reflexivity.
Qed.







End PollerProperties.

(* ================================================================== *)
(** * The queue of the rate limiter *)
(* ================================================================== *)

Section QueueOrder.

Import RateLimited.

Lemma insertByTimestamp_oldest (x : QueuedRequest) (l : list QueuedRequest) :
  Forall (fun y => timestamp x <= timestamp y) l ->
  insertByTimestamp x l = x :: l.
Proof.
  intros H. destruct l as [| y l]; [reflexivity |].
  inversion H; subst. simpl.
  destruct (timestamp x <=? timestamp y) eqn:E; [reflexivity | lia].
Qed.

(** The stable sort leaves a sorted queue as it is. *)
Lemma sortByTimestamp_sorted (l : list QueuedRequest) :
  StronglySorted byTimestamp l -> sortByTimestamp l = l.
Proof.
  induction 1 as [| x l Hs IH Hx]; [reflexivity |].
  simpl. rewrite IH. now apply insertByTimestamp_oldest.
Qed.

Lemma sorted_snoc (l : list QueuedRequest) (x : QueuedRequest) :
  StronglySorted byTimestamp l ->
  Forall (fun y => timestamp y <= timestamp x) l ->
  StronglySorted byTimestamp (l ++ [x]).
Proof.
  induction 1 as [| y l Hs IH Hy]; intros Hx; simpl.
  - repeat constructor.
  - inversion Hx; subst. constructor; [auto |].
    apply Forall_app. split; [assumption | now repeat constructor].
Qed.

(** A new arrival goes to the back of the queue: its timestamp is the
    current instant, and no queued request is younger. *)
Lemma push_sort_appends (q : list QueuedRequest) (x : QueuedRequest) :
  StronglySorted byTimestamp q ->
  Forall (fun y => timestamp y <= timestamp x) q ->
  sortByTimestamp (q ++ [x]) = q ++ [x].
Proof.
  intros Hs Hx. apply sortByTimestamp_sorted. now apply sorted_snoc.
Qed.

End QueueOrder.

(* ================================================================== *)
(** * What the operations of the limiter do to the queue side *)
(* ================================================================== *)

Section Effects.

Import RateLimited.

Ltac agree_by_fields := unfold agree; simpl; repeat split; congruence.

Lemma agree_refl (s : State) : agree s s.
Proof. agree_by_fields. Qed.

Lemma agree_sym (s s' : State) : agree s s' -> agree s' s.
Proof. unfold agree. intuition congruence. Qed.

Lemma agree_trans (s1 s2 s3 : State) :
  agree s1 s2 -> agree s2 s3 -> agree s1 s3.
Proof. unfold agree. intuition congruence. Qed.

Lemma agree_setTimestamps (ts : list Z) (s : State) :
  agree (setTimestamps ts s) s.
Proof. agree_by_fields. Qed.

Lemma agree_recordStarted (c : nat) (s : State) : agree (recordStarted c s) s.
Proof. agree_by_fields. Qed.

Lemma canMakeRequest_state (s : State) :
  snd (canMakeRequest s) = cleanOldTimestamps s.
Proof. reflexivity. Qed.

Lemma getNextAvailableTime_state (s : State) :
  snd (getNextAvailableTime s) = cleanOldTimestamps s.
Proof.
  unfold getNextAvailableTime.
  destruct (Z.of_nat _ <? maxRequestsPerMinute); reflexivity.
Qed.

Lemma agree_getNextAvailableTime (s : State) :
  agree (snd (getNextAvailableTime s)) s.
Proof. rewrite getNextAvailableTime_state. apply agree_setTimestamps. Qed.

Lemma agree_getRateLimitStatus (s : State) : agree (getRateLimitStatus s) s.
Proof.
  unfold getRateLimitStatus.
  rewrite getNextAvailableTime_state, canMakeRequest_state.
  agree_by_fields.
Qed.

Lemma agree_getRetryAfterTime (e : Js.Error) (s : State) :
  agree (snd (getRetryAfterTime e s)) s.
Proof.
  unfold getRetryAfterTime. destruct (matchRetryAfter _).
  - apply agree_refl.
  - pose proof (agree_getNextAvailableTime s) as H.
    destruct (getNextAvailableTime s) as [w s1]. exact H.
Qed.

(** Each of the setters respects [agree]. *)
Lemma agree_setDrain (f : bool) (d : DrainPoint) (s s' : State) :
  agree s s' -> agree (setDrain f d s) (setDrain f d s').
Proof. unfold agree. simpl. intuition congruence. Qed.

Lemma agree_setQueue (q : list QueuedRequest) (s s' : State) :
  agree s s' -> agree (setQueue q s) (setQueue q s').
Proof. unfold agree. simpl. intuition congruence. Qed.

Lemma agree_recordDequeued (c : nat) (s s' : State) :
  agree s s' -> agree (recordDequeued c s) (recordDequeued c s').
Proof. unfold agree. simpl. intuition congruence. Qed.

Lemma agree_recordArrival (c : nat) (s s' : State) :
  agree s s' -> agree (recordArrival c s) (recordArrival c s').
Proof. unfold agree. simpl. intuition congruence. Qed.

Lemma agree_settle (c : nat) (o : Settlement) (s s' : State) :
  agree s s' -> agree (settle c o s) (settle c o s').
Proof.
  intros H. unfold settle, isSettled.
  assert (settled (history s) = settled (history s')) as E
    by (unfold agree in H; intuition).
  rewrite E. destruct (existsb _ _); [exact H |].
  unfold agree in *. simpl. intuition congruence.
Qed.

Lemma agree_dispatched (s s' : State) :
  agree s s' -> agree (dispatched s) (dispatched s').
Proof.
  intros H. unfold dispatched.
  assert (requestQueue s = requestQueue s') as E
    by (unfold agree in H; intuition).
  rewrite E. destruct (requestQueue s').
  - now apply agree_setDrain.
  - now apply agree_setDrain, agree_recordDequeued, agree_setQueue.
Qed.

Lemma dispatch_agree (s : State) : agree (dispatch s) (dispatched s).
Proof.
  unfold dispatch, dispatched, logRateLimitStatus.
  destruct (requestQueue s) as [| item rest]; [apply agree_refl |].
  apply agree_setDrain.
  eapply agree_trans; [apply agree_recordStarted |].
  apply agree_recordDequeued.
  eapply agree_trans; [apply agree_getRateLimitStatus |].
  apply agree_setTimestamps.
Qed.

(** The loop either finds the queue empty and stops, or suspends until a
    slot is free, or hands the oldest request to the downstream. *)
Lemma drainLoop_agree (s : State) :
  agree (drainLoop s) (dispatched s) \/
  (requestQueue s <> [] /\
   exists deadline, agree (drainLoop s) (setDrain true (AwaitingSlot deadline) s)).
Proof.
  unfold drainLoop.
  destruct (requestQueue s) as [| item rest] eqn:Eq.
  - left. unfold dispatched. rewrite Eq. apply agree_refl.
  - pose proof (agree_getNextAvailableTime s) as H.
    destruct (getNextAvailableTime s) as [w s1]. simpl in H.
    destruct (w >? 0).
    + right. split; [discriminate |]. eexists.
      apply agree_setDrain. exact H.
    + left. eapply agree_trans; [apply dispatch_agree |].
      now apply agree_dispatched.
Qed.

Lemma processQueue_agree (s : State) :
  agree (processQueue s) s \/
  (isProcessingQueue s = false /\
   (agree (processQueue s) (dispatched s) \/
    (requestQueue s <> [] /\
     exists deadline,
       agree (processQueue s) (setDrain true (AwaitingSlot deadline) s)))).
Proof.
  unfold processQueue.
  destruct (isProcessingQueue s) eqn:Ef; simpl; [left; apply agree_refl |].
  destruct (requestQueue s) as [| item rest] eqn:Eq; [left; apply agree_refl |].
  right. split; [reflexivity |].
  destruct (drainLoop_agree (setDrain true (drain s) s)) as [H | (Hne & d & H)].
  - left. eapply agree_trans; [exact H |].
    unfold dispatched. simpl. rewrite Eq. agree_by_fields.
  - right. split; [discriminate |]. exists d.
    eapply agree_trans; [exact H |]. agree_by_fields.
Qed.

End Effects.

(* ================================================================== *)
(** * The invariant of the reachable states *)
(* ================================================================== *)

Section Invariant.

Import RateLimited.

Ltac nodup H :=
  apply (NoDup_count_occ Nat.eq_dec); intros ?y;
  pose proof (proj1 (NoDup_count_occ Nat.eq_dec _) H y);
  repeat (rewrite ?count_occ_app in *; simpl in * );
  repeat match goal with
         | _ : context [Nat.eq_dec ?a ?b] |- _ => destruct (Nat.eq_dec a b)
         | |- context [Nat.eq_dec ?a ?b] => destruct (Nat.eq_dec a b)
         end;
  try lia; try congruence; try (subst; lia).

Ltac foralls :=
  rewrite ?Forall_app, ?Forall_cons_iff in *; simpl in *;
  rewrite ?Forall_app, ?Forall_cons_iff in *; intuition (auto; try lia).

Ltac callers :=
  unfold pendingCallers, queueCallers, settledCallers in *; simpl in *.

(** The downstream settles by resolving, whatever world it meets. *)
Lemma downstream_resolves (w : GeminiGen.World)
    (request : ImageBrandingRequest) :
  exists response, downstream w request = Resolved response.
Proof.
  unfold downstream, GeminiGen.generateBrandingImage.
  destruct (GeminiGen.generateBrandingImageBody w request); eauto.
Qed.

Lemma Inv_agree (s s' : State) : agree s s' -> Inv s -> Inv s'.
Proof.
  intros (En & Eq & Ef & Ed & Ep & Ec & Es & Ea & Eo) [H1 H2 H3 H4].
  constructor; callers;
    rewrite <- ?En, <- ?Eq, <- ?Ef, <- ?Ed, <- ?Ep, <- ?Ec, <- ?Es, <- ?Ea;
    assumption.
Qed.

Lemma Inv_init (start : Z) : Inv (init start).
Proof.
  constructor; callers; try constructor; try discriminate.
Qed.

(** Forgetting the request on which the drain loop is suspended. *)
Lemma Inv_detach (s : State) : Inv s -> Inv (setDrain false NotRunning s).
Proof.
  intros [H1 H2 H3 H4]. constructor; callers; auto.
  - nodup H2.
  - foralls.
Qed.

Lemma Inv_dispatched (s : State) :
  Inv (setDrain false NotRunning s) -> Inv (dispatched s).
Proof.
  intros [H1 H2 H3 H4]. unfold dispatched. callers.
  destruct (requestQueue s) as [| item rest] eqn:Eq;
    constructor; callers; rewrite ?Eq in *; simpl in *; auto.
  - nodup H2.
  - foralls.
Qed.

Lemma Inv_suspend (d : DrainPoint) (s : State) :
  drainCaller d = [] -> d <> NotRunning ->
  Inv (setDrain false NotRunning s) -> Inv (setDrain true d s).
Proof.
  intros Hd Hn [H1 H2 H3 H4].
  constructor; callers; rewrite ?Hd; auto.
  destruct d; congruence.
Qed.

Lemma Inv_drainLoop (s : State) :
  Inv (setDrain false NotRunning s) -> Inv (drainLoop s).
Proof.
  intros H. destruct (drainLoop_agree s) as [A | (_ & d & A)].
  - eapply Inv_agree; [apply agree_sym, A |]. now apply Inv_dispatched.
  - eapply Inv_agree; [apply agree_sym, A |].
    apply Inv_suspend; [reflexivity | discriminate | assumption].
Qed.

Lemma Inv_dispatch (s : State) :
  Inv (setDrain false NotRunning s) -> Inv (dispatch s).
Proof.
  intros H. eapply Inv_agree; [apply agree_sym, dispatch_agree |].
  now apply Inv_dispatched.
Qed.

Lemma Inv_processQueue (s : State) : Inv s -> Inv (processQueue s).
Proof.
  intros H.
  destruct (processQueue_agree s) as [A | (Hf & [A | (_ & d & A)])].
  - eapply Inv_agree; [apply agree_sym, A | assumption].
  - eapply Inv_agree; [apply agree_sym, A |].
    apply Inv_dispatched. now apply Inv_detach.
  - eapply Inv_agree; [apply agree_sym, A |].
    apply Inv_suspend; [reflexivity | discriminate |]. now apply Inv_detach.
Qed.

Lemma isSettled_false (c : nat) (s : State) :
  ~ In c (settledCallers s) -> isSettled c s = false.
Proof.
  unfold isSettled, settledCallers. intros H.
  destruct (existsb _ _) eqn:E; [| reflexivity].
  apply existsb_exists in E. destruct E as (p & Hin & Hp).
  apply Nat.eqb_eq in Hp. subst c. exfalso. apply H. now apply in_map.
Qed.

Lemma settle_setDrain (c : nat) (o : Settlement) (f : bool) (d : DrainPoint)
    (s : State) :
  settle c o (setDrain f d s) = setDrain f d (settle c o s).
Proof.
  unfold settle, isSettled. simpl. destruct (existsb _ _); reflexivity.
Qed.

(** Settling a caller that is neither waiting nor settled. *)
Lemma Inv_settle (c : nat) (o : Settlement) (s : State) :
  Inv s -> ~ In c (pendingCallers s ++ settledCallers s) ->
  (c < nextCaller s)%nat -> Inv (settle c o s).
Proof.
  intros [H1 H2 H3 H4] Hc Hlt. unfold settle.
  rewrite isSettled_false by (intros F; apply Hc, in_or_app; now right).
  apply (count_occ_not_In Nat.eq_dec) in Hc.
  constructor; callers; rewrite ?map_app in *; simpl; auto.
  - nodup H2.
  - foralls.
Qed.

(** The sort rearranges the queue and does nothing else. *)
Lemma insertByTimestamp_perm (x : QueuedRequest) (l : list QueuedRequest) :
  Permutation (insertByTimestamp x l) (x :: l).
Proof.
  induction l as [| y l IH]; simpl; [reflexivity |].
  destruct (timestamp x <=? timestamp y); [reflexivity |].
  rewrite IH. apply perm_swap.
Qed.

Lemma sortByTimestamp_perm (l : list QueuedRequest) :
  Permutation (sortByTimestamp l) l.
Proof.
  induction l as [| x l IH]; simpl; [reflexivity |].
  rewrite insertByTimestamp_perm. now apply perm_skip.
Qed.

(** The invariant does not look at the order of the queue. *)
Lemma Inv_permute (q : list QueuedRequest) (s : State) :
  Permutation (requestQueue s) q -> Inv s -> Inv (setQueue q s).
Proof.
  intros Hp [H1 H2 H3 H4].
  assert (Permutation (pendingCallers s ++ settledCallers s)
            (pendingCallers (setQueue q s) ++ settledCallers (setQueue q s)))
    as Hk.
  { callers. apply Permutation_app_tail, Permutation_app_head,
      Permutation_app_tail, Permutation_map, Hp. }
  constructor.
  - exact H1.
  - eapply Permutation_NoDup; [exact Hk | exact H2].
  - rewrite app_assoc in *. rewrite Forall_app in *. split; [| apply H3].
    eapply Permutation_Forall; [exact Hk | apply H3].
  - exact H4.
Qed.

(** A new entry in the queue, for a caller not yet known to the queue
    side. *)
Lemma Inv_queueRequest (c : nat) (request : ImageBrandingRequest)
    (s : State) :
  Inv s -> ~ In c (pendingCallers s ++ settledCallers s) ->
  ~ In c (map fst (fastPath s) ++ arrivals (history s)) ->
  (c < nextCaller s)%nat -> Inv (queueRequest c request s).
Proof.
  intros H Hc Ha Hlt. unfold queueRequest.
  apply Inv_processQueue. unfold logRateLimitStatus.
  eapply Inv_agree; [apply agree_sym, agree_getRateLimitStatus |].
  set (item := {| timestamp := now s; caller := c; requestData := request;
                  priority := 1 |}).
  assert (Inv (recordArrival c (setQueue (requestQueue s ++ [item]) s)))
    as Hpushed.
  { destruct H as [H1 H2 H3 H4].
    apply (count_occ_not_In Nat.eq_dec) in Hc, Ha.
    constructor; callers; rewrite ?map_app in *; simpl; auto.
    - nodup H2.
    - foralls.
    - nodup H4. }
  apply (Inv_permute (sortByTimestamp (requestQueue s ++ [item]))) in Hpushed.
  - exact Hpushed.
  - simpl. symmetry. apply sortByTimestamp_perm.
Qed.

(** A caller identifier at or above [nextCaller] has not been used. *)
Lemma fresh_not_In (c : nat) (n : nat) (l : list nat) :
  Forall (fun x => (x < n)%nat) l -> (n <= c)%nat -> ~ In c l.
Proof.
  intros H Hle Hin. rewrite Forall_forall in H. apply H in Hin. lia.
Qed.

Lemma Inv_generateBrandingImage (request : ImageBrandingRequest)
    (s : State) :
  Inv s -> Inv (generateBrandingImage request s).
Proof.
  intros H. unfold generateBrandingImage.
  set (c := nextCaller s).
  assert (Inv (cleanOldTimestamps (setNextCaller (S c) s))) as H0.
  { destruct H as [H1 H2 H3 H4]. constructor; callers; auto.
    eapply Forall_impl; [| exact H3]. simpl. intros; lia. }
  assert (~ In c (pendingCallers s ++ settledCallers s ++ arrivals (history s)))
    as Hc.
  { eapply fresh_not_In; [apply (inv_fresh _ H) | apply Nat.le_refl]. }
  unfold canMakeRequest.
  destruct (Z.of_nat _ <? maxRequestsPerMinute).
  - (* the fast path *)
    eapply Inv_agree; [apply agree_sym, agree_recordStarted |].
    destruct H0 as [H1 H2 H3 H4].
    apply (count_occ_not_In Nat.eq_dec) in Hc.
    constructor; callers; rewrite ?map_app in *; simpl; auto.
    + nodup H2.
    + foralls.
    + nodup H4.
  - (* the queue *)
    apply Inv_queueRequest; auto; callers.
    + intros F. apply Hc. rewrite !in_app_iff in *. tauto.
    + intros F. apply Hc. rewrite !in_app_iff in *. tauto.
Qed.

Lemma lookupCaller_In (c : nat) (l : list (nat * ImageBrandingRequest))
    (r : ImageBrandingRequest) :
  lookupCaller c l = Some r -> In c (map fst l).
Proof.
  induction l as [| [c' r'] l IH]; simpl; [discriminate |].
  destruct (Nat.eqb c' c) eqn:E.
  - apply Nat.eqb_eq in E. auto.
  - auto.
Qed.

Lemma count_removeCaller (c y : nat)
    (l : list (nat * ImageBrandingRequest)) :
  count_occ Nat.eq_dec (map fst (removeCaller c l)) y =
  if Nat.eq_dec c y then 0%nat else count_occ Nat.eq_dec (map fst l) y.
Proof.
  induction l as [| [c' r'] l IH]; simpl.
  - now destruct (Nat.eq_dec c y).
  - destruct (Nat.eqb c' c) eqn:E; simpl.
    + apply Nat.eqb_eq in E. subst c'. rewrite IH.
      destruct (Nat.eq_dec c y); reflexivity.
    + apply Nat.eqb_neq in E. rewrite IH.
      destruct (Nat.eq_dec c y); destruct (Nat.eq_dec c' y);
        congruence.
Qed.

Lemma Forall_removeCaller (P : nat -> Prop) (c : nat)
    (l : list (nat * ImageBrandingRequest)) :
  Forall P (map fst l) -> Forall P (map fst (removeCaller c l)).
Proof.
  induction l as [| [c' r'] l IH]; simpl; [auto |].
  intros H. inversion H; subst.
  destruct (Nat.eqb c' c); simpl; auto.
Qed.

(** Taking a caller off the fast path, to settle it or to queue it. *)
Lemma Inv_leaveFastPath (c : nat) (s : State) :
  Inv s -> In c (map fst (fastPath s)) ->
  let s' := setFastPath (removeCaller c (fastPath s)) s in
  Inv s' /\
  ~ In c (pendingCallers s' ++ settledCallers s') /\
  ~ In c (map fst (fastPath s') ++ arrivals (history s')) /\
  (c < nextCaller s')%nat.
Proof.
  intros [H1 H2 H3 H4] Hin s'.
  assert (c < nextCaller s)%nat as Hlt.
  { rewrite Forall_forall in H3. apply H3. callers.
    rewrite !in_app_iff. tauto. }
  apply (count_occ_In Nat.eq_dec) in Hin.
  split; [constructor | split; [| split]]; unfold s'; callers; auto.
  - apply (NoDup_count_occ Nat.eq_dec). intros y.
    pose proof (proj1 (NoDup_count_occ Nat.eq_dec _) H2 y) as Hy.
    rewrite !count_occ_app in *. rewrite count_removeCaller.
    destruct (Nat.eq_dec c y); lia.
  - rewrite !Forall_app in *. intuition. now apply Forall_removeCaller.
  - apply (NoDup_count_occ Nat.eq_dec). intros y.
    pose proof (proj1 (NoDup_count_occ Nat.eq_dec _) H4 y) as Hy.
    rewrite !count_occ_app in *. rewrite count_removeCaller.
    destruct (Nat.eq_dec c y); lia.
  - apply (count_occ_not_In Nat.eq_dec).
    pose proof (proj1 (NoDup_count_occ Nat.eq_dec _) H2 c) as Hy.
    rewrite !count_occ_app in *. rewrite count_removeCaller.
    destruct (Nat.eq_dec c c); [lia | congruence].
  - apply (count_occ_not_In Nat.eq_dec).
    pose proof (proj1 (NoDup_count_occ Nat.eq_dec _) H4 c) as Hy.
    rewrite !count_occ_app in *. rewrite count_removeCaller.
    destruct (Nat.eq_dec c c); [lia | congruence].
Qed.

(** The continuation of the fast path as it is written, for whatever its
    downstream call brings. *)
Lemma Inv_resumeFastPath (c : nat) (request : ImageBrandingRequest)
    (outcome : Settlement) (s s' : State) :
  Inv s -> lookupCaller c (fastPath s) = Some request ->
  resumeFastPath c request outcome
    (setFastPath (removeCaller c (fastPath s)) s) = Some s' ->
  Inv s'.
Proof.
  intros H Hl. apply lookupCaller_In in Hl.
  destruct (Inv_leaveFastPath c s H Hl) as (H' & Hc & Ha & Hlt).
  set (s0 := setFastPath (removeCaller c (fastPath s)) s) in *.
  unfold resumeFastPath.
  destruct outcome as [r | e];
    [intros E; injection E as <-; now apply Inv_settle |].
  destruct (isRateLimitError e);
    [| intros E; injection E as <-; now apply Inv_settle].
  assert (agree (popTimestamp s0) s0) as A by apply agree_setTimestamps.
  destruct (extractRetryAfter e) as [retryAfter |]; [| discriminate].
  destruct (retryAfter >? 300); intros E; injection E as <-.
  - eapply Inv_agree; [apply agree_sym, agree_settle, A |].
    now apply Inv_settle.
  - apply Inv_queueRequest; auto.
    eapply Inv_agree; [apply agree_sym, A | assumption].
Qed.

(** The continuation of the drain loop as it is written. *)
Lemma Inv_resumeDrain (queueItem : QueuedRequest) (outcome : Settlement)
    (s : State) :
  Inv s -> drain s = AwaitingDownstream queueItem ->
  Inv (resumeDrain queueItem outcome s).
Proof.
  intros H Hd.
  assert (Inv (drainLoop (settle (caller queueItem) outcome s))) as Hsettle.
  { apply Inv_drainLoop. rewrite <- settle_setDrain.
    destruct H as [H1 H2 H3 H4].
    pose proof (proj1 (NoDup_count_occ Nat.eq_dec _) H2 (caller queueItem))
      as Hy.
    apply Inv_settle.
    - apply Inv_detach. now constructor.
    - apply (count_occ_not_In Nat.eq_dec). callers. rewrite Hd in Hy.
      repeat (rewrite ?count_occ_app in *; simpl in * ).
      destruct (Nat.eq_dec (caller queueItem) (caller queueItem));
        [lia | congruence].
    - simpl. rewrite Forall_forall in H3. apply H3. callers. rewrite Hd.
      rewrite !in_app_iff. simpl. tauto. }
  unfold resumeDrain. destruct outcome as [r | e]; [exact Hsettle |].
  destruct (isRateLimitError e); [| exact Hsettle].
  pose proof (agree_getRetryAfterTime e
                (setQueue (queueItem :: requestQueue (popTimestamp s))
                          (popTimestamp s))) as A.
  destruct (getRetryAfterTime e _) as [retryWait s3]. simpl in A.
  eapply Inv_agree.
  { apply agree_sym. apply agree_setDrain. exact A. }
  destruct H as [H1 H2 H3 H4].
  constructor; callers; rewrite ?Hd in *; simpl in *; auto.
  - nodup H2.
  - foralls.
Qed.

(** [clearQueue] on a queue whose callers are distinct and pending: every
    one of its rejections takes effect. *)
Lemma rejectAll_settles (q : list QueuedRequest) (s : State) :
  NoDup (map caller q ++ settledCallers s) ->
  fold_left (fun acc item => settle (caller item) (Rejected cancelled) acc)
            q s
  = setHistory {| settled := settled (history s) ++ rejections q;
                  started := started (history s);
                  arrivals := arrivals (history s);
                  dequeued := dequeued (history s) |} s.
Proof.
  revert s. induction q as [| item q IH]; intros s Hnd.
  - simpl. rewrite app_nil_r. destruct s as [? ? ? ? ? ? ? ? []].
    reflexivity.
  - simpl in *. inversion Hnd as [| ? ? Hnot Hnd']; subst.
    assert (settle (caller item) (Rejected cancelled) s
            = setHistory {| settled := settled (history s)
                                       ++ [(caller item, Rejected cancelled)];
                            started := started (history s);
                            arrivals := arrivals (history s);
                            dequeued := dequeued (history s) |} s) as E.
    { unfold settle. rewrite isSettled_false; [reflexivity |].
      intros F. apply Hnot. apply in_or_app. now right. }
    rewrite E. rewrite IH.
    + unfold setHistory. simpl. rewrite <- app_assoc. reflexivity.
    + unfold settledCallers in *. simpl. rewrite map_app. simpl.
      nodup Hnd.
Qed.

Lemma Inv_queue_pending (s : State) :
  Inv s -> NoDup (queueCallers s ++ settledCallers s).
Proof.
  intros [H1 H2 H3 H4]. callers. nodup H2.
Qed.

Lemma clearQueue_effect (s : State) :
  Inv s ->
  clearQueue s
  = setQueue []
      (setHistory {| settled := settled (history s)
                                ++ rejections (requestQueue s);
                     started := started (history s);
                     arrivals := arrivals (history s);
                     dequeued := dequeued (history s) |} s).
Proof.
  intros H. unfold clearQueue. rewrite rejectAll_settles; [reflexivity |].
  now apply Inv_queue_pending.
Qed.

Lemma Inv_clearQueue (s : State) : Inv s -> Inv (clearQueue s).
Proof.
  intros H. rewrite clearQueue_effect by assumption.
  destruct H as [H1 H2 H3 H4].
  constructor; callers; unfold rejections; rewrite ?map_app, ?map_map in *;
    simpl; change (fun x : QueuedRequest => caller x) with caller; auto.
  - nodup H2.
  - foralls.
Qed.

Lemma Inv_step (s s' : State) (ev : Event) :
  Inv s -> step s ev = Some s' -> Inv s'.
Proof.
  intros H Hs.
  destruct ev as [d | delta | request | c w | w | | |]; simpl in Hs.
  - destruct (0 <=? d) eqn:E; [| discriminate]. injection Hs as <-.
    destruct H as [H1 H2 H3 H4]. constructor; callers; auto.
  - injection Hs as <-.
    destruct H as [H1 H2 H3 H4]. constructor; callers; auto.
  - injection Hs as <-. now apply Inv_generateBrandingImage.
  - destruct (lookupCaller c (fastPath s)) as [request |] eqn:El;
      [| discriminate].
    eapply Inv_resumeFastPath; eassumption.
  - destruct (drain s) as [| | queueItem |] eqn:Ed; try discriminate.
    injection Hs as <-. now apply Inv_resumeDrain.
  - destruct (drain s) as [| deadline | | deadline] eqn:Ed; try discriminate;
      destruct (deadline <=? uptime s); try discriminate;
      injection Hs as <-.
    + apply Inv_dispatch. now apply Inv_detach.
    + apply Inv_drainLoop. now apply Inv_detach.
  - injection Hs as <-. now apply Inv_clearQueue.
  - injection Hs as <-.
    eapply Inv_agree; [apply agree_sym, agree_getRateLimitStatus | exact H].
Qed.

Lemma Inv_run (evs : list Event) (s s' : State) :
  Inv s -> run s evs = Some s' -> Inv s'.
Proof.
  revert s. induction evs as [| ev evs IH]; intros s H Hr; simpl in Hr.
  - now injection Hr as <-.
  - destruct (step s ev) as [s1 |] eqn:Es; [| discriminate].
    eapply IH; [| exact Hr]. eapply Inv_step; eassumption.
Qed.

(** Every state that the service reaches satisfies the invariant. *)
Lemma Inv_reachable (start : Z) (evs : list Event) (s : State) :
  run (init start) evs = Some s -> Inv s.
Proof. apply Inv_run, Inv_init. Qed.

(** ** The order of the queue under a clock that is not set back *)

Lemma Ordered_agree (s s' : State) : agree s s' -> Ordered s -> Ordered s'.
Proof.
  intros (En & Eq & _) [H1 H2]. constructor; rewrite <- ?En, <- Eq; assumption.
Qed.

Lemma Ordered_init (start : Z) : Ordered (init start).
Proof. constructor; constructor. Qed.

Lemma Ordered_setDrain (f : bool) (d : DrainPoint) (s : State) :
  Ordered s -> Ordered (setDrain f d s).
Proof. intros [H1 H2]. now constructor. Qed.

Lemma Ordered_dispatched (s : State) : Ordered s -> Ordered (dispatched s).
Proof.
  intros [H1 H2]. unfold dispatched.
  destruct (requestQueue s) as [| item rest] eqn:Eq;
    constructor; simpl; rewrite ?Eq; auto.
  - now apply StronglySorted_inv in H1.
  - now inversion H2.
Qed.

Lemma Ordered_drainLoop (s : State) : Ordered s -> Ordered (drainLoop s).
Proof.
  intros H. destruct (drainLoop_agree s) as [A | (_ & d & A)];
    (eapply Ordered_agree; [apply agree_sym, A |]).
  - now apply Ordered_dispatched.
  - now apply Ordered_setDrain.
Qed.

Lemma Ordered_dispatch (s : State) : Ordered s -> Ordered (dispatch s).
Proof.
  intros H. eapply Ordered_agree; [apply agree_sym, dispatch_agree |].
  now apply Ordered_dispatched.
Qed.

Lemma Ordered_processQueue (s : State) :
  Ordered s -> Ordered (processQueue s).
Proof.
  intros H.
  destruct (processQueue_agree s) as [A | (Hf & [A | (_ & d & A)])];
    (eapply Ordered_agree; [apply agree_sym, A |]).
  - exact H.
  - now apply Ordered_dispatched.
  - now apply Ordered_setDrain.
Qed.

Lemma Ordered_settle (c : nat) (o : Settlement) (s : State) :
  Ordered s -> Ordered (settle c o s).
Proof.
  intros H. unfold settle. destruct (isSettled c s); [exact H |].
  destruct H as [H1 H2]. now constructor.
Qed.

(** A new arrival goes to the back of an ordered queue. *)
Lemma Ordered_queueRequest (c : nat) (request : ImageBrandingRequest)
    (s : State) :
  Ordered s -> Ordered (queueRequest c request s).
Proof.
  intros [H1 H2]. unfold queueRequest.
  apply Ordered_processQueue. unfold logRateLimitStatus.
  eapply Ordered_agree; [apply agree_sym, agree_getRateLimitStatus |].
  rewrite push_sort_appends by (simpl; auto).
  constructor; simpl.
  - apply sorted_snoc; simpl; auto.
  - apply Forall_app. split; [exact H2 |].
    constructor; [simpl; lia | constructor].
Qed.

Lemma Ordered_generateBrandingImage (request : ImageBrandingRequest)
    (s : State) :
  Ordered s -> Ordered (generateBrandingImage request s).
Proof.
  intros H. unfold generateBrandingImage, canMakeRequest.
  assert (Ordered (cleanOldTimestamps
                     (setNextCaller (S (nextCaller s)) s))) as H0
    by (destruct H as [H1 H2]; now constructor).
  destruct (Z.of_nat _ <? maxRequestsPerMinute).
  - destruct H0 as [H1 H2]. now constructor.
  - now apply Ordered_queueRequest.
Qed.

Lemma Ordered_step (s s' : State) (ev : Event) :
  Ordered s -> step s ev = Some s' -> isBackwardStep ev = false ->
  Ordered s'.
Proof.
  intros H Hs Hb.
  destruct ev as [d | delta | request | c w | w | | |]; simpl in Hs, Hb.
  - destruct (0 <=? d) eqn:E; [| discriminate]. injection Hs as <-.
    destruct H as [H1 H2]. constructor; simpl; [exact H1 |].
    eapply Forall_impl; [| exact H2]. simpl. intros; lia.
  - injection Hs as <-.
    destruct H as [H1 H2]. constructor; simpl; [exact H1 |].
    eapply Forall_impl; [| exact H2]. simpl. intros; lia.
  - injection Hs as <-. now apply Ordered_generateBrandingImage.
  - destruct (lookupCaller c (fastPath s)) as [request |]; [| discriminate].
    destruct (downstream_resolves w request) as (r & Er).
    rewrite Er in Hs. simpl in Hs. injection Hs as <-.
    apply Ordered_settle. destruct H as [H1 H2]. now constructor.
  - destruct (drain s) as [| | queueItem |]; try discriminate.
    destruct (downstream_resolves w (requestData queueItem)) as (r & Er).
    rewrite Er in Hs. injection Hs as <-. simpl.
    now apply Ordered_drainLoop, Ordered_settle.
  - destruct (drain s) as [| deadline | | deadline]; try discriminate;
      destruct (deadline <=? uptime s); try discriminate;
      injection Hs as <-.
    + now apply Ordered_dispatch.
    + now apply Ordered_drainLoop.
  - injection Hs as <-. constructor; simpl; constructor.
  - injection Hs as <-.
    eapply Ordered_agree; [apply agree_sym, agree_getRateLimitStatus |].
    exact H.
Qed.

Lemma Ordered_run (evs : list Event) (s s' : State) :
  Ordered s -> run s evs = Some s' -> clockNeverStepsBack evs = true ->
  Ordered s'.
Proof.
  revert s. induction evs as [| ev evs IH]; intros s H Hr Hc; simpl in *.
  - now injection Hr as <-.
  - destruct (step s ev) as [s1 |] eqn:Es; [| discriminate].
    apply andb_true_iff in Hc. destruct Hc as (Hb & Hc).
    apply negb_true_iff in Hb.
    apply (IH s1); [| exact Hr | exact Hc].
    eapply Ordered_step; eassumption.
Qed.

End Invariant.

(* ================================================================== *)
(** * First in, first out *)
(* ================================================================== *)

Section FifoOrder.

Import RateLimited.

Lemma Subseq_refl {A : Type} (l : list A) : Subseq l l.
Proof. induction l; [apply Subseq_nil | now apply Subseq_keep]. Qed.

Lemma Subseq_app_r {A : Type} (l l' more : list A) :
  Subseq l l' -> Subseq l (l' ++ more).
Proof.
  induction 1; simpl.
  - induction more; [apply Subseq_nil | now apply Subseq_skip].
  - now apply Subseq_skip.
  - now apply Subseq_keep.
Qed.

Lemma Subseq_snoc {A : Type} (l l' : list A) (x : A) :
  Subseq l l' -> Subseq (l ++ [x]) (l' ++ [x]).
Proof.
  induction 1; simpl.
  - apply Subseq_keep, Subseq_nil.
  - now apply Subseq_skip.
  - now apply Subseq_keep.
Qed.

(** [Fifo] reads the queue, the arrivals and the dequeued requests only. *)
Lemma Fifo_agree (b : bool) (s s' : State) :
  agree s s' -> Fifo b s -> Fifo b s'.
Proof.
  intros (_ & Eq & _ & _ & _ & _ & _ & Ea & Eo) (served & H1 & H2 & H3).
  exists served. unfold queueCallers in *. rewrite <- Eq, <- Ea, <- Eo. auto.
Qed.

Lemma Fifo_setDrain (b f : bool) (d : DrainPoint) (s : State) :
  Fifo b s -> Fifo b (setDrain f d s).
Proof. intros H. exact H. Qed.

Lemma Fifo_settle (b : bool) (c : nat) (o : Settlement) (s : State) :
  Fifo b s -> Fifo b (settle c o s).
Proof.
  intros H. unfold settle. destruct (isSettled c s); exact H.
Qed.

Lemma Fifo_pushed (b : bool) (c : nat) (request : ImageBrandingRequest)
    (s : State) :
  Fifo b s -> Fifo b (pushed c request s).
Proof.
  intros (served & H1 & H2 & H3). exists served.
  unfold pushed, queueCallers in *. simpl. rewrite map_app, H1, app_assoc.
  simpl. auto.
Qed.

Lemma Fifo_dispatched (b : bool) (s : State) :
  Fifo b s -> Fifo b (dispatched s).
Proof.
  intros (served & H1 & H2 & H3). unfold Fifo, dispatched, queueCallers in *.
  destruct (requestQueue s) as [| item rest] eqn:Eq; simpl in *;
    rewrite ?Eq; simpl.
  - exists served. auto.
  - exists (served ++ [caller item]). rewrite <- app_assoc. simpl.
    repeat split; auto.
    + now apply Subseq_snoc.
    + intros Hb. now rewrite H3.
Qed.

Lemma Fifo_drainLoop (b : bool) (s : State) :
  Fifo b s -> Fifo b (drainLoop s).
Proof.
  intros H. destruct (drainLoop_agree s) as [A | (_ & d & A)];
    (eapply Fifo_agree; [apply agree_sym, A |]).
  - now apply Fifo_dispatched.
  - exact H.
Qed.

Lemma Fifo_processQueue (b : bool) (s : State) :
  Fifo b s -> Fifo b (processQueue s).
Proof.
  intros H.
  destruct (processQueue_agree s) as [A | (_ & [A | (_ & d & A)])];
    (eapply Fifo_agree; [apply agree_sym, A |]).
  - exact H.
  - now apply Fifo_dispatched.
  - exact H.
Qed.

(** When no queued request is younger than the current instant, the sort
    of [queueRequest] changes nothing: the new entry stays last. *)
Lemma queueRequest_pushed (c : nat) (request : ImageBrandingRequest)
    (s : State) :
  StronglySorted byTimestamp (requestQueue s) ->
  Forall (fun item => timestamp item <= now s) (requestQueue s) ->
  queueRequest c request s
  = processQueue (logRateLimitStatus (pushed c request s)).
Proof.
  intros H4 H5. unfold queueRequest, pushed.
  rewrite push_sort_appends by (simpl; auto). reflexivity.
Qed.

Lemma Fifo_queueRequest (b : bool) (c : nat)
    (request : ImageBrandingRequest) (s : State) :
  StronglySorted byTimestamp (requestQueue s) ->
  Forall (fun item => timestamp item <= now s) (requestQueue s) ->
  Fifo b s -> Fifo b (queueRequest c request s).
Proof.
  intros H4 H5 H. rewrite queueRequest_pushed by assumption.
  apply Fifo_processQueue.
  eapply Fifo_agree; [apply agree_sym, agree_getRateLimitStatus |].
  now apply Fifo_pushed.
Qed.

Lemma Fifo_step (b : bool) (s s' : State) (ev : Event) :
  Inv s -> Ordered s -> Fifo b s -> step s ev = Some s' ->
  (b = true -> isClearQueue ev = false) ->
  Fifo b s'.
Proof.
  intros Hi Ho H Hs Hc.
  pose proof (ord_sorted _ Ho) as H4. pose proof (ord_past _ Ho) as H5.
  destruct ev as [d | delta | request | c w | w | | |]; simpl in Hs.
  - destruct (0 <=? d); [| discriminate]. injection Hs as <-. exact H.
  - injection Hs as <-. exact H.
  - injection Hs as <-. unfold generateBrandingImage, canMakeRequest.
    destruct (Z.of_nat _ <? maxRequestsPerMinute).
    + exact H.
    + apply Fifo_queueRequest; [exact H4 | exact H5 | exact H].
  - destruct (lookupCaller c (fastPath s)) as [request |]; [| discriminate].
    destruct (downstream_resolves w request) as (r & Er).
    rewrite Er in Hs. simpl in Hs. injection Hs as <-.
    now apply Fifo_settle.
  - destruct (drain s) as [| | queueItem |]; try discriminate.
    destruct (downstream_resolves w (requestData queueItem)) as (r & Er).
    rewrite Er in Hs. injection Hs as <-. simpl.
    now apply Fifo_drainLoop, Fifo_settle.
  - destruct (drain s) as [| deadline | | deadline]; try discriminate;
      destruct (deadline <=? uptime s); try discriminate;
      injection Hs as <-.
    + eapply Fifo_agree; [apply agree_sym, dispatch_agree |].
      now apply Fifo_dispatched.
    + now apply Fifo_drainLoop.
  - injection Hs as <-. rewrite clearQueue_effect by assumption.
    destruct b; [specialize (Hc eq_refl); discriminate |].
    destruct H as (served & H1 & H2 & H3).
    exists (served ++ queueCallers s). unfold queueCallers in *. simpl.
    rewrite app_nil_r. repeat split; auto.
    + now apply Subseq_app_r.
    + discriminate.
  - injection Hs as <-.
    eapply Fifo_agree; [apply agree_sym, agree_getRateLimitStatus | exact H].
Qed.

Lemma Fifo_run (b : bool) (evs : list Event) (s s' : State) :
  Inv s -> Ordered s -> Fifo b s -> run s evs = Some s' ->
  forallb (fifoEvent b) evs = true -> Fifo b s'.
Proof.
  revert s. induction evs as [| ev evs IH]; intros s Hi Ho H Hr Hev;
    simpl in Hr, Hev.
  - now injection Hr as <-.
  - destruct (step s ev) as [s1 |] eqn:Es; [| discriminate].
    apply andb_true_iff in Hev. destruct Hev as (Hev & Hrest).
    unfold fifoEvent, noClearQueue in Hev.
    apply andb_true_iff in Hev.
    destruct Hev as (Hb & Hc). apply negb_true_iff in Hb.
    apply (IH s1); auto.
    + eapply Inv_step; eassumption.
    + eapply Ordered_step; eassumption.
    + eapply Fifo_step; try eassumption.
      intros ->. now destruct (isClearQueue ev).
Qed.

Lemma Subseq_trans {A : Type} (l1 l2 l3 : list A) :
  Subseq l1 l2 -> Subseq l2 l3 -> Subseq l1 l3.
Proof.
  intros H12 H23. revert l1 H12.
  induction H23 as [| x l2 l3 H IH | x l2 l3 H IH]; intros l1 H12.
  - exact H12.
  - apply Subseq_skip. now apply IH.
  - inversion H12; subst.
    + apply Subseq_skip. now apply IH.
    + apply Subseq_keep. now apply IH.
Qed.

Lemma Subseq_In {A : Type} (l l' : list A) (x : A) :
  Subseq l l' -> In x l -> In x l'.
Proof.
  induction 1; simpl; intuition.
Qed.

Lemma Subseq_NoDup {A : Type} (l l' : list A) :
  Subseq l l' -> NoDup l' -> NoDup l.
Proof.
  induction 1; intros Hnd.
  - constructor.
  - inversion Hnd; auto.
  - inversion Hnd; subst. constructor; auto.
    intros F. eapply Subseq_In in F; eauto.
Qed.

Lemma Subseq_nil_l {A : Type} (l : list A) : Subseq [] l.
Proof. induction l; [apply Subseq_nil | now apply Subseq_skip]. Qed.

Lemma Subseq_singleton {A : Type} (l : list A) (x : A) :
  In x l -> Subseq [x] l.
Proof.
  induction l as [| y l IH]; simpl; [tauto |].
  intros [-> | H].
  - apply Subseq_keep, Subseq_nil_l.
  - apply Subseq_skip. auto.
Qed.

(** Two distinct members of a list occur in one order or the other. *)
Lemma before_total {A : Type} (l : list A) (a b : A) :
  In a l -> In b l -> a <> b -> before a b l \/ before b a l.
Proof.
  unfold before. induction l as [| x l IH]; simpl; [tauto |].
  intros [-> | Ha] [-> | Hb] Hne.
  - congruence.
  - left. apply Subseq_keep. now apply Subseq_singleton.
  - right. apply Subseq_keep. now apply Subseq_singleton.
  - destruct (IH Ha Hb Hne); [left | right]; now apply Subseq_skip.
Qed.

(** In a list without repetitions the order of two members is unique. *)
Lemma before_asym {A : Type} (l : list A) (a b : A) :
  NoDup l -> before a b l -> before b a l -> False.
Proof.
  unfold before. induction l as [| x l IH]; intros Hnd Hab Hba.
  - inversion Hab.
  - inversion Hnd as [| ? ? Hx Hnd']; subst.
    inversion Hab; subst; inversion Hba; subst; auto;
      match goal with
      | H : Subseq _ l |- _ =>
          apply Hx; apply (Subseq_In _ _ _ H); simpl; tauto
      end.
Qed.

(** First in, first out, as long as the wall clock is not set back: along
    any such execution the arrivals are the requests that have left the
    queue followed by the queue, both in arrival order, and the dequeued
    requests are among the former in that order (they are exactly the
    former when the queue has not been cleared); so of two requests that
    have both been dequeued, the one that arrived first was dequeued first.
    Requests that arrive at the same instant are covered: the executions
    may submit any number of requests without the clock advancing. *)
Theorem fifo_under_steady_clock (start : Z) (evs : list Event) (s : State) :
  run (init start) evs = Some s ->
  clockNeverStepsBack evs = true ->
  (exists served,
      arrivals (history s) = served ++ queueCallers s /\
      Subseq (dequeued (history s)) served /\
      (forallb noClearQueue evs = true -> served = dequeued (history s)))
  /\
  (forall a b,
      before a b (arrivals (history s)) ->
      In a (dequeued (history s)) -> In b (dequeued (history s)) ->
      before a b (dequeued (history s))).
Proof.
  intros Hr Hev. unfold clockNeverStepsBack in Hev.
  pose proof (Inv_reachable _ _ _ Hr) as Hi.
  assert (Fifo false (init start)) as H0.
  { exists []. split; [reflexivity | split; [apply Subseq_nil | discriminate]]. }
  assert (Fifo false s) as (served & H1 & H2 & _).
  { apply (Fifo_run false evs (init start) s (Inv_init start)
             (Ordered_init start) H0 Hr).
    rewrite forallb_forall in *. intros ev Hin.
    unfold fifoEvent. simpl. now rewrite (Hev ev Hin). }
  assert (NoDup (arrivals (history s))) as Hnd.
  { eapply NoDup_app_remove_l. apply (inv_arrivals _ Hi). }
  assert (Subseq (dequeued (history s)) (arrivals (history s))) as Hsub.
  { rewrite H1. now apply Subseq_app_r. }
  split.
  - exists served. repeat split; auto.
    intros Hc.
    assert (Fifo true (init start)) as H0'.
    { exists []. split; [reflexivity | split; [apply Subseq_nil | reflexivity]]. }
    assert (Fifo true s) as (served' & H1' & _ & H3').
    { apply (Fifo_run true evs (init start) s (Inv_init start)
               (Ordered_init start) H0' Hr).
      rewrite forallb_forall in *. intros ev Hin.
      unfold fifoEvent. now rewrite (Hev ev Hin), (Hc ev Hin). }
    rewrite H1 in H1'. apply app_inv_tail in H1'. subst served'. auto.
  - intros a b Hab Ha Hb.
    assert (a <> b) as Hne.
    { intros ->. unfold before in Hab.
      assert (NoDup [b; b]) as F by (eapply Subseq_NoDup; eassumption).
      inversion F; subst. simpl in *. tauto. }
    destruct (before_total _ _ _ Ha Hb Hne) as [H | H]; [exact H |].
    exfalso. apply (before_asym (arrivals (history s)) a b Hnd Hab).
    unfold before in *. eapply Subseq_trans; eassumption.
Qed.

End FifoOrder.

(* ================================================================== *)
(** * Cancelling the queue *)
(* ================================================================== *)

Section Settlements.

Import RateLimited.

(** C9. Clearing the queue: in every reachable state, [clearQueue] leaves
    the queue empty and rejects the promise of every request that was in
    it with the cancellation error; each of these promises was pending, so
    the rejection is its settlement.  The drain loop's position and the
    fast-path calls are as before, and no caller whose downstream call is
    in flight is settled by it. *)
Theorem clear_queue_rejects_pending (start : Z) (evs : list Event)
    (s : State) :
  run (init start) evs = Some s ->
  step s ClearQueue = Some (clearQueue s) /\
  requestQueue (clearQueue s) = [] /\
  settled (history (clearQueue s))
    = settled (history s) ++ rejections (requestQueue s) /\
  (forall item, In item (requestQueue s) ->
     isSettled (caller item) s = false /\
     In (caller item, Rejected cancelled)
        (settled (history (clearQueue s)))) /\
  drain (clearQueue s) = drain s /\
  fastPath (clearQueue s) = fastPath s /\
  requestTimestamps (clearQueue s) = requestTimestamps s /\
  (forall c, In c (map fst (fastPath s) ++ drainCaller (drain s)) ->
     isSettled c (clearQueue s) = false).
Proof.
  intros Hr. pose proof (Inv_reachable _ _ _ Hr) as Hi.
  pose proof (inv_nodup _ Hi) as Hnd.
  split; [reflexivity |].
  rewrite (clearQueue_effect s Hi). simpl.
  repeat match goal with |- _ /\ _ => split end; try reflexivity.
  - intros item Hin. split.
    + apply isSettled_false.
      apply (count_occ_not_In Nat.eq_dec).
      assert (In (caller item) (queueCallers s)) as Hq
        by (unfold queueCallers; now apply in_map).
      apply (count_occ_In Nat.eq_dec) in Hq.
      pose proof (proj1 (NoDup_count_occ Nat.eq_dec _) Hnd (caller item)) as H.
      unfold pendingCallers in H. rewrite !count_occ_app in H. lia.
    + apply in_or_app. right. unfold rejections.
      apply (in_map (fun i => (caller i, Rejected cancelled))). exact Hin.
  - intros c Hin. apply isSettled_false.
    unfold settledCallers. simpl. unfold rejections.
    rewrite map_app, map_map. simpl.
    apply (count_occ_not_In Nat.eq_dec).
    apply (count_occ_In Nat.eq_dec) in Hin.
    pose proof (proj1 (NoDup_count_occ Nat.eq_dec _) Hnd c) as H.
    unfold pendingCallers, queueCallers, settledCallers in H.
    rewrite !count_occ_app in *.
    change (fun x : QueuedRequest => caller x) with caller. lia.
Qed.

End Settlements.


(* ================================================================== *)
(** * The sliding window *)
(* ================================================================== *)

Section Window.

Import RateLimited.

Lemma filter_length_le {A : Type} (f g : A -> bool) (l : list A) :
  (forall x, f x = true -> g x = true) ->
  (List.length (filter f l) <= List.length (filter g l))%nat.
Proof.
  intros H. induction l as [| x l IH]; simpl; [lia |].
  destruct (f x) eqn:Ef.
  - rewrite (H x Ef). simpl. lia.
  - destruct (g x); simpl; lia.
Qed.

Lemma filter_removelast_le {A : Type} (f : A -> bool) (l : list A) :
  (List.length (filter f (removelast l)) <= List.length (filter f l))%nat.
Proof.
  induction l as [| x l IH]; simpl; [lia |].
  destruct l as [| y l']; simpl in *.
  - destruct (f x); simpl; lia.
  - destruct (f x); simpl; lia.
Qed.

Lemma filter_idem {A : Type} (f : A -> bool) (l : list A) :
  filter f (filter f l) = filter f l.
Proof.
  induction l as [| x l IH]; simpl; [reflexivity |].
  destruct (f x) eqn:E; simpl; rewrite ?E, IH; reflexivity.
Qed.

(** The entries that [cleanOldTimestamps] keeps are the live ones. *)
Lemma clean_keeps_live (s : State) :
  requestTimestamps (cleanOldTimestamps s) = liveTimestamps s.
Proof.
  unfold cleanOldTimestamps, liveTimestamps. simpl.
  apply filter_ext. intros t. unfold requestWindow.
  destruct (now s - t <? 60 * 1000) eqn:E1;
    destruct (now s - 60 * 1000 <? t) eqn:E2; lia.
Qed.

Lemma live_clean (s : State) :
  liveTimestamps (cleanOldTimestamps s) = liveTimestamps s.
Proof.
  unfold liveTimestamps at 1. rewrite clean_keeps_live.
  unfold liveTimestamps. simpl. apply filter_idem.
Qed.

(** The live admissions are among the recorded ones. *)
Lemma live_within_recorded (s : State) :
  withinCapacity s -> withinLimit s.
Proof.
  unfold withinCapacity, withinLimit, liveTimestamps. intros H.
  pose proof (filter_length_le (fun t => now s - requestWindow <? t)
                (fun _ => true) (requestTimestamps s) (fun _ _ => eq_refl))
    as Hle.
  assert (filter (fun _ : Z => true) (requestTimestamps s)
          = requestTimestamps s) as E
    by (generalize (requestTimestamps s); intros l;
        induction l; simpl; congruence).
  rewrite E in Hle. lia.
Qed.

Lemma withinCapacity_same (s s' : State) :
  requestTimestamps s = requestTimestamps s' ->
  withinCapacity s -> withinCapacity s'.
Proof. unfold withinCapacity. now intros ->. Qed.

Lemma filter_shrinks {A : Type} (f : A -> bool) (l : list A) :
  (List.length (filter f l) <= List.length l)%nat.
Proof.
  induction l as [| x l IH]; simpl; [lia |]. destruct (f x); simpl; lia.
Qed.

Lemma withinCapacity_clean (s : State) :
  withinCapacity s -> withinCapacity (cleanOldTimestamps s).
Proof.
  unfold withinCapacity. simpl. intros H.
  pose proof (filter_shrinks (fun t => now s - t <? requestWindow)
                (requestTimestamps s)).
  lia.
Qed.

Lemma withinCapacity_getRateLimitStatus (s : State) :
  withinCapacity s -> withinCapacity (getRateLimitStatus s).
Proof.
  intros H. unfold getRateLimitStatus.
  rewrite getNextAvailableTime_state, canMakeRequest_state.
  now repeat apply withinCapacity_clean.
Qed.

Lemma withinCapacity_pop (s : State) :
  withinCapacity s -> withinCapacity (popTimestamp s).
Proof.
  unfold withinCapacity. simpl. intros H.
  assert (List.length (removelast (requestTimestamps s))
          <= List.length (requestTimestamps s))%nat.
  { generalize (requestTimestamps s). intros l.
    induction l as [| x l IH]; simpl; [lia |].
    destruct l; simpl in *; lia. }
  lia.
Qed.

Lemma withinCapacity_settle (c : nat) (o : Settlement) (s : State) :
  withinCapacity s -> withinCapacity (settle c o s).
Proof. intros H. unfold settle. destruct (isSettled c s); exact H. Qed.

(** An admission recorded while fewer than five are recorded keeps the
    bound. *)
Lemma withinCapacity_admit (s : State) :
  Z.of_nat (List.length (requestTimestamps s)) < maxRequestsPerMinute ->
  withinCapacity (addRequestTimestamp s).
Proof.
  unfold withinCapacity. simpl. intros H. rewrite length_app. simpl. lia.
Qed.

(** When [getNextAvailableTime] asks for no wait, a slot is free. *)
Lemma getNextAvailableTime_free (s : State) :
  (fst (getNextAvailableTime s) >? 0) = false ->
  Z.of_nat (List.length (liveTimestamps s)) < maxRequestsPerMinute.
Proof.
  unfold getNextAvailableTime. rewrite clean_keeps_live.
  destruct (Z.of_nat (List.length (liveTimestamps s))
            <? maxRequestsPerMinute) eqn:E; [lia |].
  simpl. intros Hw. exfalso.
  destruct (liveTimestamps s) as [| t l] eqn:El;
    [unfold maxRequestsPerMinute in E; simpl in E; lia |].
  assert (In t (liveTimestamps s)) as Hin by (rewrite El; now left).
  unfold liveTimestamps in Hin. apply filter_In in Hin.
  destruct Hin as (_ & Ht). simpl in Hw. unfold requestWindow in *. lia.
Qed.

Lemma withinCapacity_dispatch (s : State) :
  Z.of_nat (List.length (requestTimestamps s)) < maxRequestsPerMinute ->
  withinCapacity (dispatch s).
Proof.
  intros H. unfold dispatch.
  destruct (requestQueue s) as [| queueItem rest].
  - unfold withinCapacity in *. simpl. lia.
  - apply (withinCapacity_same
             (logRateLimitStatus (addRequestTimestamp (setQueue rest s))));
      [reflexivity |].
    apply withinCapacity_getRateLimitStatus.
    apply (withinCapacity_admit (setQueue rest s)). exact H.
Qed.

Lemma withinCapacity_drainLoop (s : State) :
  withinCapacity s -> withinCapacity (drainLoop s).
Proof.
  intros H. unfold drainLoop.
  destruct (requestQueue s) as [| queueItem rest] eqn:Eq; [exact H |].
  pose proof (getNextAvailableTime_state s) as Es.
  pose proof (getNextAvailableTime_free s) as Hfree.
  destruct (getNextAvailableTime s) as [w s1]. simpl in *. subst s1.
  destruct (w >? 0).
  - apply (withinCapacity_same (cleanOldTimestamps s)); [reflexivity |].
    now apply withinCapacity_clean.
  - apply withinCapacity_dispatch. rewrite clean_keeps_live.
    now apply Hfree.
Qed.

Lemma withinCapacity_processQueue (s : State) :
  withinCapacity s -> withinCapacity (processQueue s).
Proof.
  intros H. unfold processQueue.
  destruct (isProcessingQueue s || _); [exact H |].
  now apply (withinCapacity_drainLoop (setDrain true (drain s) s)).
Qed.

Lemma withinCapacity_queueRequest (c : nat) (request : ImageBrandingRequest)
    (s : State) :
  withinCapacity s -> withinCapacity (queueRequest c request s).
Proof.
  intros H. unfold queueRequest.
  apply withinCapacity_processQueue. unfold logRateLimitStatus.
  apply withinCapacity_getRateLimitStatus. exact H.
Qed.

Lemma withinCapacity_generateBrandingImage
    (request : ImageBrandingRequest) (s : State) :
  withinCapacity s -> withinCapacity (generateBrandingImage request s).
Proof.
  intros H. unfold generateBrandingImage, canMakeRequest.
  set (s0 := setNextCaller (S (nextCaller s)) s).
  destruct (Z.of_nat (List.length (requestTimestamps (cleanOldTimestamps s0)))
            <? maxRequestsPerMinute) eqn:E.
  - apply (withinCapacity_same
             (addRequestTimestamp (cleanOldTimestamps s0)));
      [reflexivity |].
    apply withinCapacity_admit. lia.
  - apply withinCapacity_queueRequest. now apply (withinCapacity_clean s0).
Qed.

Lemma rejectAll_window (q : list QueuedRequest) (s : State) :
  sameWindow s
    (fold_left (fun acc item => settle (caller item) (Rejected cancelled) acc)
               q s).
Proof.
  revert s. induction q as [| item q IH]; intros s; simpl.
  - split; reflexivity.
  - destruct (IH (settle (caller item) (Rejected cancelled) s)) as (En & Et).
    split; [rewrite <- En | rewrite <- Et]; unfold settle;
      destruct (isSettled _ s); reflexivity.
Qed.

(** Every step of the service keeps the number of recorded admissions
    within the limit, whatever the clocks do, except the wake-up of the
    drain loop from its wait for a slot: there the admission is recorded on
    the strength of a look at the window that was taken before the wait. *)
Lemma withinCapacity_step (s s' : State) (ev : Event) :
  withinCapacity s -> step s ev = Some s' -> wakesForSlot s ev = false ->
  withinCapacity s'.
Proof.
  intros H Hs Hw.
  destruct ev as [d | delta | request | c w | w | | |]; simpl in Hs.
  - destruct (0 <=? d) eqn:Ed; [| discriminate]. injection Hs as <-.
    exact H.
  - injection Hs as <-. exact H.
  - injection Hs as <-. now apply withinCapacity_generateBrandingImage.
  - destruct (lookupCaller c (fastPath s)) as [request |]; [| discriminate].
    destruct (downstream_resolves w request) as (r & Er).
    rewrite Er in Hs. simpl in Hs. injection Hs as <-.
    now apply withinCapacity_settle.
  - destruct (drain s) as [| | queueItem |]; try discriminate.
    destruct (downstream_resolves w (requestData queueItem)) as (r & Er).
    rewrite Er in Hs. injection Hs as <-. simpl.
    now apply withinCapacity_drainLoop, withinCapacity_settle.
  - unfold wakesForSlot in Hw.
    destruct (drain s) as [| deadline | | deadline]; try discriminate.
    destruct (deadline <=? uptime s); [| discriminate]. injection Hs as <-.
    now apply withinCapacity_drainLoop.
  - injection Hs as <-. unfold clearQueue.
    destruct (rejectAll_window (requestQueue s) s) as (En & Et).
    apply (withinCapacity_same s); [| exact H]. simpl. exact Et.
  - injection Hs as <-. now apply withinCapacity_getRateLimitStatus.
Qed.

(** A rate-limited failure that follows the drain loop's admission with
    nothing in between takes that admission back: the recorded timestamps
    are again the live ones of before. *)
Lemma requeue_restores_window (s : State) (queueItem : QueuedRequest)
    (rest : list QueuedRequest) (e : Js.Error) :
  requestQueue s = queueItem :: rest ->
  isRateLimitError e = true ->
  requestTimestamps (resumeDrain queueItem (Rejected e) (dispatch s))
  = liveTimestamps s.
Proof.
  intros Hq He. unfold resumeDrain. rewrite He.
  assert (requestTimestamps (popTimestamp (dispatch s)) = liveTimestamps s)
    as Hpop.
  { unfold dispatch. rewrite Hq. unfold logRateLimitStatus, getRateLimitStatus.
    rewrite getNextAvailableTime_state, canMakeRequest_state. simpl.
    rewrite !filter_idem, filter_app. simpl.
    assert ((now s - now s <? requestWindow) = true) as ->
      by (unfold requestWindow; lia).
    rewrite removelast_last.
    change (filter (fun t => now s - t <? requestWindow) (requestTimestamps s))
      with (requestTimestamps (cleanOldTimestamps s)).
    apply clean_keeps_live. }
  set (s2 := setQueue (queueItem :: requestQueue (popTimestamp (dispatch s)))
                      (popTimestamp (dispatch s))).
  assert (requestTimestamps s2 = liveTimestamps s) as H2 by exact Hpop.
  assert (now s2 = now s) as Hn.
  { unfold s2, dispatch. rewrite Hq. simpl. unfold logRateLimitStatus.
    destruct (agree_getRateLimitStatus
                (addRequestTimestamp (setQueue rest s))) as (En & _).
    exact En. }
  assert (requestTimestamps (snd (getRetryAfterTime e s2)) = liveTimestamps s)
    as H3.
  { unfold getRetryAfterTime. destruct (matchRetryAfter _); [exact H2 |].
    pose proof (getNextAvailableTime_state s2) as Es.
    destruct (getNextAvailableTime s2) as [w s3]. cbn [snd] in *. subst s3.
    rewrite clean_keeps_live. unfold liveTimestamps at 1. rewrite H2, Hn.
    unfold liveTimestamps. apply filter_idem. }
  destruct (getRetryAfterTime e s2) as [retryWait s3]. exact H3.
Qed.

End Window.

(* ================================================================== *)
(** * The downstream settles by resolving *)
(* ================================================================== *)

Section Downstream.

Import GeminiGen.

Variable w : World.
Variable request : ImageBrandingRequest.

Lemma generateBrandingImage_resolves :
  exists response,
    generateBrandingImage w request = Resolved response /\
    forall e, generateBrandingImageBody w request = inl e ->
              response = failure (Js.messageOr "Unknown error occurred" e).
Proof.
  unfold generateBrandingImage.
  destruct (generateBrandingImageBody w request) as [e | response].
  - eexists. split; [reflexivity |]. intros e' E. now injection E as <-.
  - eexists. split; [reflexivity |]. intros e' E. discriminate.
Qed.

(** C10. The promise of the downstream [generateBrandingImage] always
    resolves: an error thrown inside its [try] block comes back as the
    response [{ success: false, error: <message> }] - so for a missing API
    key, an unknown product, a failure of the provider's task creation and
    a poll timeout - and therefore the rate limiter, on the fast path as in
    the drain loop, takes the success branch and never the [catch] branch
    that classifies rate-limit errors. *)
Theorem downstream_never_rejects :
  exists response,
    generateBrandingImage w request = Resolved response /\
    (forall e, generateBrandingImageBody w request = inl e ->
       response = failure (Js.messageOr "Unknown error occurred" e)) /\
    (apiKey w = "" ->
       response = failure "GeminiGen API key not configured") /\
    (apiKey w <> "" -> productLookup w = inr None ->
       response = failure (Js.template ["Product "; Js.quote;
                                        productName request; Js.quote;
                                        " not found"])) /\
    (forall productData prompt e,
       apiKey w <> "" -> productLookup w = inr (Some productData) ->
       builtPrompt w = inr prompt ->
       firstPost w = PostThrew e -> Js.isAxiosError e = true ->
       isStatus 500 e = false ->
       response = failure (Js.template ["GeminiGen API failed: ";
                                        apiErrorMessage e])) /\
    (forall productData prompt taskId,
       apiKey w <> "" -> productLookup w = inr (Some productData) ->
       builtPrompt w = inr prompt ->
       firstPost w = PostResponded (Some taskId) -> taskId <> "" ->
       (forall k, exists task, provider w k = Responded task /\
                               (stillPending task \/ unknownStatus task)) ->
       exists inner,
         response = failure (String.append
                               "Polling failed after 4 attempts (93s total): "
                               inner)) /\
    (forall c r s,
       RateLimited.resumeFastPath c r (generateBrandingImage w request) s
       = Some (RateLimited.settle c (Resolved response) s)) /\
    (forall queueItem s,
       RateLimited.resumeDrain queueItem (generateBrandingImage w request) s
       = RateLimited.drainLoop
           (RateLimited.settle (RateLimited.caller queueItem)
                               (Resolved response) s)).
Proof.
  destruct generateBrandingImage_resolves as (response & E & Hbody).
  exists response. split; [exact E |]. split; [exact Hbody |].
  assert (forall k, k <> "" -> Js.nonEmpty k = true) as Hne.
  { intros k Hk. unfold Js.nonEmpty.
    destruct (String.eqb k "") eqn:Ek; [| reflexivity].
    apply String.eqb_eq in Ek. contradiction. }
  repeat split.
  - intros Hk.
    apply (Hbody (Js.newError "GeminiGen API key not configured")).
    unfold generateBrandingImageBody. rewrite Hk. reflexivity.
  - intros Hk Hp.
    apply (Hbody (Js.newError (Js.template ["Product "; Js.quote;
                                            productName request; Js.quote;
                                            " not found"]))).
    unfold generateBrandingImageBody. rewrite (Hne _ Hk), Hp. reflexivity.
  - intros productData prompt e Hk Hp Hb Hpost Hax H500.
    rewrite (Hbody (Js.newError (Js.template ["GeminiGen API failed: ";
                                              apiErrorMessage e]))).
    + reflexivity.
    + unfold generateBrandingImageBody. rewrite (Hne _ Hk), Hp, Hb.
      unfold generateImage, generateImageBody, createTask.
      rewrite Hpost, Hax, H500. simpl. rewrite Hax. reflexivity.
  - intros productData prompt taskId Hk Hp Hb Hpost Ht Hprov.
    destruct (pollTaskCompletion_exhausted (provider w) Hprov)
      as (inner & Hrun).
    exists inner.
    rewrite (Hbody (Js.newError
                      (String.append
                         "Polling failed after 4 attempts (93s total): "
                         inner))).
    + reflexivity.
    + unfold generateBrandingImageBody. rewrite (Hne _ Hk), Hp, Hb.
      unfold generateImage, generateImageBody, createTask.
      rewrite Hpost, (Hne _ Ht), Hrun. reflexivity.
  - intros c r s. rewrite E. reflexivity.
  - intros queueItem s. rewrite E. reflexivity.
Qed.

End Downstream.

(* ================================================================== *)
(** * Executions in which the limiter departs from its contract *)
(* ================================================================== *)

Section Departures.

Import RateLimited Scenarios.

(** C1. The window is overshot in the execution [overshoot]: the drain loop
    computes its wait, suspends, and on waking records its admission
    without looking at the window again, although a fast-path admission
    has taken the slot in between.  At 60000 ms six admissions are recorded
    that are newer than 0 ms, and six downstream invocations were started
    in that window. *)
Theorem window_overshoot :
  exists s,
    run (init 0) overshoot = Some s /\
    now s = 60000 /\
    liveTimestamps s = [1000; 1000; 1000; 1000; 60000; 60000] /\
    startedInWindow s
    = [(1000, 1%nat); (1000, 2%nat); (1000, 3%nat); (1000, 4%nat);
       (60000, 6%nat); (60000, 5%nat)] /\
    Z.of_nat (List.length (liveTimestamps s)) > maxRequestsPerMinute.
Proof.
  eexists. split; [vm_compute; reflexivity |].
  vm_compute. repeat split; reflexivity.
Qed.

(** C8. A failure that the provider marks as a rate limit reaches the
    caller at once, whatever the hint.  The provider answers the creation
    of the task with 429 and any value [hint] as retry-after, an error
    that the limiter's classifier recognises and whose hint
    [extractRetryAfter] reads (10 and 301 are shown).  [generateImage]
    throws a new error in its place, which the classifier still
    recognises but which carries no hint; [generateBrandingImage] of the
    image service catches that and returns the response [{ success:
    false, error: ... }].  The limiter never sees a rejection: the caller's
    promise is resolved with that response 200 ms after the request, the
    request is not queued, and nothing is rejected. *)
Theorem rate_limited_failure_is_surfaced (hint : Js.Value) :
  isRateLimitError (status429 hint) = true /\
  extractRetryAfter (status429 (Js.number 10)) = Some 10 /\
  extractRetryAfter (status429 (Js.number 301)) = Some 301 /\
  GeminiGen.generateImage (answers429 hint) = inl rethrown /\
  isRateLimitError rethrown = true /\
  extractRetryAfter rethrown = Some 0 /\
  exists s,
    run (init 0) (refusedOnFastPath hint) = Some s /\
    now s = 200 /\
    settled (history s) = [(0%nat, Resolved refusal)] /\
    (forall e, ~ In (0%nat, Rejected e) (settled (history s))) /\
    pendingCallers s = [] /\
    arrivals (history s) = [] /\
    drain s = NotRunning.
Proof.
  split; [reflexivity |]. split; [reflexivity |]. split; [reflexivity |].
  split; [reflexivity |]. split; [reflexivity |]. split; [reflexivity |].
  eexists. split; [vm_compute; reflexivity |].
  repeat split; try reflexivity.
  intros e [F | []]. discriminate.
Qed.

(** C5. The admission of a call that the provider refuses with 429 stays
    recorded.  In [oneWaiting] the window is full at 0 ms and request 5
    waits; at 60000 ms no admission is live.  The drain loop then admits
    request 5, and 200 ms later the provider answers the call with 429.
    The limiter's [catch] block does not run: the admission of 60000 ms is
    still in the window, the request is not put back in the queue, the
    loop does not wait for the retry-after delay but ends, and the caller
    is told of the failure. *)
Theorem refused_admission_stays_recorded (hint : Js.Value) :
  exists before s0 s1,
    run (init 0) oneWaiting = Some before /\
    liveTimestamps before = [] /\
    run before admitted = Some s0 /\
    drain s0 = AwaitingDownstream (entry 1000 5) /\
    liveTimestamps s0 = [60000] /\
    isRateLimitError (status429 hint) = true /\
    step s0 (DrainCallSettles (answers429 hint)) = Some s1 /\
    liveTimestamps s1 = [60000] /\
    requestTimestamps s1 = [60000] /\
    requestQueue s1 = [] /\
    drain s1 = NotRunning /\
    settled (history s1) = [(5%nat, Resolved refusal)].
Proof.
  eexists. eexists. eexists. split; [vm_compute; reflexivity |].
  split; [reflexivity |]. split; [vm_compute; reflexivity |].
  split; [reflexivity |]. split; [reflexivity |].
  split; [reflexivity |]. split; [vm_compute; reflexivity |].
  repeat split; reflexivity.
Qed.

(** C2. A request that the provider refuses with 429 is not retried, and
    the request behind it is served.  In [anotherWaiting] requests 5 and 6
    wait behind a full window; the drain loop admits request 5, and the
    provider answers its call with 429 while request 6 is in the queue.
    Request 5 is then answered with the failure and waits nowhere: it is
    not in the queue, and the only start of its call is the one of
    60000 ms.  Request 6 is dequeued and its call started at once. *)
Theorem refused_request_is_not_retried (hint : Js.Value) :
  exists s0 s1,
    run (init 0) (anotherWaiting ++ admitted) = Some s0 /\
    drain s0 = AwaitingDownstream (entry 1000 5) /\
    queueCallers s0 = [6%nat] /\
    isRateLimitError (status429 hint) = true /\
    step s0 (DrainCallSettles (answers429 hint)) = Some s1 /\
    settled (history s1) = [(5%nat, Resolved refusal)] /\
    ~ In 5%nat (pendingCallers s1) /\
    dequeued (history s1) = [5%nat; 6%nat] /\
    drain s1 = AwaitingDownstream (entry 1000 6) /\
    filter (fun start => Nat.eqb (snd start) 5) (started (history s1))
    = [(60000, 5%nat)] /\
    In (60200, 6%nat) (started (history s1)).
Proof.
  eexists. eexists. split; [vm_compute; reflexivity |].
  split; [reflexivity |]. split; [reflexivity |].
  split; [reflexivity |]. split; [vm_compute; reflexivity |].
  split; [reflexivity |].
  split; [vm_compute; intuition discriminate |].
  split; [reflexivity |]. split; [reflexivity |].
  split; [reflexivity |]. vm_compute. tauto.
Qed.

(** C7. A wall clock that is set back puts a later arrival in front.  In
    [clockSetBack] request 5 is queued at 1100 ms behind a full window; the
    clock is set back by half a second and request 6 is queued with the
    timestamp 600 ms.  The sort by timestamp puts request 6 in front of
    request 5, and when the timer fires the drain loop admits request 6
    while request 5, which arrived first, is still waiting. *)
Theorem clock_set_back_reorders_queue :
  exists s,
    run (init 0) clockSetBack = Some s /\
    clockNeverStepsBack clockSetBack = false /\
    arrivals (history s) = [5%nat; 6%nat] /\
    dequeued (history s) = [6%nat] /\
    drain s = AwaitingDownstream (entry 600 6) /\
    requestQueue s = [entry 1100 5].
Proof.
  eexists. split; [vm_compute; reflexivity |].
  repeat split; reflexivity.
Qed.

End Departures.

(* ================================================================== *)
(** * The theorems at concrete executions *)
(* ================================================================== *)

Section Instances.

Import GeminiGen RateLimited Scenarios.

Lemma poll_schedule_adherence_witness :
  pollTaskCompletion (doneOnFourth imageLocator)
  = ({| totalTime := 93000; events := fullSchedule |},
     inr {| imageUrl := Some imageLocator |})
  /\ queryCount (fst (pollTaskCompletion (doneOnFourth imageLocator)))
     = 4%nat.
Proof.
  apply (poll_schedule_adherence (doneOnFourth imageLocator)
           pendingTask pendingTask pendingTask (doneTask imageLocator)
           (Some imageLocator)).
  - reflexivity.
  - left. reflexivity.
  - reflexivity.
  - left. reflexivity.
  - reflexivity.
  - left. reflexivity.
  - reflexivity.
  - split; [reflexivity |]. eexists. eexists. split; reflexivity.
Defined.



Lemma fifo_under_steady_clock_witness :
  dequeued (history afterThreeQueued) = [5%nat; 6%nat; 7%nat] /\
  before 5%nat 6%nat (dequeued (history afterThreeQueued)) /\
  before 6%nat 7%nat (dequeued (history afterThreeQueued)).
Proof.
  destruct (fifo_under_steady_clock 0 threeQueued afterThreeQueued)
    as [_ H].
  - vm_compute. reflexivity.
  - reflexivity.
  - split; [reflexivity |]. split; apply H.
    + apply Subseq_keep, Subseq_keep, Subseq_skip, Subseq_nil.
    + simpl. tauto.
    + simpl. tauto.
    + apply Subseq_skip, Subseq_keep, Subseq_keep, Subseq_nil.
    + simpl. tauto.
    + simpl. tauto.
Defined.

Lemma clear_queue_rejects_pending_witness :
  requestQueue (clearQueue afterTwoWaiting) = [] /\
  settled (history (clearQueue afterTwoWaiting))
  = [(5%nat, Rejected cancelled); (6%nat, Rejected cancelled)].
Proof.
  destruct (clear_queue_rejects_pending 0 twoWaiting afterTwoWaiting)
    as (_ & Hq & Hs & _).
  - vm_compute. reflexivity.
  - split; [exact Hq | exact Hs].
Defined.

Lemma downstream_never_rejects_witness :
  exists inner,
    GeminiGen.generateBrandingImage stuckWorld request
    = Resolved (failure (String.append
                           "Polling failed after 4 attempts (93s total): "
                           inner)).
Proof.
  destruct (downstream_never_rejects stuckWorld request)
    as (response & E & _ & _ & _ & _ & Htimeout & _).
  destruct (Htimeout product "A pack of Good Day biscuits" "task-1")
    as (inner & Hr).
  - discriminate.
  - reflexivity.
  - reflexivity.
  - reflexivity.
  - discriminate.
  - intros k. exists pendingTask. split; [reflexivity |].
    left. left. reflexivity.
  - exists inner. rewrite E, Hr. reflexivity.
Defined.

End Instances.

(* ================================================================== *)
(** * The outcomes of a polling run *)
(* ================================================================== *)

Section PollerOutcomes.

Import GeminiGen.

Variable provider : Provider.

Let run := pollTaskCompletion provider.

Ltac query_index :=
  match goal with
  | |- ~ endsPolling (provider ?n) =>
      let m := eval vm_compute in n in
      change (~ endsPolling (provider m))
  end.

Lemma endsPolling_dec (q : QueryResult) : endsPolling q \/ ~ endsPolling q.
Proof.
  destruct q as [task | e].
  - destruct (Z.eq_dec (status task) 2) as [Hs | Hs].
    + destruct (generated_image task) as [[| img more] |] eqn:Hg.
      * right. intros (t & u & E & _ & i & m & Hi & _).
        injection E as <-. congruence.
      * left. exists task, (image_url img). split; [reflexivity |].
        split; [exact Hs |]. exists img, more. auto.
      * right. intros (t & u & E & _ & i & m & Hi & _).
        injection E as <-. congruence.
    + right. intros (t & u & E & Hs' & _). injection E as <-. congruence.
  - right. intros (t & u & E & _). discriminate.
Qed.

(** The [try] block returns only for a completed task with an image. *)
Lemma interpretStatus_returned (len total a : Z) (task : Task)
    (r : PollResult) :
  interpretStatus len total a task = Returned r ->
  terminalSuccess task (imageUrl r).
Proof.
  unfold interpretStatus, terminalSuccess.
  destruct (status task =? 2) eqn:E2.
  - destruct (generated_image task) as [[| img more] |]; try discriminate.
    intros H. injection H as <-. split; [lia |]. eauto.
  - destruct ((status task =? 3) || (status task =? 4)); [discriminate |].
    destruct ((status task =? 0) || (status task =? 1));
      destruct (a >=? len); discriminate.
Qed.

(** On the final attempt the [try] block never just continues. *)
Lemma interpretStatus_final (len total : Z) (task : Task) :
  interpretStatus len total len task <> Continued.
Proof.
  unfold interpretStatus.
  assert ((len >=? len) = true) as -> by lia.
  destruct (status task =? 2).
  - destruct (generated_image task) as [[| img more] |]; discriminate.
  - destruct ((status task =? 3) || (status task =? 4)); [discriminate |].
    destruct ((status task =? 0) || (status task =? 1)); discriminate.
Qed.

Section Iteration.

Variable len : Z.
Variable entry : ScheduleEntry.
Variable rest : list ScheduleEntry.
Variable st : PollState.

Let st1 := if delay entry >? 0 then wait (delay entry) st else st.
Let st2 := recordQuery (attempt entry) st1.

(** An iteration whose query reports a completed task with an image
    returns that image's locator. *)
Lemma pollLoop_success (task : Task) (url : option string) :
  provider (queryCount st1) = Responded task ->
  terminalSuccess task url ->
  pollLoop provider len (entry :: rest) st
  = (st2, inr {| imageUrl := url |}).
Proof.
  intros Hp Hs. simpl. fold st1. fold st2. rewrite Hp.
  destruct Hs as (Hs & img & more & Hg & Hu).
  unfold interpretStatus. rewrite Hs, Hg, Hu. reflexivity.
Qed.

(** Any other answer, and a query that throws, hand over to the rest of
    the schedule when the attempt is not the last one. *)
Lemma pollLoop_goes_on :
  ~ endsPolling (provider (queryCount st1)) ->
  attempt entry <> len ->
  pollLoop provider len (entry :: rest) st = pollLoop provider len rest st2.
Proof.
  intros Hn Ha. simpl. fold st1. fold st2.
  destruct (provider (queryCount st1)) as [task | e] eqn:Hp.
  - destruct (interpretStatus len (totalTime st1) (attempt entry) task)
      as [r | e |] eqn:Hi.
    + exfalso. apply Hn. exists task, (imageUrl r). split; [reflexivity |].
      eapply interpretStatus_returned. exact Hi.
    + destruct (attempt entry =? len) eqn:E; [lia | reflexivity].
    + reflexivity.
  - destruct (attempt entry =? len) eqn:E; [lia | reflexivity].
Qed.

(** On the last attempt they end the run with [pollingFailed]. *)
Lemma pollLoop_gives_up :
  ~ endsPolling (provider (queryCount st1)) ->
  attempt entry = len ->
  exists e,
    pollLoop provider len (entry :: rest) st
    = (st2, inl (pollingFailed len (totalTime st2) e)).
Proof.
  intros Hn Ha. simpl. fold st1. fold st2.
  assert ((attempt entry =? len) = true) as Et by lia.
  destruct (provider (queryCount st1)) as [task | e] eqn:Hp.
  - destruct (interpretStatus len (totalTime st1) (attempt entry) task)
      as [r | e |] eqn:Hi.
    + exfalso. apply Hn. exists task, (imageUrl r). split; [reflexivity |].
      eapply interpretStatus_returned. exact Hi.
    + rewrite Et. eauto.
    + exfalso. rewrite Ha in Hi. now apply interpretStatus_final in Hi.
  - rewrite Et. eauto.
Qed.

End Iteration.

Lemma pollLoop_first_success (k : nat) (task : Task) (url : option string) :
  (k < 4)%nat ->
  (forall j, (j < k)%nat -> ~ endsPolling (provider j)) ->
  provider k = Responded task ->
  terminalSuccess task url ->
  run = ({| totalTime := elapsedAt k; events := eventsUpTo k |},
         inr {| imageUrl := url |}).
Proof.
  intros Hk Hbefore Hp Hs. unfold run, pollTaskCompletion.
  change (Z.of_nat (List.length pollingSchedule)) with 4.
  unfold pollingSchedule.
  destruct k as [| k].
  { rewrite (pollLoop_success _ _ _ _ task url) by assumption. reflexivity. }
  rewrite pollLoop_goes_on; [| query_index; apply Hbefore; lia | simpl; lia].
  destruct k as [| k].
  { rewrite (pollLoop_success _ _ _ _ task url) by assumption. reflexivity. }
  rewrite pollLoop_goes_on; [| query_index; apply Hbefore; lia | simpl; lia].
  destruct k as [| k].
  { rewrite (pollLoop_success _ _ _ _ task url) by assumption. reflexivity. }
  rewrite pollLoop_goes_on; [| query_index; apply Hbefore; lia | simpl; lia].
  destruct k as [| k]; [| lia].
  rewrite (pollLoop_success _ _ _ _ task url) by assumption. reflexivity.
Qed.

(** The poller returns at the first answer that reports a completed task
    with an image: it has then issued [k + 1] queries and waited only the
    delays scheduled before them. *)
Theorem first_success_returns (k : nat) (task : Task) (url : option string) :
  (k < 4)%nat ->
  (forall j, (j < k)%nat -> ~ endsPolling (provider j)) ->
  provider k = Responded task ->
  terminalSuccess task url ->
  run = ({| totalTime := elapsedAt k; events := eventsUpTo k |},
         inr {| imageUrl := url |}).
Proof. exact (pollLoop_first_success k task url). Qed.

(** When no answer reports a completed task with an image, the run makes
    all four attempts and ends with the error of the final attempt. *)
Lemma no_success_gives_up :
  (forall j, (j < 4)%nat -> ~ endsPolling (provider j)) ->
  exists e,
    run = ({| totalTime := 93000; events := fullSchedule |},
           inl (pollingFailed 4 93000 e)).
Proof.
  intros Hnone. unfold run, pollTaskCompletion.
  change (Z.of_nat (List.length pollingSchedule)) with 4.
  unfold pollingSchedule.
  rewrite pollLoop_goes_on; [| query_index; apply Hnone; lia | simpl; lia].
  rewrite pollLoop_goes_on; [| query_index; apply Hnone; lia | simpl; lia].
  rewrite pollLoop_goes_on; [| query_index; apply Hnone; lia | simpl; lia].
  destruct (pollLoop_gives_up 4 {| attempt := 4; delay := 30000 |} []
              (recordQuery 3 (wait 25000 (recordQuery 2
                 (wait 38000 (recordQuery 1 pollStart))))))
    as (e & He); [query_index; apply Hnone; lia | reflexivity |].
  exists e. exact He.
Qed.

(** The outcomes of a run, for any provider: a result after one to four
    queries, with the waits of the schedule before them, or the error
    "Polling failed after 4 attempts (93s total): ..." after the whole
    schedule.  The error that the code throws after its loop is never
    reached, and no run waits more than 93000 ms. *)
Theorem poll_outcomes :
  (exists k r,
      (k < 4)%nat /\
      run = ({| totalTime := elapsedAt k; events := eventsUpTo k |}, inr r))
  \/
  (exists e,
      run = ({| totalTime := 93000; events := fullSchedule |},
             inl (pollingFailed 4 93000 e))).
Proof.
  assert (forall k, (k < 4)%nat ->
            (forall j, (j < k)%nat -> ~ endsPolling (provider j)) ->
            endsPolling (provider k) ->
            exists r, run = ({| totalTime := elapsedAt k;
                                events := eventsUpTo k |}, inr r)) as Hfirst.
  { intros k Hk Hb (task & url & Hp & Hs). eexists.
    eapply pollLoop_first_success; eassumption. }
  destruct (endsPolling_dec (provider 0%nat)) as [H0 | H0].
  { left. exists 0%nat.
    destruct (Hfirst 0%nat ltac:(lia) ltac:(intros j Hj; lia) H0) as (r & Hr).
    exists r. split; [lia | exact Hr]. }
  destruct (endsPolling_dec (provider 1%nat)) as [H1 | H1].
  { left. exists 1%nat.
    assert (forall j, (j < 1)%nat -> ~ endsPolling (provider j)) as Hb.
    { intros j Hj. assert (j = 0%nat) as -> by lia. exact H0. }
    destruct (Hfirst 1%nat ltac:(lia) Hb H1) as (r & Hr).
    exists r. split; [lia | exact Hr]. }
  destruct (endsPolling_dec (provider 2%nat)) as [H2 | H2].
  { left. exists 2%nat.
    assert (forall j, (j < 2)%nat -> ~ endsPolling (provider j)) as Hb.
    { intros j Hj. destruct j as [| [| j]]; [exact H0 | exact H1 | lia]. }
    destruct (Hfirst 2%nat ltac:(lia) Hb H2) as (r & Hr).
    exists r. split; [lia | exact Hr]. }
  destruct (endsPolling_dec (provider 3%nat)) as [H3 | H3].
  { left. exists 3%nat.
    assert (forall j, (j < 3)%nat -> ~ endsPolling (provider j)) as Hb.
    { intros j Hj.
      destruct j as [| [| [| j]]]; [exact H0 | exact H1 | exact H2 | lia]. }
    destruct (Hfirst 3%nat ltac:(lia) Hb H3) as (r & Hr).
    exists r. split; [lia | exact Hr]. }
  right. apply no_success_gives_up.
  intros j Hj.
  destruct j as [| [| [| [| j]]]];
    [exact H0 | exact H1 | exact H2 | exact H3 | lia].
Qed.

(** A task reported as failed (status 3 or 4) before the last attempt does
    not end polling: the error is swallowed by the [catch] block and the
    next scheduled attempt is made. *)
Theorem failed_status_is_polled_again (k : nat) (task : Task) :
  (k < 3)%nat ->
  (forall j, (j < k)%nat -> ~ endsPolling (provider j)) ->
  provider k = Responded task ->
  status task = 3 \/ status task = 4 ->
  In (Queried (Z.of_nat k + 2)) (events (fst run)).
Proof.
  intros Hk Hbefore Hp Hst.
  assert (~ endsPolling (provider k)) as Hnot.
  { rewrite Hp. intros (t & u & E & Hs & _). injection E as <-. lia. }
  assert (forall j, (j < S k)%nat -> ~ endsPolling (provider j)) as Hb'.
  { intros j Hj. destruct (Nat.eq_dec j k) as [-> | Hne]; [exact Hnot |].
    apply Hbefore. lia. }
  destruct (endsPolling_dec (provider (S k))) as [(t & u & Hp' & Hs') | Hn1].
  { rewrite (pollLoop_first_success (S k) t u) by (auto; lia).
    destruct k as [| [| [| k]]]; try lia; simpl; tauto. }
  destruct k as [| [| [| k]]]; try lia.
  - (* attempts 1 and 2 have not succeeded *)
    destruct (endsPolling_dec (provider 2%nat)) as [(t & u & Hp2 & Hs2) | Hn2].
    { rewrite (pollLoop_first_success 2 t u); auto.
      - simpl. tauto.
      - intros j Hj. destruct j as [| [| j]]; [apply Hb' | exact Hn1 |]; lia. }
    destruct (endsPolling_dec (provider 3%nat)) as [(t & u & Hp3 & Hs3) | Hn3].
    { rewrite (pollLoop_first_success 3 t u); auto.
      - simpl. tauto.
      - intros j Hj.
        destruct j as [| [| [| j]]];
          [apply Hb' | exact Hn1 | exact Hn2 |]; lia. }
    destruct no_success_gives_up as (e & He).
    { intros j Hj.
      destruct j as [| [| [| [| j]]]];
        [apply Hb' | exact Hn1 | exact Hn2 | exact Hn3 |]; lia. }
    rewrite He. simpl. tauto.
  - destruct (endsPolling_dec (provider 3%nat)) as [(t & u & Hp3 & Hs3) | Hn3].
    { rewrite (pollLoop_first_success 3 t u); auto.
      - simpl. tauto.
      - intros j Hj.
        destruct j as [| [| [| j]]];
          [apply Hb' | apply Hb' | exact Hn1 |]; lia. }
    destruct no_success_gives_up as (e & He).
    { intros j Hj.
      destruct j as [| [| [| [| j]]]];
        [apply Hb' | apply Hb' | exact Hn1 | exact Hn3 |]; lia. }
    rewrite He. simpl. tauto.
  - destruct no_success_gives_up as (e & He).
    { intros j Hj.
      destruct j as [| [| [| [| j]]]];
        [apply Hb' | apply Hb' | apply Hb' | exact Hn1 |]; lia. }
    rewrite He. simpl. tauto.
Qed.

End PollerOutcomes.

(* ================================================================== *)
(** * Task creation and the response of the downstream *)
(* ================================================================== *)

Section DownstreamShape.

Import GeminiGen.

Variable w : World.

(** Whatever [generateImage] throws, it is not an axios error: an HTTP
    failure leaves it as a plain [Error] with the message "GeminiGen API
    failed: ...". *)
Theorem generateImage_rewraps_http_errors (e : Js.Error) :
  generateImage w = inl e -> Js.isAxiosError e = false.
Proof.
  unfold generateImage.
  destruct (generateImageBody w) as [e' | r]; [| discriminate].
  destruct (Js.isAxiosError e') eqn:Ea; intros H; injection H as <-.
  - reflexivity.
  - exact Ea.
Qed.

(** A task creation that fails with HTTP 500 is repeated once with the
    fallback parameters, and [generateImage] then does what it does when
    the first request is answered like the repeated one. *)
Theorem generateImage_fallback_on_500 (e : Js.Error) :
  firstPost w = PostThrew e ->
  Js.isAxiosError e = true ->
  isStatus 500 e = true ->
  generateImage w = generateImage (answeredByFallback w).
Proof.
  intros Hp Ha H5.
  assert (createTask w = createTask (answeredByFallback w)) as Hc.
  { unfold createTask. simpl. rewrite Hp, Ha, H5. simpl.
    destruct (fallbackPost w) as [uuid | e']; [reflexivity |].
    destruct (Js.isAxiosError e' && isStatus 500 e'); reflexivity. }
  unfold generateImage, generateImageBody. rewrite Hc. reflexivity.
Qed.

Variable request : ImageBrandingRequest.

(** The two shapes of a response of [generateBrandingImage].  With
    [success] it carries the data - the request's own product name,
    platform and tone, the style or "minimalist", the saved image and the
    provider's task id - a file name and a view URL, and no error; this
    happens only when the image was generated and saved.  Without
    [success] it carries an error message and nothing else. *)
Theorem response_shape (response : ImageBrandingResponse) :
  generateBrandingImage w request = Resolved response ->
  (success response = true /\
   error response = None /\
   exists imageResult savedImage payload prompt,
     generateImage w = inr imageResult /\
     download w = inr savedImage /\
     builtPrompt w = inr prompt /\
     data response = Some payload /\
     data_productName payload = productName request /\
     data_platform payload = platform request /\
     data_tone payload = tone request /\
     data_style payload = Js.orText (style request) "minimalist" /\
     generatedImage payload = base64Image savedImage /\
     imagePrompt payload = prompt /\
     geminiGenRequestId (metadata payload) = requestId imageResult /\
     savedFilename response = Some (filename savedImage) /\
     exists url, viewUrl response = Some url /\ url <> "")
  \/
  (success response = false /\
   data response = None /\ savedFilename response = None /\
   viewUrl response = None /\
   exists msg, error response = Some msg).
Proof.
  unfold generateBrandingImage, generateBrandingImageBody.
  destruct (negb (Js.nonEmpty (apiKey w)));
    [intros H; injection H as <-; right; simpl; eauto 10 |].
  destruct (productLookup w) as [e | [productData |]];
    try (intros H; injection H as <-; right; simpl; eauto 10).
  destruct (builtPrompt w) as [e | prompt];
    [intros H; injection H as <-; right; simpl; eauto 10 |].
  destruct (generateImage w) as [e | imageResult];
    [intros H; injection H as <-; right; simpl; eauto 10 |].
  unfold downloadAndSaveImage.
  destruct (download w) as [e | savedImage];
    [intros H; injection H as <-; right; simpl; eauto 10 |].
  intros H. injection H as <-. left. simpl.
  split; [reflexivity |]. split; [reflexivity |].
  exists imageResult, savedImage. eexists. exists prompt.
  repeat (split; [reflexivity |]).
  eexists. split; [reflexivity |].
  unfold Js.orText.
  destruct (s3Url savedImage) as [u |].
  - destruct (Js.nonEmpty u) eqn:Eu.
    + unfold Js.nonEmpty in Eu. intros ->. discriminate.
    + discriminate.
  - discriminate.
Qed.

End DownstreamShape.

(* ================================================================== *)
(** * Validation of a generation request *)
(* ================================================================== *)

Section Validation.

Import GeminiGen Controller.

Ltac step :=
  cbn -[Js.member validPlatforms validTones validStyles In Js.toLowerCase
        Js.trim Js.nonEmpty].

Lemma lower_idempotent (c : ascii) : Js.lower (Js.lower c) = Js.lower c.
Proof.
  destruct c as [[] [] [] [] [] [] [] []]; reflexivity.
Qed.

Lemma toLowerCase_idempotent (s : string) :
  Js.toLowerCase (Js.toLowerCase s) = Js.toLowerCase s.
Proof.
  induction s as [| c t IH]; simpl; [reflexivity |].
  now rewrite lower_idempotent, IH.
Qed.

Lemma toLowerCase_nonEmpty (s : string) :
  Js.nonEmpty (Js.toLowerCase s) = Js.nonEmpty s.
Proof. destruct s; reflexivity. Qed.

Lemma member_In (s : string) (l : list string) :
  Js.member s l = true <-> In s l.
Proof.
  unfold Js.member. rewrite existsb_exists. split.
  - intros (x & Hin & E). apply String.eqb_eq in E. now subst.
  - intros H. exists s. split; [assumption | apply String.eqb_refl].
Qed.

Lemma validate_normal (available : bool) (body : Body)
    (r : ImageBrandingRequest) :
  validate available body = inr r ->
  available = true /\
  In (platform r) validPlatforms /\
  In (tone r) validTones /\
  exists st, style r = Some st /\ In st validStyles.
Proof.
  unfold validate. destruct available; step; [| discriminate].
  destruct (body_productName body) as [pn |]; [| discriminate].
  destruct (body_platform body) as [pf |]; [| discriminate].
  destruct (body_tone body) as [tn |]; [| discriminate].
  destruct (negb (Js.nonEmpty pn) || negb (Js.nonEmpty pf)
            || negb (Js.nonEmpty tn)); [discriminate |].
  destruct (Js.member (Js.toLowerCase pf) validPlatforms) eqn:Ep;
    step; [| discriminate].
  destruct (Js.member (Js.toLowerCase tn) validTones) eqn:Et;
    step; [| discriminate].
  destruct (body_style body) as [st |]; step.
  - destruct (Js.nonEmpty st) eqn:Es; step.
    + destruct (Js.member (Js.toLowerCase st) validStyles) eqn:Ev;
        step; [| discriminate].
      intros H. injection H as <-. step.
      split; [reflexivity |]. rewrite <- !member_In.
      split; [exact Ep |]. split; [exact Et |].
      exists (Js.toLowerCase st). rewrite toLowerCase_nonEmpty, Es.
      rewrite <- member_In. auto.
    + intros H. injection H as <-. step.
      split; [reflexivity |]. rewrite <- !member_In.
      split; [exact Ep |]. split; [exact Et |].
      exists "minimalist". rewrite toLowerCase_nonEmpty, Es.
      split; [reflexivity |]. rewrite <- member_In. reflexivity.
  - intros H. injection H as <-. step.
    split; [reflexivity |]. rewrite <- !member_In.
    split; [exact Ep |]. split; [exact Et |].
    exists "minimalist". split; [reflexivity |].
    rewrite <- member_In. reflexivity.
Qed.

(** A request that passes the validation of the controller is in normal
    form: the service is available, the platform is one of instagram,
    linkedin and email, the tone one of the five tones, and the style is
    present and one of the four styles. *)
Theorem accepted_request_is_normal (available : bool) (body : Body)
    (r : ImageBrandingRequest) :
  validate available body = inr r ->
  available = true /\
  In (platform r) validPlatforms /\
  In (tone r) validTones /\
  exists st, style r = Some st /\ In st validStyles.
Proof. exact (validate_normal available body r). Qed.

(** For a request that passed the validation, the service never takes a
    default branch: the aspect ratio is 1:1 for instagram and 16:9 for
    linkedin and email, the style maps to one of the four named provider
    styles and not to "Photorealistic", and the fallback tagline is the one
    of the tone and not the generic "... - Britannia". *)
Theorem accepted_request_avoids_defaults (available : bool) (body : Body)
    (r : ImageBrandingRequest) :
  validate available body = inr r ->
  getAspectRatio (platform r)
  = (if String.eqb (platform r) "instagram" then "1:1" else "16:9") /\
  In (mapStyleToGeminiGen (Js.orText (style r) "minimalist"))
     ["Stock Photo"; "Dynamic"; "Portrait"; "Creative"] /\
  forall productName,
    In (fallbackTagline productName (tone r))
       (map (fun suffix => Js.template [productName; suffix])
            [" - Your Vibe!"; " - Family Moments"; " - Pure Excellence";
             " - Naturally Good"; " - Time Tested"]).
Proof.
  intros H.
  destruct (validate_normal _ _ _ H)
    as (_ & Hp & Ht & st & Hs & Hv).
  rewrite Hs. simpl in Hp, Ht, Hv.
  split; [| split].
  - destruct Hp as [<- | [<- | [<- | []]]]; reflexivity.
  - destruct Hv as [<- | [<- | [<- | [<- | []]]]]; simpl; tauto.
  - intros pn.
    destruct Ht as [<- | [<- | [<- | [<- | [<- | []]]]]]; simpl; tauto.
Qed.

(** The validation does not depend on the letter case of platform, tone
    and style: a body and the same body with these fields in lower case
    are refused alike or give the same request. *)
Theorem validation_ignores_case (available : bool) (body : Body) :
  validate available (lowered body) = validate available body.
Proof.
  unfold validate, lowered. simpl.
  destruct available; simpl; [| reflexivity].
  destruct (body_productName body) as [pn |]; [| reflexivity].
  destruct (body_platform body) as [pf |]; simpl; [| reflexivity].
  destruct (body_tone body) as [tn |]; simpl; [| reflexivity].
  rewrite !toLowerCase_nonEmpty, !toLowerCase_idempotent.
  destruct (body_style body) as [st |]; simpl; [| reflexivity].
  rewrite !toLowerCase_nonEmpty.
  destruct (Js.nonEmpty st) eqn:Es; simpl;
    rewrite ?toLowerCase_nonEmpty, ?Es, ?toLowerCase_idempotent;
    reflexivity.
Qed.

(** The required fields are tested before they are trimmed, and the
    product name is tested for nothing else: where one non-empty name is
    accepted, every non-empty name is, and the request carries it trimmed.
    So a name of white space only passes, and reaches the service as the
    empty name. *)
Theorem product_name_is_tested_before_trimming (body : Body)
    (name other : string) (r : ImageBrandingRequest) :
  name <> "" -> other <> "" ->
  validate true {| body_productName := Some other;
                   body_platform := body_platform body;
                   body_tone := body_tone body;
                   body_flavor := body_flavor body;
                   body_style := body_style body |} = inr r ->
  validate true {| body_productName := Some name;
                   body_platform := body_platform body;
                   body_tone := body_tone body;
                   body_flavor := body_flavor body;
                   body_style := body_style body |}
  = inr {| productName := Js.trim name; platform := platform r;
           tone := tone r; flavor := flavor r; style := style r |}.
Proof.
  intros Hne Hvne Hv. unfold validate in *.
  cbn -[Js.member validPlatforms validTones validStyles In Js.toLowerCase
        Js.trim Js.nonEmpty] in Hv.
  step.
  assert (forall s, s <> "" -> Js.nonEmpty s = true) as Hnon.
  { intros s Hs. unfold Js.nonEmpty.
    destruct (String.eqb s "") eqn:E; [| reflexivity].
    apply String.eqb_eq in E. contradiction. }
  rewrite (Hnon _ Hne). rewrite (Hnon _ Hvne) in Hv.
  destruct (body_platform body) as [pf |]; [| discriminate].
  destruct (body_tone body) as [tn |]; [| discriminate].
  destruct (negb true || negb (Js.nonEmpty pf) || negb (Js.nonEmpty tn));
    [discriminate |].
  destruct (negb (Js.member (Js.toLowerCase pf) validPlatforms));
    [discriminate |].
  destruct (negb (Js.member (Js.toLowerCase tn) validTones));
    [discriminate |].
  destruct (negb (Js.falsy (body_style body)) && _); [discriminate |].
  injection Hv as <-. step. reflexivity.
Qed.

End Validation.

(* ================================================================== *)
(** * The names of the saved files *)
(* ================================================================== *)

Section FileNames.

Import GeminiGen Controller.

Lemma substring0_length (n : nat) (s : string) :
  (String.length (substring0 n s) <= n)%nat.
Proof.
  revert s. induction n as [| n IH]; intros s; simpl; [lia |].
  destruct s as [| c t]; simpl; [lia |]. specialize (IH t). lia.
Qed.

Lemma substring0_allChars (p : ascii -> bool) (n : nat) (s : string) :
  Js.allChars p s = true -> Js.allChars p (substring0 n s) = true.
Proof.
  revert s. induction n as [| n IH]; intros s; simpl; [reflexivity |].
  destruct s as [| c t]; simpl; [reflexivity |].
  intros H. apply andb_true_iff in H. destruct H as (Hc & Ht).
  now rewrite Hc, IH.
Qed.

Lemma keepWordCharacters_allChars (s : string) :
  Js.allChars (fun c => isLowerAlnum c || Js.isSpace c)
              (keepWordCharacters s) = true.
Proof.
  induction s as [| c t IH]; simpl; [reflexivity |].
  destruct (isLowerAlnum c || Js.isSpace c) eqn:E; simpl; [| exact IH].
  now rewrite E, IH.
Qed.

Lemma hyphenate_allChars (inRun : bool) (s : string) :
  Js.allChars (fun c => isLowerAlnum c || Js.isSpace c) s = true ->
  Js.allChars isSlugChar (hyphenate inRun s) = true.
Proof.
  revert inRun. induction s as [| c t IH]; intros inRun; simpl;
    [reflexivity |].
  intros H. apply andb_true_iff in H. destruct H as (Hc & Ht).
  destruct (Js.isSpace c) eqn:Es.
  - destruct inRun; simpl; auto.
  - simpl. rewrite IH by assumption. unfold isSlugChar.
    rewrite orb_false_r in Hc. now rewrite Hc.
Qed.

(** The slug that goes into a file name has at most 30 characters, all of
    them lower-case letters, digits or hyphens - whatever the prompt. *)
Theorem promptSlug_is_safe (prompt : string) :
  (String.length (promptSlug prompt) <= 30)%nat /\
  Js.allChars isSlugChar (promptSlug prompt) = true.
Proof.
  unfold promptSlug. split.
  - apply substring0_length.
  - apply substring0_allChars, hyphenate_allChars,
      keepWordCharacters_allChars.
Qed.

Lemma startsWith_append (p s : string) :
  Js.startsWith p (String.append p s) = true.
Proof.
  induction p as [| c p IH]; simpl; [reflexivity |].
  now rewrite Ascii.eqb_refl, IH.
Qed.

Lemma endsWith_refl (p : string) : Js.endsWith p p = true.
Proof.
  destruct p; cbn [Js.endsWith]; rewrite String.eqb_refl; reflexivity.
Qed.

Lemma endsWith_append (p a s : string) :
  Js.endsWith p s = true -> Js.endsWith p (String.append a s) = true.
Proof.
  intros H. induction a as [| c a IH]; simpl; [exact H |].
  rewrite IH. apply orb_true_r.
Qed.

(** Every file that [downloadAndSaveImage] saves is one that
    [getSavedImages] lists: its name begins with "geminigen_" and ends with
    ".png", whatever the time and the prompt. *)
Lemma savedName_parts (iso prompt : string) :
  savedName iso prompt
  = String.append "geminigen_"
      (String.append (dashTimestamp iso)
         (String.append "_" (String.append (promptSlug prompt) ".png"))).
Proof. reflexivity. Qed.

Theorem saved_file_is_listed (iso prompt : string) :
  isListed (savedName iso prompt) = true.
Proof.
  unfold isListed. rewrite savedName_parts.
  rewrite startsWith_append. cbn [andb].
  apply orb_true_iff. right.
  repeat apply endsWith_append. apply endsWith_refl.
Qed.

Lemma append_assoc_string (a b c : string) :
  String.append a (String.append b c) = String.append (String.append a b) c.
Proof. induction a as [| x a IH]; simpl; [reflexivity | now rewrite IH]. Qed.

Lemma toLowerCase_append (a b : string) :
  Js.toLowerCase (String.append a b)
  = String.append (Js.toLowerCase a) (Js.toLowerCase b).
Proof. induction a as [| c a IH]; simpl; [reflexivity | now rewrite IH]. Qed.

Lemma lastSegment_png (a acc : string) :
  lastSegment acc (String.append a ".png") = "png".
Proof.
  revert acc. induction a as [| c a IH]; intros acc; simpl.
  - reflexivity.
  - destruct (Ascii.eqb c "."); apply IH.
Qed.

(** A file name that ends with ".png" is served as image/png; so is every
    file that [downloadAndSaveImage] saves. *)
Theorem saved_file_is_served_as_png (iso prompt : string) :
  (forall name, contentType (String.append name ".png") = "image/png") /\
  contentType (savedName iso prompt) = "image/png".
Proof.
  assert (forall name, contentType (String.append name ".png") = "image/png")
    as H.
  { intros name. unfold contentType. rewrite toLowerCase_append.
    change (Js.toLowerCase ".png") with ".png".
    rewrite lastSegment_png. reflexivity. }
  split; [exact H |].
  rewrite savedName_parts.
  rewrite !append_assoc_string. apply H.
Qed.

End FileNames.

(* ================================================================== *)
(** * What the limiter reports about its window *)
(* ================================================================== *)

Section WindowReports.

Import RateLimited.

Lemma canMakeRequest_live (s : State) :
  fst (canMakeRequest s)
  = (Z.of_nat (List.length (liveTimestamps s)) <? maxRequestsPerMinute).
Proof. unfold canMakeRequest. cbn [fst]. now rewrite clean_keeps_live. Qed.


Lemma getNextAvailableTime_idle (s : State) :
  Z.of_nat (List.length (liveTimestamps s)) < maxRequestsPerMinute ->
  fst (getNextAvailableTime s) = 0.
Proof.
  intros H. unfold getNextAvailableTime. rewrite clean_keeps_live.
  destruct (Z.of_nat (List.length (liveTimestamps s))
            <? maxRequestsPerMinute) eqn:E; [reflexivity | lia].
Qed.

Lemma getNextAvailableTime_clean (s : State) :
  fst (getNextAvailableTime (cleanOldTimestamps s))
  = fst (getNextAvailableTime s).
Proof.
  unfold getNextAvailableTime. rewrite !clean_keeps_live, live_clean.
  destruct (_ <? _); reflexivity.
Qed.


Lemma filter_stronger {A : Type} (f g : A -> bool) (l : list A) :
  (forall x, f x = true -> g x = true) ->
  filter f (filter g l) = filter f l.
Proof.
  intros H. induction l as [| x l IH]; simpl; [reflexivity |].
  destruct (g x) eqn:Eg; simpl; rewrite IH.
  - reflexivity.
  - destruct (f x) eqn:Ef; [| reflexivity].
    rewrite (H x Ef) in Eg. discriminate.
Qed.

Lemma filter_all {A : Type} (l : list A) : filter (fun _ => true) l = l.
Proof. induction l; simpl; congruence. Qed.

(** The wait suffices: when the window holds at most five admissions, a
    request can be made once the time that [getNextAvailableTime] returns
    has passed. *)
Theorem wait_for_slot_suffices (s : State) :
  withinLimit s ->
  fst (canMakeRequest (setNow (now s + fst (getNextAvailableTime s)) s))
  = true.
Proof.
  intros Hw. rewrite canMakeRequest_live.
  destruct (Z.of_nat (List.length (liveTimestamps s))
            <? maxRequestsPerMinute) eqn:E.
  - rewrite getNextAvailableTime_idle by lia. unfold liveTimestamps in *.
    simpl. rewrite Z.add_0_r. exact E.
  - unfold getNextAvailableTime. rewrite clean_keeps_live, E. simpl fst.
    unfold withinLimit in Hw.
    destruct (liveTimestamps s) as [| t l] eqn:El;
      [unfold maxRequestsPerMinute in E; simpl in E; lia |].
    simpl nth.
    assert (In t (liveTimestamps s)) as Hin by (rewrite El; now left).
    unfold liveTimestamps in Hin. apply filter_In in Hin.
    destruct Hin as (_ & Ht).
    rewrite Z.max_r by (unfold requestWindow in *; lia).
    set (later := setNow (now s + (t + requestWindow - now s)) s).
    assert (liveTimestamps later
            = filter (fun x => now later - requestWindow <? x)
                     (liveTimestamps s)) as Hsub.
    { unfold liveTimestamps at 2. rewrite filter_stronger; [reflexivity |].
      intros x. unfold later. simpl. unfold requestWindow in *. lia. }
    rewrite Hsub, El. simpl filter.
    assert ((now s + (t + requestWindow - now s) - requestWindow <? t)
            = false) as -> by lia.
    pose proof (filter_length_le
                  (fun x => now s + (t + requestWindow - now s)
                            - requestWindow <? x)
                  (fun _ => true) l (fun _ _ => eq_refl)) as Hle.
    rewrite filter_all in Hle.
    simpl in Hw. unfold maxRequestsPerMinute in *. lia.
Qed.



End WindowReports.

(* ================================================================== *)
(** * Invariants of the window *)
(* ================================================================== *)

Section WindowInvariants.

Import RateLimited.

(** A property of the wall clock and the recorded admissions that cleaning
    the window, recording an admission and the passing of time keep is kept
    by every step of the service that does not set the clock back. *)
Section Generic.

Variable P : State -> Prop.

Hypothesis P_same : forall s s', sameWindow s s' -> P s -> P s'.
Hypothesis P_clean : forall s, P s -> P (cleanOldTimestamps s).
Hypothesis P_add : forall s, P s -> P (addRequestTimestamp s).
Hypothesis P_later : forall s d, 0 <= d -> P s -> P (setNow (now s + d) s).

Ltac same s := apply (P_same s); [split; reflexivity |].

Lemma kept_getRateLimitStatus (s : State) : P s -> P (getRateLimitStatus s).
Proof.
  intros H. unfold getRateLimitStatus.
  rewrite getNextAvailableTime_state, canMakeRequest_state. auto.
Qed.

Lemma kept_settle (c : nat) (o : Settlement) (s : State) :
  P s -> P (settle c o s).
Proof.
  intros H. unfold settle. destruct (isSettled c s); [exact H |].
  now same s.
Qed.

Lemma kept_dispatch (s : State) : P s -> P (dispatch s).
Proof.
  intros H. unfold dispatch. destruct (requestQueue s) as [| queueItem rest].
  - now same s.
  - same (logRateLimitStatus (addRequestTimestamp (setQueue rest s))).
    apply kept_getRateLimitStatus, P_add. now same s.
Qed.

Lemma kept_drainLoop (s : State) : P s -> P (drainLoop s).
Proof.
  intros H. unfold drainLoop.
  destruct (requestQueue s) as [| queueItem rest]; [now same s |].
  pose proof (getNextAvailableTime_state s) as Es.
  destruct (getNextAvailableTime s) as [w s1]. simpl in Es. subst s1.
  destruct (w >? 0).
  - same (cleanOldTimestamps s). auto.
  - apply kept_dispatch. auto.
Qed.

Lemma kept_processQueue (s : State) : P s -> P (processQueue s).
Proof.
  intros H. unfold processQueue.
  destruct (isProcessingQueue s || _); [exact H |].
  apply kept_drainLoop. now same s.
Qed.

Lemma kept_queueRequest (c : nat) (request : ImageBrandingRequest)
    (s : State) :
  P s -> P (queueRequest c request s).
Proof.
  intros H. unfold queueRequest.
  apply kept_processQueue, kept_getRateLimitStatus. now same s.
Qed.

Lemma kept_generateBrandingImage (request : ImageBrandingRequest)
    (s : State) :
  P s -> P (generateBrandingImage request s).
Proof.
  intros H. unfold generateBrandingImage, canMakeRequest.
  set (s0 := setNextCaller (S (nextCaller s)) s).
  assert (P s0) as H0 by (now same s).
  destruct (Z.of_nat _ <? maxRequestsPerMinute).
  - same (addRequestTimestamp (cleanOldTimestamps s0)). auto.
  - apply kept_queueRequest. auto.
Qed.

Lemma kept_step (s s' : State) (ev : Event) :
  P s -> step s ev = Some s' -> isBackwardStep ev = false -> P s'.
Proof.
  intros H Hs Hb.
  destruct ev as [d | delta | request | c w | w | | |]; simpl in Hs.
  - destruct (0 <=? d) eqn:Ed; [| discriminate]. injection Hs as <-.
    apply (P_same (setNow (now s + d) s)); [split; reflexivity |].
    apply P_later; [lia | exact H].
  - injection Hs as <-. simpl in Hb. apply P_later; [lia | exact H].
  - injection Hs as <-. now apply kept_generateBrandingImage.
  - destruct (lookupCaller c (fastPath s)) as [request |]; [| discriminate].
    destruct (downstream_resolves w request) as (r & Er).
    rewrite Er in Hs. simpl in Hs. injection Hs as <-.
    apply kept_settle. now same s.
  - destruct (drain s) as [| | queueItem |]; try discriminate.
    destruct (downstream_resolves w (requestData queueItem)) as (r & Er).
    rewrite Er in Hs. injection Hs as <-. simpl.
    now apply kept_drainLoop, kept_settle.
  - destruct (drain s) as [| deadline | | deadline]; try discriminate;
      destruct (deadline <=? uptime s); try discriminate; injection Hs as <-.
    + now apply kept_dispatch.
    + now apply kept_drainLoop.
  - injection Hs as <-. unfold clearQueue.
    apply (P_same s); [| exact H].
    destruct (rejectAll_window (requestQueue s) s) as (En & Et).
    split; simpl; assumption.
  - injection Hs as <-. now apply kept_getRateLimitStatus.
Qed.

Lemma kept_run (evs : list Event) (s s' : State) :
  P s -> run s evs = Some s' -> clockNeverStepsBack evs = true -> P s'.
Proof.
  revert s. induction evs as [| ev evs IH]; intros s H Hr Hc; simpl in *.
  - now injection Hr as <-.
  - destruct (step s ev) as [s1 |] eqn:Es; [| discriminate].
    apply andb_true_iff in Hc. destruct Hc as (Hb & Hc).
    apply negb_true_iff in Hb.
    apply (IH s1); [| exact Hr | exact Hc]. eapply kept_step; eassumption.
Qed.

End Generic.

Lemma sorted_filter (f : Z -> bool) (l : list Z) :
  StronglySorted Z.le l -> StronglySorted Z.le (filter f l).
Proof.
  induction 1 as [| x l Hs IH Hx]; simpl; [constructor |].
  destruct (f x); [| exact IH].
  constructor; [exact IH |].
  apply Forall_forall. intros y Hy. apply filter_In in Hy.
  rewrite Forall_forall in Hx. now apply Hx.
Qed.

Lemma sorted_append (l : list Z) (x : Z) :
  StronglySorted Z.le l -> Forall (fun t => t <= x) l ->
  StronglySorted Z.le (l ++ [x]).
Proof.
  induction 1 as [| y l Hs IH Hy]; simpl; intros Hle.
  - constructor; constructor.
  - inversion Hle as [| ? ? Hyx Hrest]; subst.
    constructor; [now apply IH |].
    apply Forall_app. split; [exact Hy | now constructor].
Qed.

Lemma chronological_init (start : Z) : chronological (init start).
Proof. split; constructor. Qed.

Lemma chronological_run (evs : list Event) (s s' : State) :
  chronological s -> run s evs = Some s' -> clockNeverStepsBack evs = true ->
  chronological s'.
Proof.
  apply kept_run.
  - intros a b (En & Et) (H1 & H2). unfold chronological.
    now rewrite <- En, <- Et.
  - intros a (H1 & H2). split; simpl.
    + now apply sorted_filter.
    + apply Forall_forall. intros t Ht. apply filter_In in Ht.
      rewrite Forall_forall in H2. now apply H2.
  - intros a (H1 & H2). split; simpl.
    + now apply sorted_append.
    + apply Forall_app. split; [exact H2 |]. constructor; [lia | constructor].
  - intros a d Hd (H1 & H2). split; simpl; [exact H1 |].
    eapply Forall_impl; [| exact H2]. simpl. intros; lia.
Qed.

(** As long as the wall clock is not set back, the recorded admissions are
    in chronological order and none is later than the clock in every state
    that the service reaches: the entry that [getNextAvailableTime] reads
    at index 0 is the oldest one. *)
Theorem window_is_chronological (start : Z) (evs : list Event) (s : State) :
  run (init start) evs = Some s ->
  clockNeverStepsBack evs = true ->
  StronglySorted Z.le (requestTimestamps s) /\
  Forall (fun t => t <= now s) (requestTimestamps s) /\
  Forall (fun t => nth 0 (liveTimestamps s) (now s) <= t) (liveTimestamps s).
Proof.
  intros Hr Hc.
  destruct (chronological_run evs (init start) s (chronological_init start)
              Hr Hc) as (H1 & H2).
  split; [exact H1 |]. split; [exact H2 |].
  pose proof (sorted_filter (fun t => now s - requestWindow <? t) _ H1) as Hl.
  fold (liveTimestamps s) in Hl.
  destruct (liveTimestamps s) as [| t l]; [constructor |].
  simpl. inversion Hl; subst. constructor; [lia | assumption].
Qed.

(** As long as the wall clock is not set back, the time to the next free
    slot is at most one minute in every state that the service reaches, and
    so is the retry wait that [getRetryAfterTime] falls back on when the
    message of the error names none; that wait is never zero. *)
Theorem waits_are_bounded (start : Z) (evs : list Event) (s : State)
    (e : Js.Error) :
  run (init start) evs = Some s ->
  clockNeverStepsBack evs = true ->
  0 <= fst (getNextAvailableTime s) <= requestWindow /\
  (matchRetryAfter (Js.message e) = None ->
   exists w, fst (getRetryAfterTime e s) = Js.Int w /\
             0 < w <= requestWindow).
Proof.
  intros Hr Hc.
  destruct (chronological_run evs (init start) s (chronological_init start)
              Hr Hc) as (H1 & H2).
  assert (0 <= fst (getNextAvailableTime s) <= requestWindow) as Hb.
  { unfold getNextAvailableTime. rewrite clean_keeps_live.
    destruct (_ <? maxRequestsPerMinute) eqn:E;
      [simpl; unfold requestWindow; lia |].
    destruct (liveTimestamps s) as [| t l] eqn:El;
      [unfold maxRequestsPerMinute in E; simpl in E; lia |].
    assert (In t (liveTimestamps s)) as Hin by (rewrite El; now left).
    unfold liveTimestamps in Hin. apply filter_In in Hin.
    destruct Hin as (Hin & Ht). rewrite Forall_forall in H2.
    specialize (H2 t Hin). simpl. unfold requestWindow in *. lia. }
  split; [exact Hb |].
  intros Hm. unfold getRetryAfterTime. rewrite Hm.
  destruct (getNextAvailableTime s) as [w s1]. simpl in *.
  eexists. split; [reflexivity |].
  destruct (w =? 0) eqn:Ew; unfold requestWindow in *; lia.
Qed.

Lemma withinCapacity_init (start : Z) : withinCapacity (init start).
Proof. unfold withinCapacity. simpl. unfold maxRequestsPerMinute. lia. Qed.

Lemma withinCapacity_run (evs : list Event) (s s' : State) :
  withinCapacity s -> run s evs = Some s' ->
  neverWaitsForSlot s evs = true ->
  withinCapacity s'.
Proof.
  revert s. induction evs as [| ev evs IH]; intros s H Hr Hn; simpl in *.
  - now injection Hr as <-.
  - destruct (step s ev) as [s1 |] eqn:Es; [| discriminate].
    apply andb_true_iff in Hn. destruct Hn as (Hw & Hn).
    apply negb_true_iff in Hw.
    apply (IH s1); [| exact Hr | exact Hn].
    eapply withinCapacity_step; eassumption.
Qed.

(** As long as the drain loop never has to wait for a slot, at most five
    admissions are recorded in any trailing minute: the limit can only be
    exceeded through the wake-up from that wait. *)
Theorem limit_kept_without_slot_wait (start : Z) (evs : list Event)
    (s : State) :
  run (init start) evs = Some s ->
  neverWaitsForSlot (init start) evs = true ->
  Z.of_nat (List.length (liveTimestamps s)) <= maxRequestsPerMinute.
Proof.
  intros Hr Hn. apply live_within_recorded.
  exact (withinCapacity_run evs (init start) s (withinCapacity_init start)
           Hr Hn).
Qed.

Lemma queueAttended_agree (s s' : State) :
  agree s s' -> queueAttended s -> queueAttended s'.
Proof.
  intros (_ & Eq & Ef & _) H. unfold queueAttended. now rewrite <- Eq, <- Ef.
Qed.

Lemma queueAttended_dispatch (s : State) : queueAttended (dispatch s).
Proof.
  apply (queueAttended_agree (dispatched s));
    [apply agree_sym, dispatch_agree |].
  unfold dispatched, queueAttended.
  destruct (requestQueue s) as [| item rest] eqn:Eq; simpl; auto.
Qed.

Lemma queueAttended_drainLoop (s : State) : queueAttended (drainLoop s).
Proof.
  unfold drainLoop.
  destruct (requestQueue s) as [| item rest] eqn:Eq.
  - left. exact Eq.
  - destruct (getNextAvailableTime s) as [w s1].
    destruct (w >? 0); [now right | apply queueAttended_dispatch].
Qed.

Lemma queueAttended_processQueue (s : State) : queueAttended (processQueue s).
Proof.
  unfold processQueue.
  destruct (isProcessingQueue s) eqn:Ef; simpl; [now right |].
  destruct (requestQueue s) as [| item rest] eqn:Eq; [now left |].
  apply queueAttended_drainLoop.
Qed.

Lemma queueAttended_settle (c : nat) (o : Settlement) (s : State) :
  queueAttended s -> queueAttended (settle c o s).
Proof. unfold settle. destruct (isSettled c s); auto. Qed.

Lemma queueAttended_step (s s' : State) (ev : Event) :
  queueAttended s -> step s ev = Some s' -> queueAttended s'.
Proof.
  intros H Hs.
  destruct ev as [d | delta | request | c w | w | | |]; simpl in Hs.
  - destruct (0 <=? d); [| discriminate]. now injection Hs as <-.
  - now injection Hs as <-.
  - injection Hs as <-. unfold generateBrandingImage, canMakeRequest.
    destruct (_ <? maxRequestsPerMinute); [exact H |].
    apply queueAttended_processQueue.
  - destruct (lookupCaller c (fastPath s)) as [request |]; [| discriminate].
    destruct (downstream_resolves w request) as (r & Er).
    rewrite Er in Hs. simpl in Hs. injection Hs as <-.
    now apply queueAttended_settle.
  - destruct (drain s) as [| | queueItem |]; try discriminate.
    destruct (downstream_resolves w (requestData queueItem)) as (r & Er).
    rewrite Er in Hs. injection Hs as <-. simpl.
    apply queueAttended_drainLoop.
  - destruct (drain s) as [| deadline | | deadline]; try discriminate;
      destruct (deadline <=? uptime s); try discriminate; injection Hs as <-.
    + apply queueAttended_dispatch.
    + apply queueAttended_drainLoop.
  - injection Hs as <-. now left.
  - injection Hs as <-.
    apply (queueAttended_agree s);
      [apply agree_sym, agree_getRateLimitStatus | exact H].
Qed.

Lemma queueAttended_run (evs : list Event) (s s' : State) :
  queueAttended s -> run s evs = Some s' -> queueAttended s'.
Proof.
  revert s. induction evs as [| ev evs IH]; intros s H Hr; simpl in Hr.
  - now injection Hr as <-.
  - destruct (step s ev) as [s1 |] eqn:Es; [| discriminate].
    eapply IH; [| exact Hr]. eapply queueAttended_step; eassumption.
Qed.

(** No request is stranded in the queue: in every state that the service
    reaches, a non-empty queue has a drain loop in progress, suspended at
    one of its three awaits. *)
Theorem queued_requests_are_attended (start : Z) (evs : list Event)
    (s : State) :
  run (init start) evs = Some s ->
  requestQueue s <> [] ->
  isProcessingQueue s = true /\ drain s <> NotRunning.
Proof.
  intros Hr Hq.
  assert (isProcessingQueue s = true) as Hf.
  { destruct (queueAttended_run evs (init start) s (or_introl eq_refl) Hr);
      [contradiction | assumption]. }
  split; [exact Hf |].
  pose proof (inv_flag s (Inv_reachable start evs s Hr)) as Hflag.
  intros Ed. rewrite Ed, Hf in Hflag. discriminate.
Qed.

End WindowInvariants.

(* ================================================================== *)
(** * Every caller is answered or waiting *)
(* ================================================================== *)

Section Callers.

Import RateLimited.

Ltac known :=
  unfold knownCallers, pendingCallers, queueCallers, settledCallers in *;
  simpl in *; rewrite ?map_app in *; simpl in *;
  repeat rewrite in_app_iff in *; simpl in *.

Lemma known_agree (s s' : State) :
  agree s s' -> knownCallers s = knownCallers s'.
Proof.
  intros (_ & Eq & _ & Ed & Ef & _ & Es & _).
  unfold knownCallers, pendingCallers, queueCallers, settledCallers.
  now rewrite Eq, Ed, Ef, Es.
Qed.

Lemma accounted_agree (s s' : State) :
  agree s s' -> accounted s -> accounted s'.
Proof.
  intros A H c Hc. rewrite <- (known_agree s s' A). apply H.
  destruct A as (_ & _ & _ & _ & _ & En & _). now rewrite En.
Qed.

Lemma isSettled_In (c : nat) (s : State) :
  isSettled c s = true -> In c (settledCallers s).
Proof.
  unfold isSettled, settledCallers. intros E.
  apply existsb_exists in E. destruct E as (p & Hin & Hp).
  apply Nat.eqb_eq in Hp. subst c. now apply in_map.
Qed.

(** After [settle] the caller is among the settled ones, and nobody has
    left. *)
Lemma known_settle (c : nat) (o : Settlement) (s : State) (x : nat) :
  In x (knownCallers s) \/ x = c -> In x (knownCallers (settle c o s)).
Proof.
  unfold settle. destruct (isSettled c s) eqn:E.
  - intros [H | ->]; [exact H |].
    apply isSettled_In in E. unfold knownCallers. apply in_or_app. now right.
  - intros H. known. intuition.
Qed.

Lemma known_dispatched (s : State) (x : nat) :
  (forall y, In y (drainCaller (drain s)) -> In y (settledCallers s)) ->
  In x (knownCallers s) -> In x (knownCallers (dispatched s)).
Proof.
  intros Hd. unfold dispatched.
  destruct (requestQueue s) as [| item rest] eqn:Eq; known; rewrite ?Eq;
    simpl; intuition.
Qed.

Lemma known_suspended (s : State) (deadline : Z) (x : nat) :
  (forall y, In y (drainCaller (drain s)) -> In y (settledCallers s)) ->
  In x (knownCallers s) ->
  In x (knownCallers (setDrain true (AwaitingSlot deadline) s)).
Proof. intros Hd. known. intuition. Qed.

Lemma known_dispatch (s : State) (x : nat) :
  (forall y, In y (drainCaller (drain s)) -> In y (settledCallers s)) ->
  In x (knownCallers s) -> In x (knownCallers (dispatch s)).
Proof.
  intros Hd H. rewrite (known_agree _ _ (dispatch_agree s)).
  now apply known_dispatched.
Qed.

Lemma known_drainLoop (s : State) (x : nat) :
  (forall y, In y (drainCaller (drain s)) -> In y (settledCallers s)) ->
  In x (knownCallers s) -> In x (knownCallers (drainLoop s)).
Proof.
  intros Hd H. destruct (drainLoop_agree s) as [A | (_ & deadline & A)];
    rewrite (known_agree _ _ A).
  - now apply known_dispatched.
  - now apply known_suspended.
Qed.

Lemma known_processQueue (s : State) (x : nat) :
  (isProcessingQueue s = false -> drainCaller (drain s) = []) ->
  In x (knownCallers s) -> In x (knownCallers (processQueue s)).
Proof.
  intros Hd H.
  destruct (processQueue_agree s) as [A | (Ef & [A | (_ & deadline & A)])];
    rewrite (known_agree _ _ A).
  - exact H.
  - apply known_dispatched; [| exact H]. rewrite (Hd Ef). simpl. tauto.
  - apply known_suspended; [| exact H]. rewrite (Hd Ef). simpl. tauto.
Qed.

Lemma In_insertByTimestamp (x y : QueuedRequest) (l : list QueuedRequest) :
  In y (insertByTimestamp x l) <-> y = x \/ In y l.
Proof.
  induction l as [| z l IH]; simpl; [intuition |].
  destruct (timestamp x <=? timestamp z); simpl; rewrite ?IH; intuition.
Qed.

Lemma In_sortByTimestamp (y : QueuedRequest) (l : list QueuedRequest) :
  In y (sortByTimestamp l) <-> In y l.
Proof.
  induction l as [| z l IH]; simpl; [tauto |].
  rewrite In_insertByTimestamp, IH. intuition.
Qed.

Lemma known_queueRequest (c : nat) (request : ImageBrandingRequest)
    (s : State) (x : nat) :
  (isProcessingQueue s = false -> drainCaller (drain s) = []) ->
  In x (knownCallers s) \/ x = c ->
  In x (knownCallers (queueRequest c request s)).
Proof.
  intros Hd H. unfold queueRequest. apply known_processQueue.
  - unfold logRateLimitStatus.
    destruct (agree_getRateLimitStatus
                (recordArrival c
                   (setQueue
                      (sortByTimestamp
                         (requestQueue s
                          ++ [{| timestamp := now s; caller := c;
                                 requestData := request; priority := 1 |}]))
                      s)))
      as (_ & _ & Ef & Edr & _).
    rewrite Ef, Edr. exact Hd.
  - unfold logRateLimitStatus.
    rewrite (known_agree _ _ (agree_getRateLimitStatus _)).
    known.
    assert (forall l, In x (map caller (sortByTimestamp l))
                      <-> In x (map caller l)) as Hsort.
    { intros l. rewrite !in_map_iff. split; intros (y & Ey & Hy); exists y;
        (split; [exact Ey |]); now apply In_sortByTimestamp. }
    rewrite Hsort, map_app, in_app_iff. simpl. intuition.
Qed.

Lemma In_removeCaller (c x : nat) (l : list (nat * ImageBrandingRequest)) :
  In x (map fst l) -> x = c \/ In x (map fst (removeCaller c l)).
Proof.
  unfold removeCaller. induction l as [| [c' r] l IH]; simpl; [tauto |].
  intros [-> | H].
  - destruct (Nat.eqb x c) eqn:E; simpl.
    + apply Nat.eqb_eq in E. now left.
    + right. now left.
  - destruct (IH H) as [-> | H']; [now left |].
    right. destruct (negb (Nat.eqb c' c)); simpl; auto.
Qed.

Lemma nextCaller_settle (c : nat) (o : Settlement) (s : State) :
  nextCaller (settle c o s) = nextCaller s.
Proof. unfold settle. destruct (isSettled c s); reflexivity. Qed.

Lemma nextCaller_dispatched (s : State) :
  nextCaller (dispatched s) = nextCaller s.
Proof. unfold dispatched. destruct (requestQueue s); reflexivity. Qed.

Lemma agree_nextCaller (s s' : State) :
  agree s s' -> nextCaller s = nextCaller s'.
Proof. now intros (_ & _ & _ & _ & _ & En & _). Qed.

Lemma nextCaller_dispatch (s : State) :
  nextCaller (dispatch s) = nextCaller s.
Proof.
  rewrite (agree_nextCaller _ _ (dispatch_agree s)).
  apply nextCaller_dispatched.
Qed.

Lemma nextCaller_drainLoop (s : State) :
  nextCaller (drainLoop s) = nextCaller s.
Proof.
  destruct (drainLoop_agree s) as [A | (_ & deadline & A)];
    rewrite (agree_nextCaller _ _ A);
    [apply nextCaller_dispatched | reflexivity].
Qed.

Lemma nextCaller_processQueue (s : State) :
  nextCaller (processQueue s) = nextCaller s.
Proof.
  destruct (processQueue_agree s) as [A | (_ & [A | (_ & deadline & A)])];
    rewrite (agree_nextCaller _ _ A);
    [reflexivity | apply nextCaller_dispatched | reflexivity].
Qed.

Lemma nextCaller_queueRequest (c : nat) (request : ImageBrandingRequest)
    (s : State) :
  nextCaller (queueRequest c request s) = nextCaller s.
Proof.
  unfold queueRequest, logRateLimitStatus.
  rewrite nextCaller_processQueue.
  now rewrite (agree_nextCaller _ _ (agree_getRateLimitStatus _)).
Qed.

(** Nobody leaves and no identifier is handed out. *)
Lemma accounted_grow (s s' : State) :
  nextCaller s' = nextCaller s ->
  (forall x, In x (knownCallers s) -> In x (knownCallers s')) ->
  accounted s -> accounted s'.
Proof. intros En Hk H x Hx. apply Hk, H. now rewrite <- En. Qed.

Lemma idle_drain (s : State) :
  Inv s -> isProcessingQueue s = false -> drainCaller (drain s) = [].
Proof.
  intros Hi Ef. pose proof (inv_flag s Hi) as Hflag. rewrite Ef in Hflag.
  destruct (drain s); try discriminate. reflexivity.
Qed.

Lemma accounted_generateBrandingImage (request : ImageBrandingRequest)
    (s : State) :
  Inv s -> accounted s -> accounted (generateBrandingImage request s).
Proof.
  intros Hi H. unfold generateBrandingImage, canMakeRequest.
  set (s0 := setNextCaller (S (nextCaller s)) s).
  destruct (_ <? maxRequestsPerMinute).
  - intros x Hx. simpl in Hx.
    assert ((x < nextCaller s)%nat \/ x = nextCaller s) as [Hlt | ->] by lia.
    + specialize (H x Hlt). known. intuition.
    + known. intuition.
  - intros x Hx. rewrite nextCaller_queueRequest in Hx. simpl in Hx.
    apply known_queueRequest; [exact (idle_drain s Hi) |].
    assert ((x < nextCaller s)%nat \/ x = nextCaller s) as [Hlt | ->] by lia;
      [left | now right].
    exact (H x Hlt).
Qed.

Lemma accounted_resumeFastPath (c : nat) (request : ImageBrandingRequest)
    (outcome : Settlement) (s s' : State) :
  Inv s -> accounted s ->
  resumeFastPath c request outcome
    (setFastPath (removeCaller c (fastPath s)) s) = Some s' ->
  accounted s'.
Proof.
  intros Hi H.
  set (s0 := setFastPath (removeCaller c (fastPath s)) s).
  assert (forall x, In x (knownCallers s) ->
                    In x (knownCallers s0) \/ x = c) as Hleft.
  { intros x Hx. subst s0. known.
    destruct Hx as [[Hx | Hx] | Hx]; auto.
    destruct (In_removeCaller c x (fastPath s) Hx); auto. }
  assert (forall o, accounted (settle c o s0)) as Hsettle.
  { intros o. apply (accounted_grow s); [now rewrite nextCaller_settle | | exact H].
    intros x Hx. apply known_settle. now apply Hleft. }
  unfold resumeFastPath.
  destruct outcome as [r | e];
    [intros E; injection E as <-; apply Hsettle |].
  destruct (isRateLimitError e);
    [| intros E; injection E as <-; apply Hsettle].
  destruct (extractRetryAfter e) as [retryAfter |]; [| discriminate].
  destruct (retryAfter >? 300); intros E; injection E as <-.
  - apply (accounted_grow s); [now rewrite nextCaller_settle | | exact H].
    intros x Hx. apply known_settle.
    destruct (Hleft x Hx) as [Hk | ->]; [left | now right]. exact Hk.
  - apply (accounted_grow s); [now rewrite nextCaller_queueRequest | | exact H].
    intros x Hx. apply known_queueRequest; [exact (idle_drain s Hi) |].
    destruct (Hleft x Hx) as [Hk | ->]; [left | now right]. exact Hk.
Qed.

Lemma accounted_resumeDrain (queueItem : QueuedRequest)
    (outcome : Settlement) (s : State) :
  drain s = AwaitingDownstream queueItem ->
  accounted s -> accounted (resumeDrain queueItem outcome s).
Proof.
  intros Ed H.
  assert (forall o, accounted (drainLoop (settle (caller queueItem) o s)))
    as Hloop.
  { intros o. apply (accounted_grow s); [| | exact H].
    - now rewrite nextCaller_drainLoop, nextCaller_settle.
    - intros x Hx. apply known_drainLoop.
      + intros y Hy.
        assert (drain (settle (caller queueItem) o s) = drain s) as Edr
          by (unfold settle; destruct (isSettled _ _); reflexivity).
        rewrite Edr, Ed in Hy. simpl in Hy. destruct Hy as [<- | []].
        unfold settle. destruct (isSettled (caller queueItem) s) eqn:E.
        * now apply isSettled_In.
        * unfold settledCallers. simpl. rewrite map_app, in_app_iff.
          right. now left.
      + apply known_settle. now left. }
  unfold resumeDrain. destruct outcome as [r | e]; [apply Hloop |].
  destruct (isRateLimitError e); [| apply Hloop].
  set (s2 := setQueue (queueItem :: requestQueue (popTimestamp s))
                      (popTimestamp s)).
  pose proof (agree_getRetryAfterTime e s2) as A.
  destruct (getRetryAfterTime e s2) as [retryWait s3]. simpl in A.
  apply (accounted_agree
           (setDrain true (AwaitingRetry (timerDue retryWait s3)) s2));
    [apply agree_sym; now apply agree_setDrain |].
  apply (accounted_grow s); [reflexivity | | exact H].
  intros x Hx. subst s2. known. rewrite Ed in Hx. simpl in Hx.
  rewrite app_nil_r. intuition.
Qed.

Lemma accounted_step (s s' : State) (ev : Event) :
  Inv s -> accounted s -> step s ev = Some s' -> accounted s'.
Proof.
  intros Hi H Hs.
  destruct ev as [d | delta | request | c w | w | | |]; simpl in Hs.
  - destruct (0 <=? d); [| discriminate]. now injection Hs as <-.
  - now injection Hs as <-.
  - injection Hs as <-. now apply accounted_generateBrandingImage.
  - destruct (lookupCaller c (fastPath s)) as [request |]; [| discriminate].
    eapply accounted_resumeFastPath; eassumption.
  - destruct (drain s) as [| | queueItem |] eqn:Ed; try discriminate.
    injection Hs as <-. now apply accounted_resumeDrain.
  - destruct (drain s) as [| deadline | | deadline] eqn:Ed; try discriminate;
      destruct (deadline <=? uptime s); try discriminate;
      injection Hs as <-.
    + apply (accounted_grow s); [apply nextCaller_dispatch | | exact H].
      intros x. apply known_dispatch. rewrite Ed. simpl. tauto.
    + apply (accounted_grow s); [apply nextCaller_drainLoop | | exact H].
      intros x. apply known_drainLoop. rewrite Ed. simpl. tauto.
  - injection Hs as <-. rewrite clearQueue_effect by assumption.
    apply (accounted_grow s); [reflexivity | | exact H].
    intros x Hx. known.
    unfold rejections. rewrite map_map. simpl.
    change (fun x0 : QueuedRequest => caller x0) with caller. intuition.
  - injection Hs as <-.
    eapply accounted_agree; [apply agree_sym, agree_getRateLimitStatus |].
    exact H.
Qed.

Lemma accounted_run (evs : list Event) (s s' : State) :
  Inv s -> accounted s -> run s evs = Some s' -> accounted s'.
Proof.
  revert s. induction evs as [| ev evs IH]; intros s Hi H Hr; simpl in Hr.
  - now injection Hr as <-.
  - destruct (step s ev) as [s1 |] eqn:Es; [| discriminate].
    apply (IH s1); [eapply Inv_step | eapply accounted_step |]; eassumption.
Qed.

(** No caller is lost and none is answered twice: in every state that the
    service reaches, each caller accepted so far is in exactly one place,
    on the fast path, in the queue, with the drain loop's downstream call,
    or among the settled promises. *)
Theorem every_caller_is_accounted_for (start : Z) (evs : list Event)
    (s : State) :
  run (init start) evs = Some s ->
  NoDup (knownCallers s) /\
  forall c, (c < nextCaller s)%nat <-> In c (knownCallers s).
Proof.
  intros Hr. pose proof (Inv_reachable start evs s Hr) as Hi.
  split; [exact (inv_nodup s Hi) |].
  intros c. split.
  - apply (accounted_run evs (init start) s (Inv_init start)); [| exact Hr].
    intros x Hx. simpl in Hx. lia.
  - intros Hin. pose proof (inv_fresh s Hi) as Hf.
    rewrite Forall_forall in Hf. apply Hf.
    unfold knownCallers in Hin. rewrite in_app_iff in *.
    destruct Hin; [now left | right; apply in_or_app; now left].
Qed.

End Callers.

(* ================================================================== *)
(** * Outcomes that are handed on as they are *)
(* ================================================================== *)

Section PassThrough.

Import RateLimited.

Lemma NoDup_app_disjoint {A : Type} (l l' : list A) (x : A) :
  NoDup (l ++ l') -> In x l -> In x l' -> False.
Proof.
  induction l as [| a l IH]; simpl; [tauto |].
  intros Hnd [-> | Hin] Hin'.
  - inversion Hnd as [| ? ? Hnot _]. apply Hnot, in_or_app. now right.
  - inversion Hnd. now apply IH.
Qed.

Lemma settled_not_pending (s : State) (c : nat) :
  Inv s -> In c (settledCallers s) -> ~ In c (pendingCallers s).
Proof.
  intros Hi Hs Hp. exact (NoDup_app_disjoint _ _ c (inv_nodup s Hi) Hp Hs).
Qed.

Lemma settled_drainLoop (s : State) :
  settled (history (drainLoop s)) = settled (history s).
Proof.
  destruct (drainLoop_agree s) as [A | (_ & deadline & A)];
    destruct A as (_ & _ & _ & _ & _ & _ & Es & _); rewrite Es;
    [unfold dispatched; destruct (requestQueue s) |]; reflexivity.
Qed.

(** A response of the downstream, or a failure that is not taken for a
    rate limit, settles the caller's promise as it is, on the fast path and
    in the drain loop; the caller is then no longer waiting anywhere, and
    on the fast path the admission stays recorded.  This is what the step
    of the service does whenever the downstream settles in that way. *)
Theorem ordinary_outcomes_pass_through (start : Z) (evs : list Event)
    (s : State) (outcome : Settlement) :
  run (init start) evs = Some s ->
  ordinary outcome = true ->
  (forall c request,
     lookupCaller c (fastPath s) = Some request ->
     exists s',
       resumeFastPath c request outcome
         (setFastPath (removeCaller c (fastPath s)) s) = Some s' /\
       (forall w, downstream w request = outcome ->
                  step s (FastPathSettles c w) = Some s') /\
       settled (history s') = settled (history s) ++ [(c, outcome)] /\
       ~ In c (pendingCallers s') /\
       requestTimestamps s' = requestTimestamps s /\
       requestQueue s' = requestQueue s)
  /\
  (forall queueItem,
     drain s = AwaitingDownstream queueItem ->
     exists s',
       resumeDrain queueItem outcome s = s' /\
       (forall w, downstream w (requestData queueItem) = outcome ->
                  step s (DrainCallSettles w) = Some s') /\
       settled (history s')
       = settled (history s) ++ [(caller queueItem, outcome)] /\
       ~ In (caller queueItem) (pendingCallers s')).
Proof.
  intros Hr Ho. pose proof (Inv_reachable _ _ _ Hr) as Hi. split.
  - intros c request Hl.
    assert (resumeFastPath c request outcome
              (setFastPath (removeCaller c (fastPath s)) s)
            = Some (settle c outcome
                      (setFastPath (removeCaller c (fastPath s)) s))) as Hs.
    { unfold resumeFastPath.
      destruct outcome as [r | e]; [reflexivity |].
      simpl in Ho. apply negb_true_iff in Ho. now rewrite Ho. }
    eexists. split; [exact Hs |].
    split; [intros w Ew; simpl; rewrite Hl, Ew; exact Hs |].
    pose proof (Inv_resumeFastPath _ _ _ _ _ Hi Hl Hs) as Hi'.
    destruct (Inv_leaveFastPath c s Hi (lookupCaller_In _ _ _ Hl))
      as (_ & Hc & _).
    assert (settle c outcome (setFastPath (removeCaller c (fastPath s)) s)
            = setHistory
                {| settled := settled (history s) ++ [(c, outcome)];
                   started := started (history s);
                   arrivals := arrivals (history s);
                   dequeued := dequeued (history s) |}
                (setFastPath (removeCaller c (fastPath s)) s)) as E.
    { unfold settle. rewrite isSettled_false; [reflexivity |].
      intros F. apply Hc. apply in_or_app. right. exact F. }
    rewrite E in *. repeat split; try reflexivity.
    apply (settled_not_pending _ c Hi').
    unfold settledCallers. simpl. rewrite map_app. apply in_or_app.
    right. now left.
  - intros queueItem Hd.
    assert (resumeDrain queueItem outcome s
            = drainLoop (settle (caller queueItem) outcome s)) as Hs.
    { unfold resumeDrain.
      destruct outcome as [r | e]; [reflexivity |].
      simpl in Ho. apply negb_true_iff in Ho. now rewrite Ho. }
    eexists. split; [exact Hs |].
    split; [intros w Ew; simpl; rewrite Hd, Ew, Hs; reflexivity |].
    pose proof (Inv_resumeDrain queueItem outcome s Hi Hd) as Hi'.
    rewrite Hs in Hi'.
    assert (~ In (caller queueItem) (settledCallers s)) as Hns.
    { intros F. apply (settled_not_pending s _ Hi F).
      unfold pendingCallers. rewrite Hd. rewrite !in_app_iff.
      right. right. now left. }
    assert (settled (history (drainLoop (settle (caller queueItem) outcome s)))
            = settled (history s) ++ [(caller queueItem, outcome)]) as E.
    { rewrite settled_drainLoop. unfold settle.
      now rewrite (isSettled_false _ _ Hns). }
    split; [exact E |].
    apply (settled_not_pending _ _ Hi').
    unfold settledCallers. rewrite E, map_app. apply in_or_app.
    right. now left.
Qed.

End PassThrough.

(* ================================================================== *)
(** * The retry hint of the provider *)
(* ================================================================== *)

Section RetryHint.

Import RateLimited.

Lemma digit_not_space (c : ascii) :
  Js.isDigit c = true ->
  Js.isSpace c = false /\ c <> "-"%char /\ c <> "+"%char.
Proof.
  destruct c as [[] [] [] [] [] [] [] []]; vm_compute; intros H;
    try discriminate H; repeat split; discriminate.
Qed.

(** A run of digits is read in full. *)
Lemma parseInt_digits (c : ascii) (t : string) :
  Js.isDigit c = true -> Js.takeWhile Js.isDigit t = t ->
  Js.parseInt (String c t) = Js.toNum (Js.digitsValue 0 (String c t)).
Proof.
  intros Hc Ht. destruct (digit_not_space c Hc) as (Hs & Hm & Hp).
  unfold Js.parseInt. cbn [Js.dropWhile]. rewrite Hs.
  assert (match String c t with
          | String "-" t0 => (true, t0)
          | String "+" t0 => (false, t0)
          | _ => (false, String c t)
          end = (false, String c t)) as ->.
  { destruct c as [[] [] [] [] [] [] [] []]; try reflexivity;
      exfalso; auto. }
  cbn [Js.takeWhile]. rewrite Hc, Ht. reflexivity.
Qed.

Lemma uint_digits (d : Decimal.uint) :
  Js.takeWhile Js.isDigit (NilEmpty.string_of_uint d)
  = NilEmpty.string_of_uint d.
Proof.
  induction d; cbn [NilEmpty.string_of_uint Js.takeWhile];
    [reflexivity | ..];
    match goal with
    | |- (if Js.isDigit ?c then _ else _) = _ =>
        change (Js.isDigit c) with true; cbv iota; now rewrite IHd
    end.
Qed.

Lemma uint_value_acc (d : Decimal.uint) (acc : positive) :
  Js.digitsValue (Z.pos acc) (NilEmpty.string_of_uint d)
  = Z.pos (Pos.of_uint_acc d acc).
Proof.
  revert acc. induction d; intros acc;
    cbn [NilEmpty.string_of_uint Js.digitsValue Pos.of_uint_acc];
    [reflexivity | ..]; rewrite <- IHd; f_equal;
    match goal with
    | |- context [Js.digitValue ?c] =>
        let v := eval vm_compute in (Js.digitValue c) in
        change (Js.digitValue c) with v
    end; lia.
Qed.

Lemma uint_value (d : Decimal.uint) :
  Js.digitsValue 0 (NilEmpty.string_of_uint d) = Z.of_N (Pos.of_uint d).
Proof.
  induction d; cbn [NilEmpty.string_of_uint Js.digitsValue Pos.of_uint];
    [reflexivity | ..];
    match goal with
    | |- context [Js.digitValue ?c] =>
        let v := eval vm_compute in (Js.digitValue c) in
        change (Js.digitValue c) with v
    end; cbn [Z.mul Z.add]; [exact IHd | ..]; apply uint_value_acc.
Qed.

Lemma parseInt_minus (c : ascii) (t : string) :
  Js.isDigit c = true -> Js.takeWhile Js.isDigit t = t ->
  Js.parseInt (String "-" (String c t))
  = Js.toNum (- Js.digitsValue 0 (String c t)).
Proof.
  intros Hc Ht. unfold Js.parseInt. cbn [Js.dropWhile].
  change (Js.isSpace "-") with false. cbv iota.
  cbn [Js.takeWhile]. rewrite Hc, Ht. reflexivity.
Qed.

Lemma uint_cons (d : Decimal.uint) :
  d <> Decimal.Nil ->
  exists c t, NilEmpty.string_of_uint d = String c t /\
              Js.isDigit c = true /\ Js.takeWhile Js.isDigit t = t.
Proof.
  intros Hn. destruct d; [contradiction | ..];
    cbn [NilEmpty.string_of_uint]; eexists; eexists;
    (split; [reflexivity |]); (split; [reflexivity | apply uint_digits]).
Qed.

Lemma uint_is (p : positive) :
  Js.digitsValue 0 (NilEmpty.string_of_uint (Pos.to_uint p)) = Z.pos p.
Proof. now rewrite uint_value, DecimalPos.Unsigned.of_to. Qed.

Lemma showZ_pos (p : positive) :
  Js.showZ (Z.pos p) = NilEmpty.string_of_uint (Pos.to_uint p).
Proof.
  unfold Js.showZ. cbn [Z.to_int NilZero.string_of_int].
  unfold NilZero.string_of_uint.
  pose proof (DecimalPos.Unsigned.to_uint_nonnil p) as Hn.
  destruct (Pos.to_uint p); [contradiction | ..]; reflexivity.
Qed.

Lemma showZ_neg (p : positive) :
  Js.showZ (Z.neg p) = String "-" (NilEmpty.string_of_uint (Pos.to_uint p)).
Proof.
  unfold Js.showZ. cbn [Z.to_int NilZero.string_of_int].
  unfold NilZero.string_of_uint.
  pose proof (DecimalPos.Unsigned.to_uint_nonnil p) as Hn.
  destruct (Pos.to_uint p); [contradiction | ..]; reflexivity.
Qed.

(** Reading back a printed integer gives the integer, within the safe
    range. *)
Lemma parseInt_showZ (z : Z) : Js.parseInt (Js.showZ z) = Js.toNum z.
Proof.
  destruct z as [| p | p]; [reflexivity | |];
    pose proof (uint_is p) as Hd;
    destruct (uint_cons (Pos.to_uint p)
                (DecimalPos.Unsigned.to_uint_nonnil p))
      as (c & t & E & Hc & Ht).
  - rewrite showZ_pos, E in *. rewrite parseInt_digits by assumption.
    now rewrite Hd.
  - rewrite showZ_neg, E in *. rewrite parseInt_minus by assumption.
    now rewrite Hd.
Qed.

Lemma showZ_nonEmpty (z : Z) : Js.showZ z <> ""%string.
Proof.
  intros E. pose proof (parseInt_showZ z) as H. rewrite E in H.
  unfold Js.toNum in H. destruct (Js.isSafeInteger z); discriminate.
Qed.

(** The hint is the number at the first place of the chain that holds a
    truthy value, whether the provider sent it as a number or as text
    (as in a header), as long as it is a safe integer: the body comes
    before the headers. *)
Theorem retry_hint_is_first_truthy (e : Js.Error) (r : Js.Response)
    (before after : list Js.Value) (v : Js.Value) (n : Z) :
  Js.response e = Some r ->
  hintLocations r = before ++ v :: after ->
  forallb (fun x => negb (Js.truthy x)) before = true ->
  Js.truthy v = true ->
  Js.isSafeInteger n = true ->
  v = Js.number n \/ v = Js.Text (Js.showZ n) ->
  extractRetryAfter e = Some n.
Proof.
  intros Hr Hl Hb Hv Hsafe Hn.
  assert (Js.orZero (Js.parseInt (Js.toString v)) = Some n) as Hval.
  { destruct Hn as [-> | ->]; simpl; rewrite parseInt_showZ;
      unfold Js.toNum; rewrite Hsafe; reflexivity. }
  clear Hn Hsafe.
  unfold extractRetryAfter. rewrite Hr. unfold hintLocations in Hl.
  destruct before as [| b1 [| b2 [| b3 [| b4 more]]]]; simpl in Hl, Hb;
    [| | | | exfalso; apply (f_equal (@List.length _)) in Hl; simpl in Hl;
             rewrite length_app in Hl; simpl in Hl; lia];
    injection Hl; intros; subst;
    repeat match goal with
           | H : _ && _ = true |- _ => apply andb_true_iff in H; destruct H
           | H : negb _ = true |- _ => apply negb_true_iff in H
           end;
    unfold Js.or;
    repeat match goal with
           | H : Js.truthy _ = _ |- _ => rewrite H
           end;
    exact Hval.
Qed.

Lemma startsWith_prefix (p rest : string) :
  Js.startsWith p (String.append p rest) = true.
Proof.
  induction p as [| c p IH]; simpl; [reflexivity |].
  now rewrite Ascii.eqb_refl, IH.
Qed.

Lemma includes_append (p pre post : string) :
  Js.includes p (String.append pre (String.append p post)) = true.
Proof.
  induction pre as [| c pre IH]; simpl.
  - destruct (String.append p post) eqn:E;
      simpl; rewrite <- E, startsWith_prefix; reflexivity.
  - rewrite IH. apply orb_true_r.
Qed.

(** The classifier goes by substrings of the message: an error whose
    message holds the digits 429 anywhere, as in a timeout of 4290 ms, is
    taken for a rate limit.  The [catch] block of the drain loop does not
    hand such an error to the caller: it puts the request back at the front
    of the queue and sets the timer of the retry. *)
Theorem digits_429_are_taken_for_rate_limit (s : State)
    (queueItem : QueuedRequest) (e : Js.Error) (pre post : string) :
  Js.message e = String.append pre (String.append "429" post) ->
  isRateLimitError e = true /\
  exists deadline,
    settled (history (resumeDrain queueItem (Rejected e) s))
    = settled (history s) /\
    requestQueue (resumeDrain queueItem (Rejected e) s)
    = queueItem :: requestQueue s /\
    drain (resumeDrain queueItem (Rejected e) s) = AwaitingRetry deadline.
Proof.
  intros Hm.
  assert (isRateLimitError e = true) as He.
  { unfold isRateLimitError. rewrite Hm, (includes_append "429").
    rewrite orb_true_r. reflexivity. }
  split; [exact He |].
  unfold resumeDrain. rewrite He.
  pose proof (agree_getRetryAfterTime e
                (setQueue (queueItem :: requestQueue (popTimestamp s))
                          (popTimestamp s))) as A.
  destruct (getRetryAfterTime e _) as [retryWait s3]. simpl in A.
  destruct A as (_ & Eq & _ & _ & _ & _ & Es & _).
  eexists. simpl.
  rewrite Es, Eq. repeat split; reflexivity.
Qed.

End RetryHint.

(* ================================================================== *)
(** * What the rate-limit endpoints answer *)
(* ================================================================== *)

Section Endpoints.

Import RateLimited.

Lemma statusReport_fields (s : State) :
  requestsInCurrentWindow (statusReport s)
  = Z.of_nat (List.length (liveTimestamps s)) /\
  status_maxRequestsPerMinute (statusReport s) = maxRequestsPerMinute /\
  queueLength (statusReport s) = Z.of_nat (List.length (requestQueue s)) /\
  nextAvailableIn (statusReport s) = fst (getNextAvailableTime s).
Proof.
  unfold statusReport.
  pose proof (canMakeRequest_state (cleanOldTimestamps s)) as Hs.
  destruct (canMakeRequest (cleanOldTimestamps s)) as [ok s2].
  simpl in Hs. subst s2.
  cbn [requestsInCurrentWindow queueLength status_canMakeRequest
       nextAvailableIn status_maxRequestsPerMinute].
  rewrite clean_keeps_live, !getNextAvailableTime_clean. auto.
Qed.

Lemma live_getRateLimitStatus (s : State) :
  liveTimestamps (getRateLimitStatus s) = liveTimestamps s.
Proof.
  unfold getRateLimitStatus.
  rewrite getNextAvailableTime_state, canMakeRequest_state.
  now rewrite !live_clean.
Qed.

Lemma getEstimatedWaitTime_state (s : State) :
  agree (snd (getEstimatedWaitTime s)) s /\
  liveTimestamps (snd (getEstimatedWaitTime s)) = liveTimestamps s.
Proof.
  unfold getEstimatedWaitTime.
  pose proof (canMakeRequest_state s) as E1.
  destruct (canMakeRequest s) as [ok s1]. simpl in E1. subst s1.
  destruct ok; simpl.
  - split; [apply agree_setTimestamps | apply live_clean].
  - pose proof (getNextAvailableTime_state (cleanOldTimestamps s)) as E2.
    destruct (getNextAvailableTime (cleanOldTimestamps s)) as [w s2].
    simpl in *. subst s2. split.
    + eapply agree_trans; apply agree_setTimestamps.
    + now rewrite !live_clean.
Qed.

(** The status endpoint answers every request with the error of its
    [catch] block and HTTP status 500.  The router is given the handler as
    a plain function, so [this] is undefined when the handler runs and the
    call of [this.getRateLimitRecommendation] throws.  By then the two
    calls of the service have been made: they clean the window, and that is
    all that the request changes. *)
Theorem status_route_always_fails (s : State) :
  fst (RateLimitController.statusRoute s)
  = RateLimitController.Failed 500 "RATE_LIMIT_STATUS_ERROR"
      "Failed to get rate limit status" /\
  agree (snd (RateLimitController.statusRoute s)) s /\
  liveTimestamps (snd (RateLimitController.statusRoute s))
  = liveTimestamps s.
Proof.
  unfold RateLimitController.statusRoute,
    RateLimitController.getRateLimitStatus.
  destruct (getEstimatedWaitTime_state (getRateLimitStatus s)) as (A & L).
  destruct (getEstimatedWaitTime (getRateLimitStatus s)) as [est s2].
  simpl in *. split; [reflexivity |]. split.
  - eapply agree_trans; [exact A | apply agree_getRateLimitStatus].
  - rewrite L. apply live_getRateLimitStatus.
Qed.

(** The clear-queue endpoint reports the number of requests that it
    rejected and a queue length of zero afterwards; the rejections are
    appended to the settled promises in queue order, and the window is as
    a status query leaves it. *)
Theorem clear_endpoint_report (start : Z) (evs : list Event) (s : State) :
  run (init start) evs = Some s ->
  let '(before, after, s') := RateLimitController.clearQueue s in
  before = Z.of_nat (List.length (requestQueue s)) /\
  after = 0 /\
  requestQueue s' = [] /\
  settled (history s')
  = settled (history s) ++ rejections (requestQueue s) /\
  Z.of_nat (List.length (settled (history s')))
  = Z.of_nat (List.length (settled (history s))) + before /\
  liveTimestamps s' = liveTimestamps s.
Proof.
  intros Hr. unfold RateLimitController.clearQueue.
  pose proof (Inv_reachable _ _ _ Hr) as Hi.
  pose proof (agree_getRateLimitStatus s) as A.
  assert (Inv (getRateLimitStatus s)) as Hi1
    by (eapply Inv_agree; [apply agree_sym, A | exact Hi]).
  set (s1 := getRateLimitStatus s) in *.
  pose proof (clearQueue_effect s1 Hi1) as Ec.
  destruct (statusReport_fields s) as (_ & _ & Eq & _).
  destruct (statusReport_fields (clearQueue s1)) as (_ & _ & Eq2 & _).
  rewrite Eq, Eq2.
  pose proof (agree_getRateLimitStatus (clearQueue s1)) as A2.
  destruct A2 as (_ & Equeue & _ & _ & _ & _ & Esettled & _).
  destruct A as (_ & Equeue1 & _ & _ & _ & _ & Esettled1 & _).
  rewrite Equeue, Esettled, Ec. simpl.
  rewrite Equeue1, Esettled1.
  repeat split; try reflexivity.
  - rewrite length_app. unfold rejections. rewrite length_map. lia.
  - rewrite live_getRateLimitStatus.
    change (liveTimestamps s1 = liveTimestamps s).
    apply live_getRateLimitStatus.
Qed.

End Endpoints.

(* ================================================================== *)
(** * These theorems at concrete executions *)
(* ================================================================== *)

Section MoreInstances.

Import GeminiGen Controller RateLimited Scenarios.

Lemma first_success_returns_witness :
  pollTaskCompletion failsThenDone
  = ({| totalTime := 38000;
        events := [Queried 1; Waited 38000; Queried 2] |},
     inr {| imageUrl := Some imageLocator |}).
Proof.
  apply (first_success_returns failsThenDone 1 (doneTask imageLocator)
           (Some imageLocator)).
  - lia.
  - intros j Hj. assert (j = 0%nat) as -> by lia.
    intros (t & u & E & Hs & _). injection E as <-. discriminate Hs.
  - reflexivity.
  - split; [reflexivity |]. eexists. eexists. split; reflexivity.
Defined.

Lemma failed_status_is_polled_again_witness :
  In (Queried 2) (events (fst (pollTaskCompletion failsThenDone))).
Proof.
  apply (failed_status_is_polled_again failsThenDone 0 failedTask).
  - lia.
  - intros j Hj. lia.
  - reflexivity.
  - left. reflexivity.
Defined.

Lemma generateImage_rewraps_http_errors_witness :
  Js.isAxiosError
    (Js.newError (Js.template ["GeminiGen API failed: "; "Too Many Requests"]))
  = false.
Proof.
  apply (generateImage_rewraps_http_errors refusedWorld). reflexivity.
Defined.

Lemma generateImage_fallback_on_500_witness :
  generateImage retriedWorld = generateImage (answeredByFallback retriedWorld).
Proof.
  apply (generateImage_fallback_on_500 retriedWorld serverError);
    reflexivity.
Defined.

Lemma response_shape_witness :
  success workingResponse = true /\
  savedFilename workingResponse = Some (filename savedImage).
Proof.
  destruct (response_shape workingWorld request workingResponse)
    as [(Hs & _ & im & sv & pl & pr & _ & Hd & _ & _ & _ & _ & _ & _ & _ & _
         & _ & Hf & _)
       | (Hs & _)].
  - reflexivity.
  - split; [exact Hs |]. rewrite Hf. f_equal. f_equal.
    injection Hd as <-. reflexivity.
  - discriminate Hs.
Defined.

Lemma accepted_request_is_normal_witness :
  true = true /\
  In (platform goodRequest) validPlatforms /\
  In (tone goodRequest) validTones /\
  exists st, style goodRequest = Some st /\ In st validStyles.
Proof.
  apply (accepted_request_is_normal true goodBody goodRequest).
  reflexivity.
Defined.

Lemma accepted_request_avoids_defaults_witness :
  getAspectRatio (platform goodRequest)
  = (if String.eqb (platform goodRequest) "instagram" then "1:1" else "16:9")
  /\
  In (mapStyleToGeminiGen (Js.orText (style goodRequest) "minimalist"))
     ["Stock Photo"; "Dynamic"; "Portrait"; "Creative"] /\
  forall productName,
    In (fallbackTagline productName (tone goodRequest))
       (map (fun suffix => Js.template [productName; suffix])
            [" - Your Vibe!"; " - Family Moments"; " - Pure Excellence";
             " - Naturally Good"; " - Time Tested"]).
Proof.
  apply (accepted_request_avoids_defaults true goodBody goodRequest).
  reflexivity.
Defined.

Lemma product_name_is_tested_before_trimming_witness :
  validate true blankBody
  = inr {| productName := ""; platform := "instagram"; tone := "youth";
           flavor := None; style := Some "vibrant" |}.
Proof.
  apply (product_name_is_tested_before_trimming goodBody "   " "Good Day "
           goodRequest).
  - discriminate.
  - discriminate.
  - reflexivity.
Defined.

Lemma wait_for_slot_suffices_witness :
  fst (canMakeRequest (setNow 60000 afterTwoWaiting)) = true.
Proof.
  apply (wait_for_slot_suffices afterTwoWaiting).
  unfold withinLimit. vm_compute. discriminate.
Defined.

Lemma requeue_restores_window_witness :
  requestTimestamps
    (resumeDrain (entry 0 5) (Rejected (tooManyRequests 10))
       (dispatch afterTwoWaiting))
  = [0; 0; 0; 0; 0].
Proof.
  apply (requeue_restores_window afterTwoWaiting (entry 0 5) [entry 0 6]
           (tooManyRequests 10)); reflexivity.
Defined.

Lemma window_is_chronological_witness :
  StronglySorted Z.le (requestTimestamps afterDrainCallThenFastPath) /\
  Forall (fun t => t <= now afterDrainCallThenFastPath)
         (requestTimestamps afterDrainCallThenFastPath) /\
  Forall (fun t => nth 0 (liveTimestamps afterDrainCallThenFastPath)
                       (now afterDrainCallThenFastPath) <= t)
         (liveTimestamps afterDrainCallThenFastPath).
Proof.
  apply (window_is_chronological 0 drainCallThenFastPath).
  - vm_compute. reflexivity.
  - reflexivity.
Defined.

Lemma waits_are_bounded_witness :
  0 <= fst (getNextAvailableTime afterTwoWaiting) <= requestWindow /\
  exists w, fst (getRetryAfterTime networkError afterTwoWaiting) = Js.Int w /\
            0 < w <= requestWindow.
Proof.
  destruct (waits_are_bounded 0 twoWaiting afterTwoWaiting networkError)
    as (H1 & H2).
  - vm_compute. reflexivity.
  - reflexivity.
  - split; [exact H1 | apply H2; reflexivity].
Defined.

Lemma limit_kept_without_slot_wait_witness :
  Z.of_nat (List.length (liveTimestamps afterTwoWaiting))
  <= maxRequestsPerMinute.
Proof.
  apply (limit_kept_without_slot_wait 0 twoWaiting).
  - vm_compute. reflexivity.
  - vm_compute. reflexivity.
Defined.

Lemma queued_requests_are_attended_witness :
  isProcessingQueue afterTwoWaiting = true /\
  drain afterTwoWaiting <> NotRunning.
Proof.
  apply (queued_requests_are_attended 0 twoWaiting).
  - vm_compute. reflexivity.
  - discriminate.
Defined.

Lemma every_caller_is_accounted_for_witness :
  NoDup (knownCallers afterThreeQueued) /\
  forall c, (c < nextCaller afterThreeQueued)%nat
            <-> In c (knownCallers afterThreeQueued).
Proof.
  apply (every_caller_is_accounted_for 0 threeQueued).
  vm_compute. reflexivity.
Defined.

Lemma ordinary_outcomes_pass_through_witness :
  exists s',
    step afterOneSubmit (FastPathSettles 0 workingWorld) = Some s' /\
    settled (history s') = [(0%nat, Resolved workingResponse)].
Proof.
  destruct (ordinary_outcomes_pass_through 0 [Submit request] afterOneSubmit
              (Resolved workingResponse)) as [H _].
  - vm_compute. reflexivity.
  - reflexivity.
  - destruct (H 0%nat request eq_refl) as (s' & _ & Hs & Hsettled & _).
    exists s'. split; [apply Hs; vm_compute; reflexivity | exact Hsettled].
Defined.

Lemma retry_hint_is_first_truthy_witness :
  extractRetryAfter (tooManyRequests 10) = Some 10.
Proof.
  apply (retry_hint_is_first_truthy (tooManyRequests 10)
           {| Js.status := Some 429; Js.statusText := "Too Many Requests";
              Js.data_message := Js.Undefined; Js.data_error := Js.Undefined;
              Js.data_detail_retry_after := Js.Undefined;
              Js.data_retry_after := Js.number 10;
              Js.header_retry_after := Js.Undefined;
              Js.header_Retry_After := Js.Undefined |}
           [Js.Undefined] [Js.Undefined; Js.Undefined] (Js.number 10) 10).
  - reflexivity.
  - reflexivity.
  - reflexivity.
  - reflexivity.
  - reflexivity.
  - left. reflexivity.
Defined.

Lemma digits_429_are_taken_for_rate_limit_witness :
  isRateLimitError slowAnswer = true /\
  exists deadline,
    settled (history (resumeDrain (entry 1000 5) (Rejected slowAnswer)
                        afterDrainCallThenFastPath))
    = settled (history afterDrainCallThenFastPath) /\
    requestQueue (resumeDrain (entry 1000 5) (Rejected slowAnswer)
                    afterDrainCallThenFastPath)
    = entry 1000 5 :: requestQueue afterDrainCallThenFastPath /\
    drain (resumeDrain (entry 1000 5) (Rejected slowAnswer)
             afterDrainCallThenFastPath)
    = AwaitingRetry deadline.
Proof.
  apply (digits_429_are_taken_for_rate_limit afterDrainCallThenFastPath
           (entry 1000 5) slowAnswer "timeout of " "0ms exceeded");
    reflexivity.
Defined.

Lemma clear_endpoint_report_witness :
  let '(before, after, s') := RateLimitController.clearQueue afterTwoWaiting in
  before = Z.of_nat (List.length (requestQueue afterTwoWaiting)) /\
  after = 0 /\
  requestQueue s' = [] /\
  settled (history s')
  = settled (history afterTwoWaiting)
    ++ rejections (requestQueue afterTwoWaiting) /\
  Z.of_nat (List.length (settled (history s')))
  = Z.of_nat (List.length (settled (history afterTwoWaiting))) + before /\
  liveTimestamps s' = liveTimestamps afterTwoWaiting.
Proof.
  apply (clear_endpoint_report 0 twoWaiting afterTwoWaiting).
  vm_compute. reflexivity.
Defined.

End MoreInstances.
